(** * createTransformer.ts: the template-to-rules compiler

    A shallow embedding of [transformTemplate] and [compileCssString] of
    [src/createTransformer.ts], and the properties of the marker codec, the
    rule splitter, the position classifier and the shape selection.

    Conventions of the embedding.
    - A JavaScript string is the list of its UTF-16 code units, each a [Z];
      a one-character string such as [r[i]] or [CLASS_MARKER] is identified
      with its code unit.
    - [String.fromCharCode] reduces its argument modulo [2^16].
    - [ts.Node] values are the inductive [Node]; the expressions of the
      user's program are opaque handles of a type [expr], wrapped by
      [Source]; the JavaScript value [undefined], which the code can push
      where a node is expected, is [Undefined].
    - [throw new Error(msg)] is the [Err] case of [Result], one [Error]
      constructor per message.
    - The external collaborators [stylisInst] and [autoprefixer.process]
      are parameters of [compileCssString].
    - The factory functions of the TypeScript compiler fail on [undefined]
      and put an operand in parentheses where its precedence asks for it;
      what they decide for an expression of the user's program is a
      parameter of the embedding, the class [Precedence]. *)

From Stdlib Require Import ZArith String Ascii Decimal DecimalString DecimalNat.
From stdpp Require Import base numbers option list gmap.

Local Open Scope Z_scope.

(** ** JavaScript strings *)

Abbreviation jsstring := (list Z).

(** The code units of an ASCII literal of the source. *)
Definition js (s : string) : jsstring :=
  map (fun a => Z.of_nat (nat_of_ascii a)) (list_ascii_of_string s).

(** [String.fromCharCode(n)]: the code unit [ToUint16(n)]. *)
Definition fromCharCode (n : Z) : Z := n mod 65536.

(** [s.length] *)
Definition jslength (s : jsstring) : Z := Z.of_nat (length s).

(** [s[i]]: [None] is [undefined]. *)
Definition charAt (s : jsstring) (i : Z) : option Z :=
  if i <? 0 then None else s !! Z.to_nat i.

(** [s.slice(b, e)], with the relative-index rule for negative arguments. *)
Definition sliceIndex (len k : Z) : Z :=
  if k <? 0 then Z.max (len + k) 0 else Z.min k len.

Definition slice (s : jsstring) (b e : Z) : jsstring :=
  let from := sliceIndex (jslength s) b in
  let to := sliceIndex (jslength s) e in
  take (Z.to_nat (to - from)) (drop (Z.to_nat from) s).

Fixpoint isPrefixOf (p s : jsstring) : bool :=
  match p, s with
  | [], _ => true
  | _ :: _, [] => false
  | x :: p', y :: s' => (x =? y) && isPrefixOf p' s'
  end.

(** [s.indexOf(p)]: the first position at which [p] occurs, or [-1]. *)
Fixpoint indexOfFrom (p s : jsstring) (i : Z) : Z :=
  if isPrefixOf p s then i
  else match s with
       | [] => -1
       | _ :: s' => indexOfFrom p s' (i + 1)
       end.

Definition indexOf (s p : jsstring) : Z := indexOfFrom p s 0.

(** [s.lastIndexOf(p)]: the last position at which [p] occurs, or [-1]. *)
Fixpoint lastIndexOfFrom (p s : jsstring) (i : Z) : Z :=
  match s with
  | [] => if isPrefixOf p s then i else -1
  | _ :: s' =>
      let later := lastIndexOfFrom p s' (i + 1) in
      if later <? 0 then (if isPrefixOf p s then i else -1) else later
  end.

Definition lastIndexOf (s p : jsstring) : Z := lastIndexOfFrom p s 0.

(** White space and line terminators: what [trim] strips and [\s] matches. *)
Definition isWhiteSpace (c : Z) : bool :=
  ((9 <=? c) && (c <=? 13)) || (c =? 32) || (c =? 160) || (c =? 5760)
  || ((8192 <=? c) && (c <=? 8202)) || (c =? 8232) || (c =? 8233)
  || (c =? 8239) || (c =? 8287) || (c =? 12288) || (c =? 65279).

Fixpoint trimStart (s : jsstring) : jsstring :=
  match s with
  | c :: s' => if isWhiteSpace c then trimStart s' else s
  | [] => []
  end.

Definition trimEnd (s : jsstring) : jsstring := reverse (trimStart (reverse s)).

(** [s.trim()] *)
Definition trim (s : jsstring) : jsstring := trimEnd (trimStart s).

(** Canonicalisation of a code unit under the [i] flag (no [u] flag), as far
    as it matters against an ASCII pattern: ASCII letters fold to upper case,
    and no code unit outside ASCII canonicalises to an ASCII one. *)
Definition canonicalize (c : Z) : Z :=
  if (97 <=? c) && (c <=? 122) then c - 32 else c.

Fixpoint equalIgnoreCase (s p : jsstring) : bool :=
  match s, p with
  | [], [] => true
  | x :: s', y :: p' => (canonicalize x =? canonicalize y) && equalIgnoreCase s' p'
  | _, _ => false
  end.

Definition endsWithIgnoreCase (s p : jsstring) : bool :=
  (length p <=? length s)%nat
  && equalIgnoreCase (drop (length s - length p)%nat s) p.

(** [/animation(-name)?:\s*$/i.exec(s)] as a truth value: the colon of the
    property is followed by white space only, so the match is decided on [s]
    without its trailing white space. *)
Definition animationRegExp (s : jsstring) : bool :=
  let body := trimEnd s in
  endsWithIgnoreCase body (js "animation:")
  || endsWithIgnoreCase body (js "animation-name:").

(** ['expr' + n] for a non-negative integer [n]. *)
Definition decimal (n : nat) : jsstring := js (NilEmpty.string_of_uint (Nat.to_uint n)).

(** ** Errors *)

Inductive Error : Type :=
  | UnexpectedKeyframeCompilation  (* 'Unexpected keyframe compilation' *)
  | FailedToParseCssRules          (* 'Failed to parse css rules' *)
  | ComponentReferencesInKeyframes (* 'Did not expect component references in keyframes' *)
  | UnexpectedKeyframesCount       (* 'Unexpected keyframes count' *)
  | Unexpected                     (* 'Unexpected!' *)
  | Unexpected1                    (* 'Unexpected 1!' *)
  | Unexpected2                    (* 'Unexpected 2!' *)
  | TypeError                      (* a property read on [undefined] *)
  | SourceNodeText.                (* [.text] read on a node of the user's program *)

Inductive Result (A : Type) : Type :=
  | Ok (a : A)
  | Err (e : Error).
Arguments Ok {A} a.
Arguments Err {A} e.

#[global] Instance Result_ret : MRet Result := fun A a => Ok a.

#[global] Instance Result_bind : MBind Result := fun A B k r =>
  match r with
  | Ok a => k a
  | Err e => Err e
  end.

(** ** Syntax trees *)

#[local] Set Warnings "-register-all".

(** The [ts.Node] values the transformer handles. [Source e] is an expression
    [e] of the user's program; the other nodes are those the transformer
    creates with [ts.createIdentifier], [ts.createLiteral], [ts.createAdd],
    [ts.createArrayLiteral] and [ts.createArrowFunction] (of which only the
    parameter names and the body are kept), and the parentheses that the
    factory puts around an operand ([ts.createParen]). *)
Inductive Node (expr : Type) : Type :=
  | Undefined
  | Source (e : expr)
  | Identifier (text : jsstring)
  | StringLiteral (text : jsstring)
  | Add (left right : Node expr)
  | ArrayLiteral (elements : list (Node expr))
  | ArrowFunction (parameters : list jsstring) (body : Node expr)
  | Parenthesized (expression : Node expr).
Arguments Undefined {expr}.
Arguments Source {expr} e.
Arguments Identifier {expr} text.
Arguments StringLiteral {expr} text.
Arguments Add {expr} left right.
Arguments ArrayLiteral {expr} elements.
Arguments ArrowFunction {expr} parameters body.
Arguments Parenthesized {expr} expression.

(** The factory functions [ts.createAdd], [ts.createArrayLiteral] and
    [ts.createCall] belong to the TypeScript compiler, which is not part of
    this repository. They look at the operands they are given:
    [createAdd] passes each operand through [parenthesizeBinaryOperand], and
    [createArrayLiteral] and [createCall] pass each element through
    [parenthesizeExpressionForList]. Both read the kind of the operand, which
    is a [TypeError] on [undefined], and both wrap the operand in a
    [ParenthesizedExpression] when its precedence is too low for the place.
    The nodes that the transformer creates need no parentheses where it puts
    them: literals, identifiers, array literals and arrow functions are
    primary expressions, and a sum stands on the left of a sum. For an
    expression of the user's program the answer depends on what the
    expression is; the two tests are parameters of the embedding:
    - [binaryOperandNeedsParentheses e isLeftSideOfBinary leftOperand], for
      the operator [+];
    - [listElementNeedsParentheses e], whether the precedence of [e] is not
      above that of the comma. *)
Class Precedence (expr : Type) : Type := {
binaryOperandNeedsParentheses : expr -> bool -> option (Node expr) -> bool;
listElementNeedsParentheses : expr -> bool
}.

(** In the examples the expressions of the user's program are identifiers,
    given by their names; an identifier is never put in parentheses. *)
#[global] Instance identifiers : Precedence string := {|
  binaryOperandNeedsParentheses _ _ _ := false;
  listElementNeedsParentheses _ := false
|}.

(** A template literal: either without substitution, or a head followed by
    spans of an expression and the literal text after it. *)
Inductive TemplateLiteral (expr : Type) : Type :=
  | NoSubstitutionTemplateLiteral (text : jsstring)
  | TemplateExpression (head : jsstring) (templateSpans : list (expr * jsstring)).
Arguments NoSubstitutionTemplateLiteral {expr} text.
Arguments TemplateExpression {expr} head templateSpans.

(** An element of [parts : (string|ts.Node)[]]. *)
Inductive Part (expr : Type) : Type :=
  | PString (s : jsstring)
  | PNode (e : expr).
Arguments PString {expr} s.
Arguments PNode {expr} e.

(** The four positions of the classifier (the enum [CssPosition]). *)
Module CssPosition.
Inductive t : Type :=
  | None
  | ElementRule      (* in a position to do 'font-size: ...' *)
  | ElementSelector
  | MediaSelector.

Definition eqb (p q : t) : bool :=
  match p, q with
  | None, None | ElementRule, ElementRule
  | ElementSelector, ElementSelector | MediaSelector, MediaSelector => true
  | _, _ => false
  end.
End CssPosition.

(** The result [{ tmpl, args }] of [transformTemplate]. *)
Record Output (expr : Type) : Type := mkOutput {
tmpl : Node expr;
args : list (Node expr)
}.
Arguments mkOutput {expr} tmpl args.
Arguments tmpl {expr} o.
Arguments args {expr} o.

(** The named slots shared by all rule blocks of one compilation. *)
Record Slots (expr : Type) : Type := mkSlots {
exprArgs : list (Node expr);
exprVals : list (Node expr);
argsByCode : gmap Z (Node expr)
}.
Arguments mkSlots {expr} exprArgs exprVals argsByCode.
Arguments exprArgs {expr} s.
Arguments exprVals {expr} s.
Arguments argsByCode {expr} s.

(** The variables of the loop over the characters of one rule block. *)
Record BlockState (expr : Type) : Type := mkBlockState {
addTerms : list (Node expr);
accum : jsstring;
pos : CssPosition.t;
slots : Slots expr
}.
Arguments mkBlockState {expr} addTerms accum pos slots.
Arguments addTerms {expr} b.
Arguments accum {expr} b.
Arguments pos {expr} b.
Arguments slots {expr} b.

Definition START_CODE : Z := 230.

(** [CLASS_MARKER = String.fromCharCode(NEXT_CODE++)] with [NEXT_CODE] at
  [START_CODE]; the counter is [START_CODE + 1] afterwards. *)
Definition CLASS_MARKER : Z := fromCharCode START_CODE.

Section Transformer.
Context {expr : Type} `{!Precedence expr}.

Abbreviation Node := (Node expr).
Abbreviation Part := (Part expr).

(** *** Extraction of the parts *)

Definition traverseSpan (span : expr * jsstring) : list Part :=
  [PNode span.1; PString span.2].

Definition traverseExtract (t : TemplateLiteral expr) : list Part :=
  match t with
  | NoSubstitutionTemplateLiteral text => [PString text]
  | TemplateExpression head spans =>
      PString head :: concat (map traverseSpan spans)
  end.

(** *** Marker codec *)

(** [parts.map(s => typeof(s) !== 'string' ? String.fromCharCode(NEXT_CODE++) : s)]:
    the mapped array and the final value of [NEXT_CODE]. *)
Fixpoint encodeParts (parts : list Part) (NEXT_CODE : Z) : list jsstring * Z :=
  match parts with
  | [] => ([], NEXT_CODE)
  | PNode _ :: ps =>
      let '(strs, n) := encodeParts ps (NEXT_CODE + 1) in
      ([fromCharCode NEXT_CODE] :: strs, n)
  | PString s :: ps =>
      let '(strs, n) := encodeParts ps NEXT_CODE in
      (s :: strs, n)
  end.

(** [combined = parts.map(...).join('')] *)
Definition combined (parts : list Part) : jsstring :=
  concat (encodeParts parts (START_CODE + 1)).1.

(** [exprParts]: the nodes of [parts], in order. *)
Fixpoint exprPartsOf (parts : list Part) : list expr :=
  match parts with
  | [] => []
  | PNode e :: ps => e :: exprPartsOf ps
  | PString _ :: ps => exprPartsOf ps
  end.

(** [exprFromChar(c) = exprParts[c.charCodeAt(0) - START_CODE - 1]] *)
Definition exprFromChar (exprParts : list expr) (c : Z) : Node :=
  let k := c - START_CODE - 1 in
  if k <? 0 then Undefined
  else match exprParts !! Z.to_nat k with
       | Some e => Source e
       | None => Undefined
       end.

(** *** Rule splitter *)

(** The loop [for (i = 0; i < out.length; i++)] of the splitter, at index
    [i] with [rest] the characters from [i] on; it returns the final [idx]
    and [rules]. *)
Fixpoint splitLoop (out rest : jsstring) (i idx level : Z)
    (rules : list jsstring) : Z * list jsstring :=
  match rest with
  | [] => (idx, rules)
  | c :: rest' =>
      if c =? 123 (* '{' *) then
        splitLoop out rest' (i + 1) idx (level + 1) rules
      else if c =? 125 (* '}' *) then
        let level := level - 1 in
        if level =? 0 then
          splitLoop out rest' (i + 1) (i + 1) level
            (rules ++ [slice out idx (i + 1)])
        else splitLoop out rest' (i + 1) idx level rules
      else splitLoop out rest' (i + 1) idx level rules
  end.

Definition splitRules (out : jsstring) (singleKeyframe : bool)
    : Result (list jsstring) :=
  if singleKeyframe then Ok [out]
  else
    let '(idx, rules) := splitLoop out out 0 0 0 [] in
    if idx =? jslength out then Ok rules else Err FailedToParseCssRules.

(** *** Position classifier *)

(** The first [if] of the loop body: leaving [CssPosition.None]. *)
Definition leaveNone (pos : CssPosition.t) (c : Z) : CssPosition.t :=
  match pos with
  | CssPosition.None =>
      if c =? 64 (* '@' *) then CssPosition.MediaSelector
      else if (c =? 125 (* '}' *)) || (c =? 32 (* ' ' *)) then CssPosition.None
      else CssPosition.ElementSelector
  | _ => pos
  end.

(** The [if / else if / else if] that follows it. *)
Definition followBrace (pos : CssPosition.t) (c : Z) : CssPosition.t :=
  match pos with
  | CssPosition.MediaSelector =>
      if c =? 123 (* '{' *) then CssPosition.ElementSelector else pos
  | CssPosition.ElementSelector =>
      if c =? 123 (* '{' *) then CssPosition.ElementRule else pos
  | CssPosition.ElementRule =>
      if c =? 125 (* '}' *) then CssPosition.None else pos
  | CssPosition.None => pos
  end.

(** The position after the character [c], which is also the position at
    which [c] itself is classified when it is a marker. *)
Definition nextPos (pos : CssPosition.t) (c : Z) : CssPosition.t :=
  followBrace (leaveNone pos c) c.

(** [classNameArg = ts.createIdentifier('cls')] *)
Definition classNameArg : Node := Identifier (js "cls").

(** [rn[0] !== classNameArg] compares object identities. The only
    identifiers among the terms are [classNameArg] and the slots
    [expr0], [expr1], ...; the identifiers of the user's program are [Source]
    nodes. So the identity test is a test on the name. *)
Definition isClassNameArg (n : Node) : bool :=
  match n with
  | Identifier text => bool_decide (text = js "cls")
  | _ => false
  end.

(** [addAccum()] *)
Definition addAccum (b : BlockState expr) : BlockState expr :=
  match accum b with
  | [] => b
  | _ :: _ =>
      mkBlockState (addTerms b ++ [StringLiteral (accum b)]) [] (pos b) (slots b)
  end.

(** [add(right)] *)
Definition add (right : Node) (b : BlockState expr) : BlockState expr :=
  mkBlockState (addTerms b ++ [right]) (accum b) (pos b) (slots b).

(** The branch of the loop body for a marker other than [CLASS_MARKER]. *)
Definition addMarker (exprParts : list expr) (c : Z) (b : BlockState expr)
    : BlockState expr :=
  let isClassRef := CssPosition.eqb (pos b) CssPosition.ElementSelector in
  let isAnimRef :=
    CssPosition.eqb (pos b) CssPosition.ElementRule
    && animationRegExp (trim (accum b)) in
  let b :=
    if isClassRef
    then mkBlockState (addTerms b) (accum b ++ [46 (* '.' *)]) (pos b) (slots b)
    else b in
  let b := addAccum b in
  match argsByCode (slots b) !! c with
  | Some arg => add arg b
  | None =>
      if isClassRef || isAnimRef then
        let arg := Identifier (js "expr" ++ decimal (length (exprArgs (slots b)))) in
        let s := mkSlots (exprArgs (slots b) ++ [arg])
                         (exprVals (slots b) ++ [exprFromChar exprParts c])
                         (<[c := arg]> (argsByCode (slots b))) in
        add arg (mkBlockState (addTerms b) (accum b) (pos b) s)
      else add (exprFromChar exprParts c) b
  end.

(** One iteration of [for (i = 0; i < r.length; i++)] on the character [c]. *)
Definition blockStep (exprParts : list expr) (b : BlockState expr) (c : Z)
    : BlockState expr :=
  let b := mkBlockState (addTerms b) (accum b) (nextPos (pos b) c) (slots b) in
  if c =? CLASS_MARKER then add classNameArg (addAccum b)
  else if START_CODE <=? c then addMarker exprParts c b
  else mkBlockState (addTerms b) (accum b ++ [c]) (pos b) (slots b).

(** The callback of [rules.map]: the terms of the block [r], and the slots
    after it. *)
Definition ruleTerms (exprParts : list expr) (s : Slots expr) (r : jsstring)
    : list Node * Slots expr :=
  let b := foldl (blockStep exprParts) (mkBlockState [] [] CssPosition.None s) r in
  let b := addAccum b in
  (addTerms b, slots b).

(** [rules.map(...)], threading the slots through the blocks. *)
Fixpoint mapRules (exprParts : list expr) (s : Slots expr) (rules : list jsstring)
    : list (list Node) * Slots expr :=
  match rules with
  | [] => ([], s)
  | r :: rules' =>
      let '(terms, s) := ruleTerms exprParts s r in
      let '(nodes, s) := mapRules exprParts s rules' in
      (terms :: nodes, s)
  end.

Definition emptySlots : Slots expr := mkSlots [] [] ∅.

(** [ruleNodes] after [ruleNodes.filter(arr => arr.length > 0)], and the
    slots at that point. *)
Definition ruleNodesOf (exprParts : list expr) (rules : list jsstring)
    : list (list Node) * Slots expr :=
  let '(nodes, s) := mapRules exprParts emptySlots rules in
  (filter (fun arr => (0 < length arr)%nat) nodes, s).

(** *** Shape selection *)

(** [parenthesizeBinaryOperand(SyntaxKind.PlusToken, operand,
    isLeftSideOfBinary, leftOperand)] *)
Definition parenthesizeBinaryOperand (operand : Node) (isLeftSideOfBinary : bool)
    (leftOperand : option Node) : Result Node :=
  match operand with
  | Undefined => Err TypeError
  | Source e =>
      if binaryOperandNeedsParentheses e isLeftSideOfBinary leftOperand
      then Ok (Parenthesized operand)
      else Ok operand
  | _ => Ok operand
  end.

(** [ts.createAdd(left, right)] *)
Definition createAdd (lhs rhs : Node) : Result Node :=
  lhs ← parenthesizeBinaryOperand lhs true None;
  rhs ← parenthesizeBinaryOperand rhs false (Some lhs);
  Ok (Add lhs rhs).

(** [parenthesizeExpressionForList(expression)] *)
Definition parenthesizeExpressionForList (expression : Node) : Result Node :=
  match expression with
  | Undefined => Err TypeError
  | Source e =>
      if listElementNeedsParentheses e
      then Ok (Parenthesized expression)
      else Ok expression
  | _ => Ok expression
  end.

(** [ts.createArrayLiteral(elements)] *)
Definition createArrayLiteral (elements : list Node) : Result Node :=
  elements ← mapM parenthesizeExpressionForList elements;
  Ok (ArrayLiteral elements).

(** [for (i = 1; i < arr.length; i++) left = ts.createAdd(left, arr[i])],
    from the index of the first term of [arr] on. *)
Fixpoint addLoop (lhs : Node) (arr : list Node) : Result Node :=
  match arr with
  | [] => Ok lhs
  | rhs :: arr' => lhs ← createAdd lhs rhs; addLoop lhs arr'
  end.

(** The callback of [addUpRules]: [arr[0] + arr[1] + ...]; [arr[0]] as it is
    for one term, and [undefined] for an empty [arr]. *)
Definition addUp (arr : list Node) : Result Node :=
  match arr with
  | [] => Ok Undefined
  | first :: rest => addLoop first rest
  end.

(** The loop that sets [allSimple] and [isSuperSimple], with its [break]
    (the array [simpleStrings] that it fills is never read). *)
Fixpoint simpleScan (rules : list jsstring) (isSuperSimple : bool) : bool * bool :=
  match rules with
  | [] => (true, isSuperSimple)
  | r :: rules' =>
      if bool_decide (charAt r 0 = Some CLASS_MARKER)
         && (lastIndexOf r [CLASS_MARKER] =? 0)
      then simpleScan rules'
             (if bool_decide (charAt r 1 = Some 123 (* '{' *))
              then isSuperSimple else false)
      else (false, isSuperSimple)
  end.

(** [n.text] for a term [n] of a rule. The static path reads and writes the
    text of the first and of the last term of a block; on the blocks of the
    splitter these are literals ([transformProcessed_total] below). What the
    user's own node would answer is outside the model: the read is the
    result [SourceNodeText]. *)
Definition nodeText (n : Node) : Result jsstring :=
  match n with
  | StringLiteral text | Identifier text => Ok text
  | Source _ => Err SourceNodeText
  | _ => Err TypeError
  end.

(** [n.text = text] *)
Definition setText (n : Node) (text : jsstring) : Node :=
  match n with
  | StringLiteral _ => StringLiteral text
  | Identifier _ => Identifier text
  | _ => n
  end.

(** Removing the ['{'] of [rn[0]]. *)
Definition stripOpen (rn : list Node) : Result (list Node) :=
  match rn with
  | [] => Err TypeError
  | first :: rest =>
      text ← nodeText first;
      if bool_decide (charAt text 0 = Some 123 (* '{' *))
      then Ok (setText first (slice text 1 (jslength text)) :: rest)
      else Err Unexpected1
  end.

(** Removing the ['}'] of the last term, and the term when nothing is left. *)
Definition stripClose (rn : list Node) : Result (list Node) :=
  match last rn with
  | None => Err TypeError
  | Some l =>
      text ← nodeText l;
      if bool_decide (charAt text (jslength text - 1) = Some 125 (* '}' *))
      then
        let text := slice text 0 (jslength text - 1) in
        if jslength text =? 0 then Ok (removelast rn)
        else Ok (removelast rn ++ [setText l text])
      else Err Unexpected2
  end.

(** The callback of [ruleNodes.map] on the static path, which edits [rn] in
    place. *)
Definition stripRule (collapseSingle : bool) (rn : list Node) : Result (list Node) :=
  match rn with
  | [] => Err Unexpected
  | first :: rn =>
      if isClassNameArg first then
        rn ← (if collapseSingle then stripOpen rn else Ok rn);
        if collapseSingle then stripClose rn else Ok rn
      else Err Unexpected
  end.

Definition keyframeShape (ruleNodes : list (list Node)) (s : Slots expr)
    : Result (Output expr) :=
  if (0 <? length (exprVals s))%nat then Err ComponentReferencesInKeyframes
  else match ruleNodes with
       | [arr] => sum ← addUp arr; Ok (mkOutput sum [])
       | _ => Err UnexpectedKeyframesCount
       end.

Definition staticShape (ruleNodes : list (list Node)) (isSuperSimple : bool)
    : Result (Output expr) :=
  let collapseSingle := (length ruleNodes =? 1)%nat && isSuperSimple in
  stripped ← mapM (stripRule collapseSingle) ruleNodes;
  added ← mapM addUp stripped;
  if collapseSingle
  then Ok (mkOutput (default Undefined (head added)) [])
  else array ← createArrayLiteral added; Ok (mkOutput array []).

(** [arg.text] of a slot identifier *)
Definition parameterName (arg : Node) : jsstring :=
  match arg with
  | Identifier text => text
  | _ => []
  end.

Definition functionalShape (ruleNodes : list (list Node)) (s : Slots expr)
    : Result (Output expr) :=
  added ← mapM addUp ruleNodes;
  body ← createArrayLiteral added;
  Ok (mkOutput (ArrowFunction (js "cls" :: map parameterName (exprArgs s)) body)
               (exprVals s)).

(** [transformTemplate] from the processed text [out] on. *)
Definition transformProcessed (exprParts : list expr) (singleKeyframe : bool)
    (out : jsstring) : Result (Output expr) :=
  rules ← splitRules out singleKeyframe;
  let '(ruleNodes, s) := ruleNodesOf exprParts rules in
  if singleKeyframe then keyframeShape ruleNodes s
  else if (length (exprVals s) =? 0)%nat then
    let '(allSimple, isSuperSimple) := simpleScan rules true in
    if allSimple then staticShape ruleNodes isSuperSimple
    else functionalShape ruleNodes s
  else functionalShape ruleNodes s.

(** *** CSS pipeline *)

Variable stylisInst : jsstring -> jsstring -> jsstring.
Variable autoprefixer : jsstring -> jsstring.

Definition keyframesOpen : jsstring := js "@keyframes x{".

Definition compileCssString (context str : jsstring) (singleKeyframe : bool)
    : Result jsstring :=
  let str := if singleKeyframe then keyframesOpen ++ str ++ [125 (* '}' *)] else str in
  let str := stylisInst context str in
  str ←
    (if singleKeyframe then
       if negb (indexOf str keyframesOpen =? 0)
          || negb (bool_decide (charAt str (jslength str - 1) = Some 125))
       then Err UnexpectedKeyframeCompilation
       else Ok (slice str (jslength keyframesOpen) (jslength str - 1))
     else Ok str);
  Ok (autoprefixer str).

Definition transformTemplate (t : TemplateLiteral expr) (singleKeyframe : bool)
    : Result (Output expr) :=
  let parts := traverseExtract t in
  out ← compileCssString [CLASS_MARKER] (combined parts) singleKeyframe;
  transformProcessed (exprPartsOf parts) singleKeyframe out.

End Transformer.

(** ** Rebuilding a template from the parts

    [traverseRecreate] (lines 166-208) builds a copy of the template whose
    literals are taken from the queue [parts], front first ([parts.shift()]),
    and checks that the expressions met in the queue are those of the
    template. The check [val !== t.expression] compares the identities of
    two nodes of the user's program, so [expr] has a decidable equality
    here. A result carries what is left of the queue. [transformTemplate]
    declares the function and does not call it. *)

Inductive RecreateError : Type :=
  | Failed     (* 'Failed' *)
  | Failure.   (* 'Failure!' *)

Section Recreate.
Context {expr : Type} `{EqDecision expr}.

(** The literal kinds: [v = parts.shift()], which has to be a string. *)
Definition recreateLiteral (parts : list (Part expr))
    : RecreateError + (jsstring * list (Part expr)) :=
  match parts with
  | PString v :: parts => inr (v, parts)
  | _ => inl Failed
  end.

(** A [TemplateSpan]: [val = parts.shift()], which has to be the expression of
    the span; then the literal of the span. *)
Definition recreateSpan (span : expr * jsstring) (parts : list (Part expr))
    : RecreateError + ((expr * jsstring) * list (Part expr)) :=
  match parts with
  | PNode val :: parts =>
      if decide (val = span.1) then
        match recreateLiteral parts with
        | inr (v, parts) => inr ((span.1, v), parts)
        | inl e => inl e
        end
      else inl Failure
  | _ => inl Failure
  end.

(** [t.templateSpans.map(traverseRecreate)] *)
Fixpoint recreateSpans (spans : list (expr * jsstring)) (parts : list (Part expr))
    : RecreateError + (list (expr * jsstring) * list (Part expr)) :=
  match spans with
  | [] => inr ([], parts)
  | span :: spans =>
      match recreateSpan span parts with
      | inr (span', parts) =>
          match recreateSpans spans parts with
          | inr (spans', parts) => inr (span' :: spans', parts)
          | inl e => inl e
          end
      | inl e => inl e
      end
  end.

Definition traverseRecreate (t : TemplateLiteral expr) (parts : list (Part expr))
    : RecreateError + (TemplateLiteral expr * list (Part expr)) :=
  match t with
  | NoSubstitutionTemplateLiteral _ =>
      match recreateLiteral parts with
      | inr (v, parts) => inr (NoSubstitutionTemplateLiteral v, parts)
      | inl e => inl e
      end
  | TemplateExpression _ spans =>
      match recreateLiteral parts with
      | inr (head, parts) =>
          match recreateSpans spans parts with
          | inr (spans', parts) => inr (TemplateExpression head spans', parts)
          | inl e => inl e
          end
      | inl e => inl e
      end
  end.

End Recreate.

(** ** The tags and the visitor

    The tag of a tagged template, as far as the recognisers (lines 25-78)
    look into it. The tests imported from './ts-is-kind'
    ([isIdentifier], [isPropertyAccessExpression], [isCallExpression],
    [isTaggedTemplateExpression]) are tests of the kind of the node. *)

Inductive Expression : Type :=
  | IdentifierExpression (text : jsstring)
  | PropertyAccessExpression (expression : Expression) (name : jsstring)
  | CallExpression (expression : Expression) (arguments : list Expression)
  | OtherExpression.

(** What the visitor (lines 595-650) is given, and what it returns. *)
Inductive SyntaxNode (expr : Type) : Type :=
  | TaggedTemplateExpression (tag : Expression) (template : TemplateLiteral expr)
  | OtherNode.
Arguments TaggedTemplateExpression {expr} tag template.
Arguments OtherNode {expr}.

Inductive Visited (expr : Type) : Type :=
  | NewCall (expression : Expression) (arguments : list (Node expr))
      (* the call expression that replaces the node *)
  | VisitEachChild.
      (* [ts.visitEachChild(node, visitor, context)] *)
Arguments NewCall {expr} expression arguments.
Arguments VisitEachChild {expr}.

Section Visitor.
Context {expr : Type} `{!Precedence expr}.

(** [String.prototype.toUpperCase] *)
Variable toUpperCase : jsstring -> jsstring.

Definition isKeyframesIdentifier (node : Expression) : bool :=
  match node with
  | IdentifierExpression text => bool_decide (text = js "keyframes")
  | _ => false
  end.

Definition isStyledObject (node : Expression) : bool :=
  match node with
  | IdentifierExpression text => bool_decide (text = js "styled")
  | _ => false
  end.

(** [name[0] === name[0].toUpperCase()]: [name[0]] is [undefined] when the
    name is empty, and the call of its method fails. *)
Definition isValidComponentName (name : jsstring) : Result bool :=
  match name with
  | [] => Err TypeError
  | c :: _ => Ok (bool_decide ([c] = toUpperCase [c]))
  end.

Definition isValidComponent (node : Expression) : Result bool :=
  match node with
  | IdentifierExpression text => isValidComponentName text
  | _ => Ok false
  end.

(** [isStyledFunction], with the body of [isStyledAttrs] in the place of its
    call. *)
Fixpoint isStyledFunction (node : Expression) : Result bool :=
  match node with
  | PropertyAccessExpression expression name =>
      if isStyledObject expression then Ok true
      else if bool_decide (name = js "extend") then isValidComponent expression
      else Ok false
  | CallExpression expression arguments =>
      if (length arguments =? 1)%nat then
        if isStyledObject expression then Ok true
        else
          match expression with
          | PropertyAccessExpression expression' name =>
              if bool_decide (name = js "attrs") then isStyledFunction expression'
              else Ok false
          | _ => Ok false
          end
      else Ok false
  | _ => Ok false
  end.

Definition isStyledAttrs (node : Expression) : Result bool :=
  match node with
  | PropertyAccessExpression expression name =>
      if bool_decide (name = js "attrs") then isStyledFunction expression
      else Ok false
  | _ => Ok false
  end.

Variable stylisInst : jsstring -> jsstring -> jsstring.
Variable autoprefixer : jsstring -> jsstring.

(** [ts.createCall(expression, undefined, argumentsArray)]: every argument
    goes through [parenthesizeExpressionForList]. The callee goes through
    [parenthesizeForAccess], which leaves a left-hand-side expression as it
    is; the tags on which the visitor builds a call (identifiers, property
    accesses and calls) are of this kind. *)
Definition createCall (expression : Expression) (argumentsArray : list (Node expr))
    : Result (Visited expr) :=
  arguments ← mapM parenthesizeExpressionForList argumentsArray;
  Ok (NewCall expression arguments).

(** The visitor at one node. *)
Definition visitor (node : SyntaxNode expr) : Result (Visited expr) :=
  match node with
  | TaggedTemplateExpression tag template =>
      styled ← isStyledFunction tag;
      if styled || isKeyframesIdentifier tag then
        if isKeyframesIdentifier tag then
          tf ← transformTemplate stylisInst autoprefixer template true;
          createCall tag [tmpl tf]
        else
          tf ← transformTemplate stylisInst autoprefixer template false;
          createCall tag (tmpl tf :: args tf)
      else Ok VisitEachChild
  | OtherNode => Ok VisitEachChild
  end.

End Visitor.

(** ** Vocabulary of the statements *)

(** The brace depth of a text: its ['{'] minus its ['}']. *)
Fixpoint braceDepth (s : jsstring) : Z :=
  match s with
  | [] => 0
  | c :: s' =>
      (if c =? 123 then 1 else if c =? 125 then -1 else 0) + braceDepth s'
  end.

(** A text none of whose prefixes ends in a ['}'] that brings the depth to 0. *)
Definition openText (s : jsstring) : Prop :=
  ∀ p q, s = p ++ q → last p = Some 125 → braceDepth p ≠ 0.

(** A block closed by the ['}'] that brings the depth back to 0 for the first
    time. *)
Definition closedBlock (r : jsstring) : Prop :=
  ∃ body, r = body ++ [125] ∧ braceDepth r = 0 ∧ openText body.

(** The transition table of the classifier as the specification words it:
    the listed transitions, and no change of state on any other character. *)
Definition specNextPos (pos : CssPosition.t) (c : Z) : CssPosition.t :=
  match pos with
  | CssPosition.None =>
      if c =? 64 then CssPosition.MediaSelector
      else if (c =? 32) || (c =? 125) then CssPosition.None
      else if c =? 123 then CssPosition.None
      else CssPosition.ElementSelector
  | CssPosition.MediaSelector =>
      if c =? 123 then CssPosition.ElementSelector else CssPosition.MediaSelector
  | CssPosition.ElementSelector =>
      if c =? 123 then CssPosition.ElementRule else CssPosition.ElementSelector
  | CssPosition.ElementRule =>
      if c =? 125 then CssPosition.None else CssPosition.ElementRule
  end.

(** The markers that [encodeParts] hands out, one per node of [parts]: the
    elements of the mapped array at the positions of the nodes. *)
Fixpoint markersOf {expr} (parts : list (Part expr)) (strs : list jsstring)
    : list jsstring :=
  match parts, strs with
  | PNode _ :: ps, m :: strs' => m :: markersOf ps strs'
  | PString _ :: ps, _ :: strs' => markersOf ps strs'
  | _, _ => []
  end.

Definition exprMarkers {expr} (parts : list (Part expr)) : list jsstring :=
  markersOf parts (encodeParts parts (START_CODE + 1)).1.

(** The flattened text as the specification words it: the literal text
    verbatim, and the code point [START_CODE + 1 + k] for the node number
    [k]. *)
Fixpoint markedText {expr} (parts : list (Part expr)) (k : Z) : jsstring :=
  match parts with
  | [] => []
  | PString s :: ps => s ++ markedText ps k
  | PNode _ :: ps => (START_CODE + 1 + k) :: markedText ps (k + 1)
  end.

(** A piece of a text split at its markers: literal text, or what a marker
    decodes to. *)
Inductive Decoded (expr : Type) : Type :=
  | DText (s : jsstring)
  | DNode (n : Node expr).
Arguments DText {expr} s.
Arguments DNode {expr} n.

(** Splitting a text at the markers of expressions (the code units above
    [START_CODE]), each decoded by [exprFromChar]. *)
Fixpoint splitMarkers {expr} (exprParts : list expr) (s acc : jsstring)
    : list (Decoded expr) :=
  match s with
  | [] => [DText acc]
  | c :: s' =>
      if START_CODE <? c
      then DText acc :: DNode (exprFromChar exprParts c) :: splitMarkers exprParts s' []
      else splitMarkers exprParts s' (acc ++ [c])
  end.

(** The sequence of literals and expressions of [parts], literals that
    follow one another taken as one. *)
Fixpoint mergeParts {expr} (parts : list (Part expr)) (acc : jsstring)
    : list (Decoded expr) :=
  match parts with
  | [] => [DText acc]
  | PString s :: ps => mergeParts ps (acc ++ s)
  | PNode e :: ps => DText acc :: DNode (Source e) :: mergeParts ps []
  end.

Definition decodedOf {expr} (p : Part expr) : Decoded expr :=
  match p with
  | PString s => DText s
  | PNode e => DNode (Source e)
  end.

(** No literal of [parts] has a code unit at or above [START_CODE]. *)
Definition literalsBelow {expr} (parts : list (Part expr)) : Prop :=
  ∀ s, PString s ∈ parts → Forall (λ c, c < START_CODE) s.

Definition literalsBelowb {expr} (parts : list (Part expr)) : bool :=
  forallb (λ p, match p with
                | PString s => forallb (λ c, c <? START_CODE) s
                | PNode _ => true
                end) parts.

(** The parts [e0; e1; ...; e65305] of a template of 65306 expressions
    without text between them, the expression number [i] being the handle
    [i]. *)
Definition manyExpressions : list (Part Z) :=
  (Pos.iter (λ '(k, parts), (k - 1, PNode k :: parts)) (65305, []) 65306).2.

(** The identifier [expr<k>] of the named slot number [k]. *)
Definition slotArg {expr} (k : nat) : Node expr :=
  Identifier (js "expr" ++ decimal k).

(** A marker of an expression: at or above [START_CODE] and not the class
    marker. *)
Definition isMarker (c : Z) : Prop := START_CODE ≤ c ∧ c ≠ CLASS_MARKER.

(** The slots are those of the markers [keys], bound in this order. *)
Definition slotsFor {expr} (exprParts : list expr) (keys : list Z)
    (s : Slots expr) : Prop :=
  NoDup keys
  ∧ Forall isMarker keys
  ∧ exprArgs s = map slotArg (seq 0 (length keys))
  ∧ exprVals s = map (exprFromChar exprParts) keys
  ∧ ∀ c arg, argsByCode s !! c = Some arg ↔ ∃ k, keys !! k = Some c ∧ arg = slotArg k.

(** What the loop can do with the marker [c] met in the state [b]: bind it
    to a new named slot, substitute it inline, or reuse the slot it has. *)
Definition promotedAt {expr} (exprParts : list expr) (b : BlockState expr) (c : Z)
    : Prop :=
  let b' := blockStep exprParts b c in
  let arg := slotArg (length (exprArgs (slots b))) in
  exprArgs (slots b') = exprArgs (slots b) ++ [arg]
  ∧ exprVals (slots b') = exprVals (slots b) ++ [exprFromChar exprParts c]
  ∧ argsByCode (slots b') = <[c := arg]> (argsByCode (slots b))
  ∧ last (addTerms b') = Some arg.

Definition inlinedAt {expr} (exprParts : list expr) (b : BlockState expr) (c : Z)
    : Prop :=
  let b' := blockStep exprParts b c in
  slots b' = slots b ∧ last (addTerms b') = Some (exprFromChar exprParts c).

Definition reusedAt {expr} (exprParts : list expr) (b : BlockState expr) (c : Z)
    : Prop :=
  let b' := blockStep exprParts b c in
  slots b' = slots b
  ∧ ∃ arg, argsByCode (slots b) !! c = Some arg ∧ last (addTerms b') = Some arg.

(** The language of [/animation(-name)?:\s*$/i]: some suffix of the text is
    the property name, in any case, its colon, and white space. *)
Definition matchesAnimation (s : jsstring) : Prop :=
  ∃ before name space,
    s = before ++ name ++ space
    ∧ (equalIgnoreCase name (js "animation:") = true
       ∨ equalIgnoreCase name (js "animation-name:") = true)
    ∧ Forall (λ c, isWhiteSpace c = true) space.

(** Whether the marker met in [b] is a class or an animation reference. *)
Definition isReference {expr} (b : BlockState expr) : bool :=
  CssPosition.eqb (pos b) CssPosition.ElementSelector
  || (CssPosition.eqb (pos b) CssPosition.ElementRule
      && animationRegExp (trim (accum b))).

(** The occurrences of markers as references in the block [r], read from
    the position [p] with [acc] the text read since the last marker: the
    marker of each occurrence that stands in a selector (a class reference)
    or in a declaration body after [animation:] or [animation-name:] (an
    animation reference), in the order of the block. *)
Fixpoint referencesIn (p : CssPosition.t) (acc r : jsstring) : list Z :=
  match r with
  | [] => []
  | c :: r' =>
      let p' := nextPos p c in
      if c =? CLASS_MARKER then referencesIn p' [] r'
      else if START_CODE <=? c then
        (if CssPosition.eqb p' CssPosition.ElementSelector
            || (CssPosition.eqb p' CssPosition.ElementRule
                && animationRegExp (trim acc))
         then [c] else [])
        ++ referencesIn p' [] r'
      else referencesIn p' (acc ++ [c]) r'
  end.

(** The same for the blocks of a compilation, one block after the other. *)
Definition references (rules : list jsstring) : list Z :=
  flat_map (referencesIn CssPosition.None []) rules.

(** The distinct elements of a list, in the order of their first
    occurrences. *)
Definition bindNew (keys : list Z) (c : Z) : list Z :=
  if decide (c ∈ keys) then keys else keys ++ [c].

Definition firstBindings (l : list Z) : list Z := foldl bindNew [] l.

(** Every marker of an expression in the text is the marker of an
    expression of the template. *)
Definition decodable {expr} (exprParts : list expr) (out : jsstring) : Prop :=
  ∀ c, c ∈ out → isMarker c → ∃ e, exprFromChar exprParts c = Source e.

(** The slots [s] with one more slot, bound to the marker [c]. *)
Definition bindSlot {expr} (exprParts : list expr) (s : Slots expr) (c : Z)
    : Slots expr :=
  let arg := slotArg (length (exprArgs s)) in
  mkSlots (exprArgs s ++ [arg]) (exprVals s ++ [exprFromChar exprParts c])
          (<[c := arg]> (argsByCode s)).

(** The state [b] moved to the position [p]. *)
Definition atPos {expr} (b : BlockState expr) (p : CssPosition.t) : BlockState expr :=
  mkBlockState (addTerms b) (accum b) p (slots b).

(** The class marker is the first character of the block and occurs nowhere
    else in it. *)
Definition classFirstOnly (r : jsstring) : Prop :=
  ∃ rest, r = CLASS_MARKER :: rest ∧ CLASS_MARKER ∉ rest.

(** A term of a rule block: not a node built by [createAdd],
    [createArrayLiteral] or [createArrowFunction], nor an operand that the
    factory has put in parentheses. *)
Definition isLeaf {expr} (n : Node expr) : Prop :=
  match n with
  | Add _ _ | ArrayLiteral _ | ArrowFunction _ _ | Parenthesized _ => False
  | _ => True
  end.

(** The functional shape: an arrow function. *)
Definition isArrowFunction {expr} (n : Node expr) : Prop :=
  ∃ parameters body, n = ArrowFunction parameters body.

(** The term that [addAccum] pushes for the accumulated text [acc]. *)
Definition flushed {expr} (acc : jsstring) : list (Node expr) :=
  match acc with
  | [] => []
  | _ :: _ => [StringLiteral acc]
  end.

(** The terms of a block that opens with the class marker and ['{']: the
    class name, then a literal that starts with ['{']. *)
Definition opensWithBrace {expr} (terms : list (Node expr)) : Prop :=
  ∃ text more, terms = classNameArg :: StringLiteral (123 :: text) :: more.

(** The last term is a literal that ends with ['}']. *)
Definition closesWithBrace {expr} (terms : list (Node expr)) : Prop :=
  ∃ text, last terms = Some (StringLiteral (text ++ [125])).

(** The state of the loop over a block that opened with the class marker
    and ['{']: either the ['{'] is still in the accumulated text, behind the
    class name, or it is in the literal that follows the class name. *)
Definition opening {expr} (b : BlockState expr) : Prop :=
  (addTerms b = [classNameArg] ∧ ∃ text, accum b = 123 :: text)
  ∨ opensWithBrace (addTerms b).

(** ** Vocabulary of the further properties *)

(** A character of literal text, or the place of a term that is not a
    literal. *)
Inductive Token : Type :=
  | TChar (c : Z)
  | THole.

Definition tokensOf {expr} (n : Node expr) : list Token :=
  match n with
  | StringLiteral text => map TChar text
  | _ => [THole]
  end.

(** The characters and holes of a list of terms, in order. *)
Definition termTokens {expr} (terms : list (Node expr)) : list Token :=
  flat_map tokensOf terms.

(** The characters and holes of a block read from the position [p]: a
    character below [START_CODE] is itself, a marker is a hole, and a marker
    of an expression met in a selector has a ['.'] before it. *)
Fixpoint blockTokens (p : CssPosition.t) (r : jsstring) : list Token :=
  match r with
  | [] => []
  | c :: r' =>
      (if c =? CLASS_MARKER then [THole]
       else if START_CODE <=? c then
         if CssPosition.eqb (nextPos p c) CssPosition.ElementSelector
         then [TChar 46; THole] else [THole]
       else [TChar c])
      ++ blockTokens (nextPos p c) r'
  end.

Definition isLiteral {expr} (n : Node expr) : Prop :=
  match n with
  | StringLiteral _ => True
  | _ => False
  end.

(** No literal is empty and no literal follows another one. *)
Definition canonicalTerms {expr} (terms : list (Node expr)) : Prop :=
  ∀ before text after,
    terms = before ++ StringLiteral text :: after →
    text ≠ [] ∧ ∀ n, head after = Some n → ¬ isLiteral n.



(** Two templates with the same expressions at the same places. *)
Definition sameExpressions {expr} (t t' : TemplateLiteral expr) : Prop :=
  match t, t' with
  | NoSubstitutionTemplateLiteral _, NoSubstitutionTemplateLiteral _ => True
  | TemplateExpression _ spans, TemplateExpression _ spans' =>
      map fst spans = map fst spans'
  | _, _ => False
  end.

(** The four patterns of a styled function: [styled.tag], [Component.extend],
    [styled(Component)] and [styledFunction.attrs(attributes)]. *)
Inductive Styled (toUpperCase : jsstring → jsstring) : Expression → Prop :=
  | styled_tag name :
      Styled toUpperCase
        (PropertyAccessExpression (IdentifierExpression (js "styled")) name)
  | component_extend c rest :
      [c] = toUpperCase [c] →
      Styled toUpperCase
        (PropertyAccessExpression (IdentifierExpression (c :: rest)) (js "extend"))
  | styled_component argument :
      Styled toUpperCase
        (CallExpression (IdentifierExpression (js "styled")) [argument])
  | styled_attrs styledFunction attributes :
      Styled toUpperCase styledFunction →
      Styled toUpperCase
        (CallExpression (PropertyAccessExpression styledFunction (js "attrs"))
                        [attributes]).

(** The tags on which the test of the component's name reads the first
    character of an empty name. *)
Inductive EmptyComponent : Expression → Prop :=
  | empty_extend :
      EmptyComponent
        (PropertyAccessExpression (IdentifierExpression []) (js "extend"))
  | empty_attrs styledFunction attributes :
      EmptyComponent styledFunction →
      EmptyComponent
        (CallExpression (PropertyAccessExpression styledFunction (js "attrs"))
                        [attributes]).

(** The arguments of the call agree with the function that receives them:
    an arrow function has the parameter [cls] and then one parameter for
    each further argument; anything else comes alone. *)
Definition arityAgrees {expr} (argumentsArray : list (Node expr)) : Prop :=
  match argumentsArray with
  | ArrowFunction parameters _ :: rest =>
      ∃ names, parameters = js "cls" :: names ∧ length names = length rest
  | _ :: rest => rest = []
  | [] => False
  end.

(** The string literals that the transformer created under a node. *)
Fixpoint literalsOf {expr} (n : Node expr) : list jsstring :=
  match n with
  | StringLiteral text => [text]
  | Add x y => literalsOf x ++ literalsOf y
  | ArrayLiteral elements =>
      (fix literalsOfAll (l : list (Node expr)) : list jsstring :=
         match l with
         | [] => []
         | x :: l' => literalsOf x ++ literalsOfAll l'
         end) elements
  | ArrowFunction _ body => literalsOf body
  | Parenthesized expression => literalsOf expression
  | _ => []
  end.

(** A text without a character of the range of the markers. *)
Definition belowMarkers (text : jsstring) : Prop := Forall (λ c, c < START_CODE) text.

(** A node none of whose literals has a character of that range. *)
Definition markerFree {expr} (n : Node expr) : Prop :=
  Forall belowMarkers (literalsOf n).

Definition charBelow (tok : Token) : Prop :=
  match tok with
  | TChar c => c < START_CODE
  | THole => True
  end.

(** * Properties *)

(** ** JavaScript strings *)

Lemma jslength_app (s t : jsstring) : jslength (s ++ t) = jslength s + jslength t.
Proof. unfold jslength. rewrite length_app. lia. Qed.

Lemma jslength_nonneg (s : jsstring) : 0 <= jslength s.
Proof. unfold jslength. lia. Qed.

Lemma slice_middle (a b c : jsstring) :
  slice (a ++ b ++ c) (jslength a) (jslength a + jslength b) = b.
Proof.
  unfold slice, sliceIndex. rewrite !jslength_app.
  pose proof (jslength_nonneg a). pose proof (jslength_nonneg b).
  pose proof (jslength_nonneg c).
  destruct (Z.ltb_spec (jslength a) 0); [lia|].
  destruct (Z.ltb_spec (jslength a + jslength b) 0); [lia|].
  rewrite !Z.min_l by lia.
  replace (Z.to_nat (jslength a)) with (length a) by (unfold jslength; lia).
  replace (Z.to_nat (jslength a + jslength b - jslength a)) with (length b)
    by (unfold jslength; lia).
  rewrite drop_app_length. apply take_app_length.
Qed.

Lemma braceDepth_app (s t : jsstring) :
  braceDepth (s ++ t) = braceDepth s + braceDepth t.
Proof. induction s as [|c s IH]; simpl; [lia|]. rewrite IH. lia. Qed.

(** ** Rule splitter *)

Lemma openText_nil : openText [].
Proof.
  intros p q Hpq Hlast. symmetry in Hpq. apply app_eq_nil in Hpq as [-> _].
  discriminate.
Qed.

(** Extending an open text by a character keeps it open, unless the
    character is a ['}'] that brings the depth to 0. *)
Lemma openText_snoc (cur : jsstring) (c : Z) :
  openText cur →
  (c = 125 → braceDepth (cur ++ [c]) ≠ 0) →
  openText (cur ++ [c]).
Proof.
  intros Hopen Hc p q Hpq Hlast.
  destruct (decide (q = [])) as [->|Hq].
  - rewrite app_nil_r in Hpq. subst p. rewrite last_snoc in Hlast.
    apply Hc. congruence.
  - destruct (exists_last Hq) as (q' & x & ->).
    rewrite app_assoc in Hpq. apply app_inj_tail in Hpq as [Hcur _].
    exact (Hopen p q' Hcur Hlast).
Qed.

Section SplitLoop.
Variable out : jsstring.

(** The invariant of the splitter's loop: the blocks closed so far, the text
    [cur] scanned since the last cut, and the characters still to scan make
    up [out]; [level] is the depth of [cur]. *)
Lemma splitLoop_invariant (rest cur : jsstring) (rules : list jsstring) (i idx level : Z) :
  out = concat rules ++ cur ++ rest →
  i = jslength (concat rules ++ cur) →
  idx = jslength (concat rules) →
  level = braceDepth cur →
  Forall closedBlock rules →
  openText cur →
  ∃ rules' cur',
    splitLoop out rest i idx level rules = (jslength (concat rules'), rules')
    ∧ out = concat rules' ++ cur'
    ∧ Forall closedBlock rules'
    ∧ openText cur'.
Proof.
  revert cur rules i idx level.
  induction rest as [|c rest IH]; intros cur rules i idx level Hout Hi Hidx Hlevel Hclosed Hopen.
  - exists rules, cur. rewrite app_nil_r in Hout. subst idx. by simpl.
  - simpl.
    assert (Hi' : i + 1 = jslength (concat rules ++ cur ++ [c])).
    { subst i. rewrite !jslength_app. unfold jslength. simpl. lia. }
    assert (Hout' : out = concat rules ++ (cur ++ [c]) ++ rest).
    { rewrite Hout. by rewrite <- (app_assoc cur). }
    assert (Hdepth : braceDepth (cur ++ [c])
                     = level + (if c =? 123 then 1 else if c =? 125 then -1 else 0)).
    { rewrite braceDepth_app. simpl. lia. }
    destruct (Z.eqb_spec c 123) as [->|Hn123].
    { apply (IH (cur ++ [123]) rules); [done|done|done|lia|done|].
      apply openText_snoc; [done|discriminate]. }
    destruct (Z.eqb_spec c 125) as [->|Hn125].
    { destruct (Z.eqb_spec (level - 1) 0) as [H0|H0].
      - assert (Hslice : slice out idx (i + 1) = cur ++ [125]).
        { rewrite Hout', Hi', Hidx, (app_assoc (concat rules)), jslength_app.
          rewrite <- (app_assoc (concat rules)). apply slice_middle. }
        rewrite Hslice.
        assert (Hcat : concat (rules ++ [cur ++ [125]]) = concat rules ++ cur ++ [125]).
        { rewrite concat_app. simpl. by rewrite app_nil_r. }
        apply (IH [] (rules ++ [cur ++ [125]])).
        + rewrite Hcat, Hout'. simpl. by rewrite <- !app_assoc.
        + rewrite app_nil_r, Hcat. exact Hi'.
        + rewrite Hcat. exact Hi'.
        + simpl. lia.
        + apply Forall_app. split; [done|]. apply Forall_singleton.
          exists cur. split; [done|]. split; [lia|done].
        + apply openText_nil.
      - apply (IH (cur ++ [125]) rules); [done|done|done|lia|done|].
        apply openText_snoc; [done|]. intros _. lia. }
    apply (IH (cur ++ [c]) rules); [done|done|done|lia|done|].
    apply openText_snoc; [done|]. intros ->. done.
Qed.

End SplitLoop.

Lemma splitLoop_result (out : jsstring) :
  ∃ rules rest,
    splitLoop out out 0 0 0 [] = (jslength (concat rules), rules)
    ∧ out = concat rules ++ rest
    ∧ Forall closedBlock rules
    ∧ openText rest.
Proof.
  apply (splitLoop_invariant out out [] []); try done.
  apply openText_nil.
Qed.

(** What the splitter returns outside keyframe mode. *)
Lemma splitRules_inv (out : jsstring) (rules : list jsstring) :
  splitRules out false = Ok rules →
  (splitLoop out out 0 0 0 []).1 = jslength out
  ∧ concat rules = out
  ∧ Forall closedBlock rules.
Proof.
  destruct (splitLoop_result out) as (rules' & rest & Hloop & Hout & Hclosed & Hopen).
  unfold splitRules. rewrite Hloop. simpl.
  destruct (Z.eqb_spec (jslength (concat rules')) (jslength out)) as [Heq|Hne]; [|done].
  intros [= <-]. split; [done|]. split; [|done].
  rewrite Hout in Heq. rewrite jslength_app in Heq.
  assert (rest = []) as ->.
  { apply length_zero_iff_nil. unfold jslength in Heq. lia. }
  by rewrite app_nil_r in Hout.
Qed.

(** C3. In keyframe mode the splitter returns the whole text as one block.
    Otherwise the scan cuts the text into blocks, each of them ending at the
    first ['}'] that brings the brace depth back to 0, followed by a rest in
    which no ['}'] does so, the final cut index being the length of the
    blocks; the splitter fails, and then with 'Failed to parse css rules',
    exactly when this index differs from the length of the text; and the
    blocks it returns concatenate to the text. *)
Theorem splitRules_partition (out : jsstring) :
  splitRules out true = Ok [out]
  ∧ (∃ rules rest,
       splitLoop out out 0 0 0 [] = (jslength (concat rules), rules)
       ∧ out = concat rules ++ rest
       ∧ Forall closedBlock rules
       ∧ openText rest)
  ∧ (splitRules out false = Err FailedToParseCssRules
     ↔ (splitLoop out out 0 0 0 []).1 ≠ jslength out)
  ∧ (∀ e, splitRules out false = Err e → e = FailedToParseCssRules)
  ∧ (∀ rules, splitRules out false = Ok rules →
       (splitLoop out out 0 0 0 []).1 = jslength out
       ∧ concat rules = out
       ∧ Forall closedBlock rules).
Proof.
  split; [done|]. split; [apply splitLoop_result|].
  split; [|split; [|apply splitRules_inv]].
  - unfold splitRules. destruct (splitLoop out out 0 0 0 []) as [idx rules]. simpl.
    destruct (Z.eqb_spec idx (jslength out)); split; (done || congruence).
  - unfold splitRules. destruct (splitLoop out out 0 0 0 []) as [idx rules].
    destruct (idx =? jslength out); [done|congruence].
Qed.

Example splitRules_two_blocks :
  splitRules (js "a{b}@m{c{d}}") false = Ok [js "a{b}"; js "@m{c{d}}"].
Proof. reflexivity. Qed.

Example splitRules_unbalanced :
  splitRules (js "a{b}c{d") false = Err FailedToParseCssRules.
Proof. reflexivity. Qed.

Example splitRules_text_after_last_block :
  splitRules (js "a{b} ") false = Err FailedToParseCssRules.
Proof. reflexivity. Qed.

(** ** Position classifier *)

Section Classifier.
Context {expr : Type}.

Lemma addAccum_pos (b : BlockState expr) : pos (addAccum b) = pos b.
Proof. unfold addAccum. by destruct (accum b). Qed.

Lemma addAccum_slots (b : BlockState expr) : slots (addAccum b) = slots b.
Proof. unfold addAccum. by destruct (accum b). Qed.

Lemma addAccum_accum (b : BlockState expr) : accum (addAccum b) = [].
Proof. unfold addAccum. by destruct (accum b) eqn:E. Qed.

Lemma addMarker_pos (exprParts : list expr) (c : Z) (b : BlockState expr) :
  pos (addMarker exprParts c b) = pos b.
Proof.
  unfold addMarker.
  destruct (CssPosition.eqb (pos b) CssPosition.ElementSelector); simpl;
    rewrite !addAccum_slots; simpl;
    destruct (argsByCode (slots b) !! c); simpl; rewrite ?addAccum_pos; try done;
    by destruct (_ && _); simpl; rewrite ?addAccum_pos.
Qed.

(** The loop moves the position by [nextPos], whatever else it does with the
    character. *)
Lemma blockStep_pos (exprParts : list expr) (b : BlockState expr) (c : Z) :
  pos (blockStep exprParts b c) = nextPos (pos b) c.
Proof.
  unfold blockStep.
  destruct (c =? CLASS_MARKER); [by simpl; rewrite addAccum_pos|].
  destruct (START_CODE <=? c); [by rewrite addMarker_pos|done].
Qed.

End Classifier.

(** C4, as the code has it. The transitions of the classifier are those of
    the specification's table, and one more: in [None], a ['{'] moves to the
    declaration body ([ElementRule]), since the character that takes the
    classifier out of [None] into [ElementSelector] is then examined as a
    character of a selector. The loop over a block follows this table at
    every character. *)
Theorem nextPos_table (pos0 : CssPosition.t) (c : Z) :
  nextPos pos0 c =
    match pos0 with
    | CssPosition.None =>
        if c =? 64 then CssPosition.MediaSelector
        else if (c =? 32) || (c =? 125) then CssPosition.None
        else if c =? 123 then CssPosition.ElementRule
        else CssPosition.ElementSelector
    | CssPosition.MediaSelector =>
        if c =? 123 then CssPosition.ElementSelector else CssPosition.MediaSelector
    | CssPosition.ElementSelector =>
        if c =? 123 then CssPosition.ElementRule else CssPosition.ElementSelector
    | CssPosition.ElementRule =>
        if c =? 125 then CssPosition.None else CssPosition.ElementRule
    end
  ∧ nextPos pos0 c =
      (if CssPosition.eqb pos0 CssPosition.None && (c =? 123)
       then CssPosition.ElementRule else specNextPos pos0 c)
  ∧ ∀ (expr : Type) (exprParts : list expr) (b : BlockState expr),
      pos b = pos0 → pos (blockStep exprParts b c) = nextPos pos0 c.
Proof.
  split; [|split].
  - unfold nextPos, leaveNone, followBrace. destruct pos0; try done.
    destruct (Z.eqb_spec c 64) as [->|]; [done|].
    destruct (Z.eqb_spec c 125) as [->|]; [done|].
    destruct (Z.eqb_spec c 32) as [->|]; [done|]. simpl.
    by destruct (Z.eqb_spec c 123).
  - unfold nextPos, leaveNone, followBrace, specNextPos. destruct pos0; try done.
    destruct (Z.eqb_spec c 64) as [->|]; [done|].
    destruct (Z.eqb_spec c 125) as [->|]; [done|].
    destruct (Z.eqb_spec c 32) as [->|]; [done|]. simpl.
    by destruct (Z.eqb_spec c 123).
  - intros expr exprParts b <-. apply blockStep_pos.
Qed.

(** C4, as the specification words it, fails on a ['{'] met in [None]: the
    table leaves the state unchanged there, the code moves to the declaration
    body. *)
Lemma nextPos_None_open_brace :
  nextPos CssPosition.None 123 = CssPosition.ElementRule
  ∧ specNextPos CssPosition.None 123 = CssPosition.None
  ∧ nextPos CssPosition.None 123 ≠ specNextPos CssPosition.None 123.
Proof. by repeat split. Qed.

(** ** CSS pipeline *)

Lemma isPrefixOf_spec (p s : jsstring) : isPrefixOf p s = true ↔ p `prefix_of` s.
Proof.
  revert s. induction p as [|x p IH]; intros s; simpl.
  - split; [intros _; apply prefix_nil|done].
  - destruct s as [|y s].
    + split; [done|]. intros [k Hk]. discriminate.
    + rewrite andb_true_iff, Z.eqb_eq, IH. split.
      * intros [-> Hp]. by apply prefix_cons.
      * intros [k Hk]. injection Hk as -> ->. split; [done|]. by exists k.
Qed.

Lemma indexOfFrom_range (p s : jsstring) (i : Z) :
  indexOfFrom p s i = -1 ∨ i <= indexOfFrom p s i.
Proof.
  revert i. induction s as [|c s IH]; intros i; simpl.
  - destruct (isPrefixOf p []); lia.
  - destruct (isPrefixOf p (c :: s)); [lia|].
    destruct (IH (i + 1)); lia.
Qed.

Lemma indexOf_zero (s p : jsstring) : indexOf s p = 0 ↔ isPrefixOf p s = true.
Proof.
  unfold indexOf. destruct s as [|c s]; simpl.
  - destruct (isPrefixOf p []); split; intros H; first [done | exfalso; lia].
  - destruct (isPrefixOf p (c :: s)); [done|].
    destruct (indexOfFrom_range p s (0 + 1)); split; intros H';
      first [done | exfalso; lia].
Qed.

Lemma charAt_last (s : jsstring) : charAt s (jslength s - 1) = last s.
Proof.
  unfold charAt, jslength. rewrite last_lookup.
  destruct s as [|c s]; [done|].
  destruct (Z.ltb_spec (Z.of_nat (length (c :: s)) - 1) 0) as [H|H];
    [simpl in H; lia|].
  f_equal. simpl. lia.
Qed.

(** A text that begins with ['@keyframes x{'] and ends with ['}'] is that
    wrapper around a body. *)
Lemma keyframes_wrapped (s : jsstring) :
  keyframesOpen `prefix_of` s ∧ [125] `suffix_of` s
  ↔ ∃ body, s = keyframesOpen ++ body ++ [125].
Proof.
  split.
  - intros [[t ->] [k Hk]].
    destruct (decide (t = [])) as [->|Ht].
    + rewrite app_nil_r in Hk.
      assert (Hlast : last keyframesOpen = Some 125) by (rewrite Hk; apply last_snoc).
      vm_compute in Hlast. discriminate.
    + destruct (exists_last Ht) as (body & c & ->).
      rewrite app_assoc in Hk. apply app_inj_tail in Hk as [_ ->]. by exists body.
  - intros [body ->]. split; [by eexists|].
    exists (keyframesOpen ++ body). by rewrite <- app_assoc.
Qed.

Section Pipeline.
Variable stylisInst : jsstring → jsstring → jsstring.
Variable autoprefixer : jsstring → jsstring.

(** C8. In keyframe mode the text handed to the preprocessor is
    ['@keyframes x{' + str + '}']. The call fails, with 'Unexpected keyframe
    compilation', exactly when the preprocessor's output does not both begin
    with ['@keyframes x{'] and end with ['}']; otherwise that prefix and the
    final ['}'] are removed, and what is between them goes to the prefixer.
    Outside keyframe mode nothing is wrapped and nothing can fail. *)
Theorem compileCssString_keyframes (context str : jsstring) :
  let processed := stylisInst context (js "@keyframes x{" ++ str ++ js "}") in
  (compileCssString stylisInst autoprefixer context str true
     = Err UnexpectedKeyframeCompilation
   ↔ ¬ (js "@keyframes x{" `prefix_of` processed ∧ js "}" `suffix_of` processed))
  ∧ (∀ e, compileCssString stylisInst autoprefixer context str true = Err e →
       e = UnexpectedKeyframeCompilation)
  ∧ (∀ body, processed = js "@keyframes x{" ++ body ++ js "}" →
       compileCssString stylisInst autoprefixer context str true
       = Ok (autoprefixer body))
  ∧ (∀ css, compileCssString stylisInst autoprefixer context str true = Ok css →
       ∃ body, processed = js "@keyframes x{" ++ body ++ js "}"
               ∧ css = autoprefixer body)
  ∧ compileCssString stylisInst autoprefixer context str false
    = Ok (autoprefixer (stylisInst context str)).
Proof.
  change (js "@keyframes x{") with keyframesOpen. change (js "}") with [125].
  intros processed. unfold compileCssString. fold processed.
  rewrite charAt_last. cbv beta iota delta [mbind Result_bind].
  assert (Hdec : (negb (indexOf processed keyframesOpen =? 0)
                  || negb (bool_decide (last processed = Some 125))) = false
                 ↔ ∃ body, processed = keyframesOpen ++ body ++ [125]).
  { rewrite <- keyframes_wrapped, orb_false_iff, !negb_false_iff.
    rewrite Z.eqb_eq, indexOf_zero, isPrefixOf_spec, bool_decide_eq_true.
    rewrite last_Some. split; intros [? [k ?]]; (split; [done|by exists k]). }
  assert (Hslice : ∀ body, processed = keyframesOpen ++ body ++ [125] →
            slice processed (jslength keyframesOpen) (jslength processed - 1) = body).
  { intros body ->.
    replace (jslength (keyframesOpen ++ body ++ [125]) - 1)
      with (jslength keyframesOpen + jslength body)
      by (rewrite !jslength_app; unfold jslength; simpl; lia).
    apply slice_middle. }
  destruct (negb (indexOf processed keyframesOpen =? 0)
            || negb (bool_decide (last processed = Some 125))) eqn:E.
  - assert (Hno : ¬ ∃ body, processed = keyframesOpen ++ body ++ [125]).
    { rewrite <- Hdec. discriminate. }
    rewrite keyframes_wrapped.
    split; [done|]. split; [congruence|]. split; [|done].
    intros body Hbody. destruct Hno. by exists body.
  - destruct (proj1 Hdec eq_refl) as [body Hbody].
    rewrite keyframes_wrapped, (Hslice body Hbody).
    split; [split; [discriminate|]|].
    { intros Hno. destruct Hno. by exists body. }
    split; [discriminate|]. split; [|split; [|done]].
    + intros body' Hbody'. rewrite Hbody in Hbody'.
      apply app_inv_head, app_inj_tail in Hbody' as [-> _]. done.
    + intros css [= <-]. by exists body.
Qed.

End Pipeline.

(** ** Marker codec *)

Section Codec.
Context {expr : Type}.
Implicit Types (parts : list (Part expr)) (e : expr).

Lemma fromCharCode_small (n : Z) : 0 <= n < 65536 → fromCharCode n = n.
Proof. intros H. unfold fromCharCode. by apply Z.mod_small. Qed.

Lemma literalsBelow_cons (p : Part expr) parts :
  literalsBelow (p :: parts) → literalsBelow parts.
Proof. intros H s Hs. apply H. by right. Qed.

(** As long as the counter stays below [2^16], the mapped array holds the
    literals and the consecutive code points from the counter on. *)
Lemma encodeParts_markedText parts (k : Z) :
  0 <= k →
  k + Z.of_nat (length (exprPartsOf parts)) <= 65305 →
  concat (encodeParts parts (START_CODE + 1 + k)).1 = markedText parts k
  ∧ markersOf parts (encodeParts parts (START_CODE + 1 + k)).1
    = map (λ i, [START_CODE + 1 + k + Z.of_nat i])
          (seq 0 (length (exprPartsOf parts))).
Proof.
  revert k. induction parts as [|[s|e] parts IH]; intros k Hk Hlen; [done| |].
  - simpl in *. destruct (IH k Hk Hlen) as [IH1 IH2].
    destruct (encodeParts parts (START_CODE + 1 + k)) as [strs n]. simpl in *.
    by rewrite IH1, IH2.
  - simpl in *. destruct (IH (k + 1)) as [IH1 IH2]; [lia|lia|].
    replace (START_CODE + 1 + k + 1) with (START_CODE + 1 + (k + 1)) by lia.
    destruct (encodeParts parts (START_CODE + 1 + (k + 1))) as [strs n]. simpl in *.
    rewrite IH1, IH2, fromCharCode_small by (unfold START_CODE; lia).
    split; [done|]. f_equal; [f_equal; lia|].
    rewrite <- fmap_S_seq, <- list_fmap_compose. apply map_ext_in.
    intros i _. simpl. f_equal. lia.
Qed.

(** Whatever the number of expressions, the marker of the expression number
    [i] is the code unit [(START_CODE + 1 + i) mod 2^16]. *)
Lemma encodeParts_markers parts (n : Z) :
  markersOf parts (encodeParts parts n).1
  = map (λ i, [fromCharCode (n + Z.of_nat i)]) (seq 0 (length (exprPartsOf parts))).
Proof.
  revert n. induction parts as [|[s|e] parts IH]; intros n; [done| |].
  - simpl. specialize (IH n). by destruct (encodeParts parts n).
  - simpl. specialize (IH (n + 1)). destruct (encodeParts parts (n + 1)) as [strs k].
    simpl in *. rewrite IH, Z.add_0_r. f_equal.
    rewrite <- fmap_S_seq, <- list_fmap_compose. apply map_ext_in.
    intros i _. simpl. do 2 f_equal. lia.
Qed.

Lemma exprFromChar_marker (exprParts : list expr) (i : nat) e :
  exprParts !! i = Some e →
  exprFromChar exprParts (START_CODE + 1 + Z.of_nat i) = Source e.
Proof.
  intros Hi. unfold exprFromChar.
  replace (START_CODE + 1 + Z.of_nat i - START_CODE - 1) with (Z.of_nat i) by lia.
  destruct (Z.ltb_spec (Z.of_nat i) 0); [lia|]. by rewrite Nat2Z.id, Hi.
Qed.

Lemma splitMarkers_literal (exprParts : list expr) (s rest acc : jsstring) :
  Forall (λ c, c < START_CODE) s →
  splitMarkers exprParts (s ++ rest) acc = splitMarkers exprParts rest (acc ++ s).
Proof.
  intros Hs. revert acc. induction Hs as [|c s Hc Hs IH]; intros acc; simpl.
  - by rewrite app_nil_r.
  - destruct (Z.ltb_spec START_CODE c); [lia|].
    rewrite IH. by rewrite <- app_assoc.
Qed.

Lemma splitMarkers_markedText parts (pre : list expr) (acc : jsstring) :
  literalsBelow parts →
  splitMarkers (pre ++ exprPartsOf parts) (markedText parts (Z.of_nat (length pre))) acc
  = mergeParts parts acc.
Proof.
  revert pre acc. induction parts as [|[s|e] parts IH]; intros pre acc Hlit; [done| |].
  - simpl. rewrite splitMarkers_literal by (apply Hlit; by left).
    apply IH. by eapply literalsBelow_cons.
  - simpl. destruct (Z.ltb_spec START_CODE (START_CODE + 1 + Z.of_nat (length pre)));
      [|lia].
    rewrite (exprFromChar_marker _ (length pre) e)
      by (by rewrite lookup_app_r, Nat.sub_diag by lia).
    do 2 f_equal.
    replace (Z.of_nat (length pre) + 1) with (Z.of_nat (length (pre ++ [e])))
      by (rewrite length_app; simpl; lia).
    rewrite (cons_middle e pre), app_assoc.
    apply IH. by eapply literalsBelow_cons.
Qed.

(** The parts of a template alternate, so that merging changes nothing. *)
Lemma mergeParts_template (t : TemplateLiteral expr) :
  mergeParts (traverseExtract t) [] = map decodedOf (traverseExtract t).
Proof.
  destruct t as [text|hd spans]; [done|]. simpl.
  generalize hd. clear hd.
  induction spans as [|[e lit] spans IH]; intros hd; [done|].
  simpl. by rewrite IH.
Qed.

(** C2, as the code has it. The class-name marker is the base code point 230.
    For parts with at most 65305 expressions, whose literals have no code
    unit at or above 230: the flattened text is the literal text verbatim
    with the code point [231 + i] for the expression number [i]; decoding the
    marker of the expression number [i] gives back that expression; and
    splitting the flattened text at its markers gives back the sequence of
    literals and expressions, which for the parts of a template is the list
    of parts itself. *)
Theorem encode_decode_roundtrip parts :
  literalsBelow parts →
  Z.of_nat (length (exprPartsOf parts)) ≤ 65305 →
  CLASS_MARKER = START_CODE
  ∧ combined parts = markedText parts 0
  ∧ exprMarkers parts
    = map (λ i, [START_CODE + 1 + Z.of_nat i]) (seq 0 (length (exprPartsOf parts)))
  ∧ (∀ i e, exprPartsOf parts !! i = Some e →
       ∃ c, exprMarkers parts !! i = Some [c]
            ∧ exprFromChar (exprPartsOf parts) c = Source e)
  ∧ splitMarkers (exprPartsOf parts) (combined parts) [] = mergeParts parts []
  ∧ (∀ t, parts = traverseExtract t →
       splitMarkers (exprPartsOf parts) (combined parts) [] = map decodedOf parts).
Proof.
  intros Hlit Hlen.
  destruct (encodeParts_markedText parts 0) as [Hcombined Hmarkers]; [lia|lia|].
  rewrite Z.add_0_r in Hcombined, Hmarkers. fold (combined parts) in Hcombined.
  assert (Hsplit : splitMarkers (exprPartsOf parts) (combined parts) []
                   = mergeParts parts []).
  { rewrite Hcombined. by apply (splitMarkers_markedText parts []). }
  split; [done|]. split; [done|]. split.
  { unfold exprMarkers. rewrite Hmarkers. apply map_ext. intros i. f_equal; lia. }
  split; [|split; [done|]].
  - intros i e Hi. exists (START_CODE + 1 + Z.of_nat i). split.
    + unfold exprMarkers. rewrite Hmarkers.
      change (map ?f ?l) with (f <$> l). rewrite list_lookup_fmap.
      rewrite lookup_seq_lt by (by eapply lookup_lt_Some). simpl.
      do 2 f_equal; lia.
    + by apply exprFromChar_marker.
  - intros t ->. rewrite Hsplit. apply mergeParts_template.
Qed.

End Codec.

Lemma literalsBelowb_sound {expr} (parts : list (Part expr)) :
  literalsBelowb parts = true → literalsBelow parts.
Proof.
  unfold literalsBelowb. rewrite forallb_forall. intros H s Hs.
  apply list_elem_of_In, H in Hs. rewrite forallb_forall in Hs.
  apply Forall_forall. intros c Hc. apply list_elem_of_In, Hs in Hc. lia.
Defined.

(** The round trip on the parts of the template [color: ${colorVar};]. *)
Lemma encode_decode_roundtrip_example :
  let parts := [PString (js "color: "); PNode "colorVar"%string; PString (js ";")] in
  splitMarkers (exprPartsOf parts) (combined parts) [] = mergeParts parts [].
Proof.
  intros parts.
  refine (proj1 (proj2 (proj2 (proj2 (proj2
            (encode_decode_roundtrip parts (literalsBelowb_sound parts eq_refl) _)))))).
  simpl. lia.
Defined.

(** C2, as the specification words it, fails from 65306 expressions on:
    the marker of the expression number 65305 is [fromCharCode 65536], the
    code unit 0, which [exprFromChar] decodes to [undefined]. *)
Lemma marker_wraps_around :
  literalsBelow manyExpressions
  ∧ Z.of_nat (length (exprPartsOf manyExpressions)) = 65306
  ∧ exprPartsOf manyExpressions !! Z.to_nat 65305 = Some 65305
  ∧ exprMarkers manyExpressions !! Z.to_nat 65305 = Some [0]
  ∧ exprFromChar (exprPartsOf manyExpressions) 0 = Undefined.
Proof.
  split; [apply literalsBelowb_sound; by vm_compute|].
  repeat split; by vm_compute.
Qed.


(** ** The regular expression of animation properties *)

Lemma trimStart_space (space t : jsstring) :
  Forall (λ c, isWhiteSpace c = true) space → trimStart (space ++ t) = trimStart t.
Proof. induction 1 as [|c space Hc _ IH]; simpl; [done|]. by rewrite Hc. Qed.

Lemma trimStart_solid (t : jsstring) :
  (∀ c, head t = Some c → isWhiteSpace c = false) → trimStart t = t.
Proof. destruct t as [|c t]; [done|]. intros H. simpl. by rewrite (H c). Qed.

Lemma trimStart_split (s : jsstring) :
  ∃ space, s = space ++ trimStart s ∧ Forall (λ c, isWhiteSpace c = true) space.
Proof.
  induction s as [|c s (space & Hs & Hspace)]; [by exists []|]. simpl.
  destruct (isWhiteSpace c) eqn:Hc; [|by exists []].
  exists (c :: space). split; [simpl; by f_equal|by constructor].
Qed.

Lemma trimEnd_space (t space : jsstring) :
  Forall (λ c, isWhiteSpace c = true) space →
  (∀ c, last t = Some c → isWhiteSpace c = false) →
  trimEnd (t ++ space) = t.
Proof.
  intros Hspace Ht. unfold trimEnd. rewrite reverse_app.
  rewrite trimStart_space by (by apply Forall_reverse).
  rewrite trimStart_solid; [apply reverse_involutive|].
  intros c Hc. apply Ht. by rewrite <- head_reverse.
Qed.

Lemma trimEnd_split (s : jsstring) :
  ∃ space, s = trimEnd s ++ space ∧ Forall (λ c, isWhiteSpace c = true) space.
Proof.
  destruct (trimStart_split (reverse s)) as (space & Hs & Hspace).
  exists (reverse space). split; [|by apply Forall_reverse].
  unfold trimEnd. rewrite <- reverse_app, <- Hs. by rewrite reverse_involutive.
Qed.

Lemma equalIgnoreCase_Forall2 (s p : jsstring) :
  equalIgnoreCase s p = true ↔ Forall2 (λ x y, canonicalize x = canonicalize y) s p.
Proof.
  revert p. induction s as [|x s IH]; intros [|y p]; simpl.
  - split; [constructor|done].
  - split; [done|by inversion 1].
  - split; [done|by inversion 1].
  - rewrite andb_true_iff, Z.eqb_eq, IH. split; [intros []; by constructor|].
    by inversion 1.
Qed.

(** A text equal, but for case, to a pattern that ends in a colon ends in a
    colon. *)
Lemma equalIgnoreCase_colon (name p : jsstring) :
  equalIgnoreCase name (p ++ [58]) = true → last name = Some 58.
Proof.
  rewrite equalIgnoreCase_Forall2. intros H.
  apply Forall2_app_inv_r in H as (n1 & n2 & _ & H2 & ->).
  apply Forall2_cons_inv_r in H2 as (x & n3 & Hx & Hnil & ->).
  apply Forall2_nil_inv_r in Hnil as ->. rewrite last_snoc. f_equal.
  unfold canonicalize in Hx. simpl in Hx.
  destruct ((97 <=? x) && (x <=? 122)) eqn:E; [|done]. lia.
Qed.

Lemma endsWithIgnoreCase_spec (s p : jsstring) :
  endsWithIgnoreCase s p = true
  ↔ ∃ before name, s = before ++ name ∧ equalIgnoreCase name p = true.
Proof.
  unfold endsWithIgnoreCase. rewrite andb_true_iff, Nat.leb_le. split.
  - intros [Hlen Heq]. exists (take (length s - length p) s), (drop (length s - length p) s).
    by rewrite take_drop.
  - intros (before & name & -> & Heq).
    assert (Hlen : length name = length p).
    { apply equalIgnoreCase_Forall2 in Heq. by eapply Forall2_length. }
    rewrite length_app, Hlen.
    replace (length before + length p - length p)%nat with (length before) by lia.
    rewrite drop_app_length. split; [lia|done].
Qed.

(** [animationRegExp] decides the language of the regular expression. *)
Lemma animationRegExp_spec (s : jsstring) :
  animationRegExp s = true ↔ matchesAnimation s.
Proof.
  unfold animationRegExp, matchesAnimation.
  rewrite orb_true_iff, !endsWithIgnoreCase_spec. split.
  - destruct (trimEnd_split s) as (space & Hs & Hspace).
    intros [(before & name & Hbody & Hname)|(before & name & Hbody & Hname)];
      exists before, name, space; rewrite Hbody in Hs;
      (split; [by rewrite app_assoc|]); split; tauto.
  - intros (before & name & space & -> & Hname & Hspace).
    assert (Hlast : last name = Some 58).
    { destruct Hname as [Hname|Hname];
        [apply (equalIgnoreCase_colon name (js "animation"))
        |apply (equalIgnoreCase_colon name (js "animation-name"))]; exact Hname. }
    rewrite app_assoc, trimEnd_space; [| done |].
    + destruct Hname; [left|right]; by exists before, name.
    + intros c Hc. apply last_Some in Hlast as [name' ->].
      rewrite app_assoc, last_snoc in Hc. by injection Hc as <-.
Qed.

(** ** Named slots *)

Lemma js_inj (s t : string) : js s = js t → s = t.
Proof.
  unfold js. intros H.
  rewrite <- (string_of_list_ascii_of_string s), <- (string_of_list_ascii_of_string t).
  f_equal. revert H. generalize (list_ascii_of_string s) (list_ascii_of_string t).
  induction l as [|a l IH]; intros [|a' l']; simpl; try done.
  intros [= Ha Hl]. f_equal; [|by apply IH].
  apply Nat2Z.inj in Ha.
  by rewrite <- (ascii_nat_embedding a), <- (ascii_nat_embedding a'), Ha.
Qed.

Lemma decimal_inj (n m : nat) : decimal n = decimal m → n = m.
Proof.
  unfold decimal. intros H. apply js_inj in H.
  apply DecimalNat.Unsigned.to_uint_inj.
  assert (Some (Nat.to_uint n) = Some (Nat.to_uint m)) as [= ->]; [|done].
  by rewrite <- !NilEmpty.usu, H.
Qed.

Lemma slotArg_inj {expr} (k k' : nat) : @slotArg expr k = slotArg k' → k = k'.
Proof.
  unfold slotArg. intros [= H]. by apply decimal_inj.
Qed.

Section Slots.
Context {expr : Type}.
Variable exprParts : list expr.
Implicit Types (b : BlockState expr) (s : Slots expr) (keys : list Z) (c : Z).

Lemma addMarker_slots c b :
  slots (addMarker exprParts c b) =
    match argsByCode (slots b) !! c with
    | Some _ => slots b
    | None => if isReference b then bindSlot exprParts (slots b) c else slots b
    end.
Proof.
  unfold addMarker, isReference.
  destruct (CssPosition.eqb (pos b) CssPosition.ElementSelector); simpl;
    rewrite !addAccum_slots; simpl;
    destruct (argsByCode (slots b) !! c); simpl; rewrite ?addAccum_slots; try done.
  destruct (_ && _); simpl; by rewrite ?addAccum_slots.
Qed.

Lemma addMarker_last c b :
  last (addTerms (addMarker exprParts c b)) =
    Some match argsByCode (slots b) !! c with
         | Some arg => arg
         | None => if isReference b then slotArg (length (exprArgs (slots b)))
                   else exprFromChar exprParts c
         end.
Proof.
  unfold addMarker, isReference.
  destruct (CssPosition.eqb (pos b) CssPosition.ElementSelector); simpl;
    rewrite !addAccum_slots; simpl;
    destruct (argsByCode (slots b) !! c); simpl; rewrite ?last_snoc; try done.
  destruct (_ && _); simpl; by rewrite ?last_snoc.
Qed.

Lemma blockStep_marker b c :
  isMarker c → blockStep exprParts b c = addMarker exprParts c (atPos b (nextPos (pos b) c)).
Proof.
  intros [Hge Hne]. unfold blockStep.
  destruct (Z.eqb_spec c CLASS_MARKER); [done|].
  by destruct (Z.leb_spec START_CODE c); [|lia].
Qed.

Lemma blockStep_slots_other b c : ¬ isMarker c → slots (blockStep exprParts b c) = slots b.
Proof.
  intros Hc. unfold blockStep.
  destruct (Z.eqb_spec c CLASS_MARKER); [simpl; by rewrite addAccum_slots|].
  destruct (Z.leb_spec START_CODE c); [|done]. by destruct Hc.
Qed.

Lemma slotsFor_empty : slotsFor exprParts [] emptySlots.
Proof.
  split; [constructor|]. split; [constructor|]. split; [done|]. split; [done|].
  intros c arg. simpl. rewrite lookup_empty. split; [done|].
  by intros (k & Hk & _).
Qed.

Lemma slotsFor_length keys s :
  slotsFor exprParts keys s → length (exprArgs s) = length keys.
Proof. intros (_ & _ & -> & _). by rewrite length_map, length_seq. Qed.

Lemma slotsFor_unbound keys s c :
  slotsFor exprParts keys s → (argsByCode s !! c = None ↔ c ∉ keys).
Proof.
  intros (_ & _ & _ & _ & Hmap). rewrite eq_None_not_Some. apply not_iff_compat.
  rewrite list_elem_of_lookup. split.
  - intros [arg Harg]. apply Hmap in Harg as (k & Hk & _). by exists k.
  - intros [k Hk]. exists (slotArg k). apply Hmap. by exists k.
Qed.

(** Binding a marker that has no slot yet appends one slot. *)
Lemma slotsFor_bind keys s c :
  slotsFor exprParts keys s → isMarker c → argsByCode s !! c = None →
  slotsFor exprParts (keys ++ [c]) (bindSlot exprParts s c).
Proof.
  intros Hs Hc Hnone.
  pose proof (slotsFor_length keys s Hs) as Hlen.
  pose proof (proj1 (slotsFor_unbound keys s c Hs) Hnone) as Hfresh.
  destruct Hs as (Hdup & Hmarkers & Hargs & Hvals & Hmap).
  unfold bindSlot. rewrite Hlen. split; [|split; [|split; [|split]]]; simpl.
  - apply NoDup_app. split; [done|]. split; [|apply NoDup_singleton].
    intros x Hx Hx'. apply list_elem_of_singleton in Hx' as ->. done.
  - apply Forall_app. split; [done|]. by apply Forall_singleton.
  - rewrite length_app, Nat.add_1_r, seq_S, map_app, Hargs. done.
  - by rewrite map_app, Hvals.
  - intros c' arg. destruct (decide (c = c')) as [<-|Hne].
    + rewrite lookup_insert_eq. split.
      * intros [= <-]. exists (length keys). split; [|done].
        by rewrite lookup_app_r, Nat.sub_diag by lia.
      * intros (k & Hk & ->). f_equal.
        destruct (decide (k < length keys)%nat) as [Hlt|Hge].
        -- rewrite lookup_app_l in Hk by done.
           destruct Hfresh. apply list_elem_of_lookup. by exists k.
        -- apply lookup_lt_Some in Hk as Hk'. rewrite length_app in Hk'. simpl in Hk'.
           f_equal. lia.
    + rewrite lookup_insert_ne by done. rewrite Hmap. split.
      * intros (k & Hk & ->). exists k. split; [|done].
        by apply lookup_app_l_Some.
      * intros (k & Hk & ->). exists k. split; [|done].
        apply lookup_app_Some in Hk as [Hk|[_ Hk]]; [done|].
        apply list_lookup_singleton_Some in Hk as [_ ->]. done.
Qed.

(** One character either leaves the slots as they are or binds its marker
    to one more slot; a marker met as a reference has a slot afterwards. *)
Lemma blockStep_slotsFor keys b c :
  slotsFor exprParts keys (slots b) →
  ∃ keys',
    slotsFor exprParts keys' (slots (blockStep exprParts b c))
    ∧ keys `prefix_of` keys'
    ∧ (isMarker c → isReference (atPos b (nextPos (pos b) c)) = true → c ∈ keys').
Proof.
  intros Hs. destruct (decide (isMarker c)) as [Hc|Hc].
  2:{ exists keys. rewrite blockStep_slots_other by done. by split. }
  rewrite blockStep_marker, addMarker_slots by done.
  change (slots (atPos b _)) with (slots b).
  destruct (argsByCode (slots b) !! c) as [arg|] eqn:Harg.
  - exists keys. split; [done|]. split; [done|]. intros _ _.
    destruct Hs as (_ & _ & _ & _ & Hmap). apply Hmap in Harg as (k & Hk & _).
    apply list_elem_of_lookup. by exists k.
  - destruct (isReference _) eqn:Href.
    + exists (keys ++ [c]). split; [by apply slotsFor_bind|].
      split; [by apply prefix_app_r|]. intros _ _. apply elem_of_app. right. by left.
    + exists keys. by split.
Qed.

End Slots.

Section Blocks.
Context {expr : Type}.
Variable exprParts : list expr.
Implicit Types (b : BlockState expr) (s : Slots expr) (keys : list Z) (c : Z).
Implicit Types (r : jsstring) (rules : list jsstring).

Lemma foldl_blockStep_pos b r :
  pos (foldl (blockStep exprParts) b r) = foldl nextPos (pos b) r.
Proof.
  revert b. induction r as [|c r IH]; intros b; [done|].
  simpl. by rewrite IH, blockStep_pos.
Qed.

Lemma foldl_blockStep_slotsFor keys b r :
  slotsFor exprParts keys (slots b) →
  ∃ keys', slotsFor exprParts keys' (slots (foldl (blockStep exprParts) b r))
           ∧ keys `prefix_of` keys'.
Proof.
  revert keys b. induction r as [|c r IH]; intros keys b Hs; [by exists keys|].
  destruct (blockStep_slotsFor exprParts keys b c Hs) as (keys1 & Hs1 & Hpre1 & _).
  destruct (IH keys1 _ Hs1) as (keys2 & Hs2 & Hpre2).
  exists keys2. split; [done|]. by etrans.
Qed.

Lemma ruleTerms_slots s r :
  (ruleTerms exprParts s r).2
  = slots (foldl (blockStep exprParts) (mkBlockState [] [] CssPosition.None s) r).
Proof. unfold ruleTerms. simpl. apply addAccum_slots. Qed.

Lemma ruleTerms_slotsFor keys s r :
  slotsFor exprParts keys s →
  ∃ keys', slotsFor exprParts keys' (ruleTerms exprParts s r).2 ∧ keys `prefix_of` keys'.
Proof. intros Hs. rewrite ruleTerms_slots. by apply foldl_blockStep_slotsFor. Qed.

Lemma mapRules_cons s r rules :
  mapRules exprParts s (r :: rules) =
    ((ruleTerms exprParts s r).1
       :: (mapRules exprParts (ruleTerms exprParts s r).2 rules).1,
     (mapRules exprParts (ruleTerms exprParts s r).2 rules).2).
Proof.
  cbn [mapRules]. destruct (ruleTerms exprParts s r) as [terms s1]. cbn [fst snd].
  by destruct (mapRules exprParts s1 rules).
Qed.

Lemma mapRules_slotsFor keys s rules :
  slotsFor exprParts keys s →
  ∃ keys', slotsFor exprParts keys' (mapRules exprParts s rules).2
           ∧ keys `prefix_of` keys'.
Proof.
  revert keys s. induction rules as [|r rules IH]; intros keys s Hs; [by exists keys|].
  rewrite mapRules_cons.
  destruct (ruleTerms_slotsFor keys s r Hs) as (keys1 & Hs1 & Hpre1).
  destruct (IH keys1 _ Hs1) as (keys2 & Hs2 & Hpre2).
  exists keys2. split; [exact Hs2|]. by etrans.
Qed.

Lemma mapRules_app s rules1 rules2 :
  mapRules exprParts s (rules1 ++ rules2) =
    ((mapRules exprParts s rules1).1
       ++ (mapRules exprParts (mapRules exprParts s rules1).2 rules2).1,
     (mapRules exprParts (mapRules exprParts s rules1).2 rules2).2).
Proof.
  revert s. induction rules1 as [|r rules1 IH]; intros s.
  - simpl. by destruct (mapRules exprParts s rules2).
  - rewrite <- app_comm_cons, !mapRules_cons, IH. done.
Qed.

Lemma ruleNodesOf_slots rules :
  (ruleNodesOf exprParts rules).2 = (mapRules exprParts emptySlots rules).2.
Proof. unfold ruleNodesOf. by destruct (mapRules exprParts emptySlots rules). Qed.

(** *** Blocks without terms *)

Lemma blockStep_pending b c :
  addTerms (blockStep exprParts b c) ≠ [] ∨ accum (blockStep exprParts b c) ≠ [].
Proof.
  unfold blockStep. destruct (c =? CLASS_MARKER).
  - left. simpl. by destruct (addTerms (addAccum _)).
  - destruct (START_CODE <=? c).
    + left. intros Hnil.
      pose proof (addMarker_last exprParts c (atPos b (nextPos (pos b) c))) as Hlast.
      unfold atPos in Hlast. by rewrite Hnil in Hlast.
    + right. simpl. by destruct (accum b).
Qed.

Lemma addAccum_terms b :
  addTerms b ≠ [] ∨ accum b ≠ [] → addTerms (addAccum b) ≠ [].
Proof.
  unfold addAccum. destruct (accum b) eqn:E; simpl.
  - by intros [|].
  - intros _. by destruct (addTerms b).
Qed.

(** A block has no terms exactly when it is empty, and then it leaves the
    slots as they were. *)
Lemma ruleTerms_nil s r : (ruleTerms exprParts s r).1 = [] ↔ r = [].
Proof.
  split; [|by intros ->].
  destruct (decide (r = [])) as [|Hr]; [done|]. intros Hnil. exfalso.
  destruct (exists_last Hr) as (r' & c & ->).
  unfold ruleTerms in Hnil. simpl in Hnil. rewrite foldl_snoc in Hnil.
  revert Hnil. apply addAccum_terms, blockStep_pending.
Qed.

Lemma mapRules_filter s rules :
  (filter (λ arr, (0 < length arr)%nat) (mapRules exprParts s rules).1,
   (mapRules exprParts s rules).2)
  = mapRules exprParts s (filter (λ r, r ≠ []) rules).
Proof.
  revert s. induction rules as [|r rules IH]; intros s; [done|].
  rewrite mapRules_cons. cbn [fst snd].
  destruct (decide (r = [])) as [->|Hr].
  - rewrite (filter_cons_False (λ r, r ≠ [])) by (by intros ?).
    rewrite <- IH. by rewrite filter_cons_False by (simpl; lia).
  - rewrite (filter_cons_True (λ r, r ≠ [])) by done.
    pose proof (proj2 (not_iff_compat (ruleTerms_nil s r)) Hr) as Hterms.
    rewrite mapRules_cons, <- IH. cbn [fst snd].
    rewrite filter_cons_True; [done|].
    destruct (ruleTerms exprParts s r).1; [done|simpl; lia].
Qed.

Lemma mapRules_nonempty s rules :
  Forall (λ r, r ≠ []) rules →
  Forall (λ arr, arr ≠ []) (mapRules exprParts s rules).1.
Proof.
  intros H. revert s. induction H as [|r rules Hr _ IH]; intros s; [constructor|].
  rewrite mapRules_cons. constructor; [|apply IH].
  by apply (not_iff_compat (ruleTerms_nil s r)).
Qed.

End Blocks.

Section References.
Context {expr : Type}.
Variable exprParts : list expr.
Implicit Types (b : BlockState expr) (s : Slots expr) (keys : list Z) (c : Z).

Lemma slotsFor_lookup keys s c k :
  slotsFor exprParts keys s →
  (argsByCode s !! c = Some (slotArg k) ↔ keys !! k = Some c).
Proof.
  intros (_ & _ & _ & _ & Hmap). rewrite Hmap. split.
  - intros (k' & Hk' & Heq). by apply slotArg_inj in Heq as ->.
  - intros Hk. by exists k.
Qed.

Lemma slotsFor_unique keys keys' s :
  slotsFor exprParts keys s → slotsFor exprParts keys' s → keys = keys'.
Proof.
  intros Hs Hs'. apply list_eq. intros k. apply option_eq. intros c.
  by rewrite <- (slotsFor_lookup keys s c k Hs), (slotsFor_lookup keys' s c k Hs').
Qed.

Lemma isReference_ElementRule b :
  isReference (atPos b CssPosition.ElementRule) = animationRegExp (trim (accum b)).
Proof. done. Qed.

Lemma isReference_ElementSelector b :
  isReference (atPos b CssPosition.ElementSelector) = true.
Proof. done. Qed.

(** A marker that has a slot is replaced by the identifier of that slot,
    wherever it is met, and the slots stay as they are. *)
Lemma marker_reused b c :
  isMarker c → is_Some (argsByCode (slots b) !! c) → reusedAt exprParts b c.
Proof.
  intros Hc [arg Harg]. unfold reusedAt.
  rewrite blockStep_marker, addMarker_slots, addMarker_last by done.
  change (slots (atPos b _)) with (slots b). rewrite Harg.
  split; [done|]. by exists arg.
Qed.

(** C5, as the code has it. A marker met in a declaration body
    ([ElementRule]) that has no named slot yet is bound to a new named slot
    if and only if the trimmed text accumulated before it matches
    [animation:] or [animation-name:] (in any case) at its end, and is
    substituted inline, the slots unchanged, if and only if it does not; a
    marker that has a named slot already is replaced by the identifier of
    that slot, whatever the text before it. *)
Theorem animation_reference b c :
  isMarker c →
  nextPos (pos b) c = CssPosition.ElementRule →
  (argsByCode (slots b) !! c = None →
     (promotedAt exprParts b c ↔ matchesAnimation (trim (accum b)))
     ∧ (inlinedAt exprParts b c ↔ ¬ matchesAnimation (trim (accum b))))
  ∧ (is_Some (argsByCode (slots b) !! c) → reusedAt exprParts b c).
Proof.
  intros Hc Hpos. split; [|by apply marker_reused].
  intros Hnone. unfold promotedAt, inlinedAt.
  rewrite blockStep_marker, addMarker_slots, addMarker_last, Hpos by done.
  change (slots (atPos b _)) with (slots b).
  rewrite Hnone, isReference_ElementRule, <- animationRegExp_spec.
  destruct (animationRegExp (trim (accum b))); simpl.
  - split; [done|]. split; [|done]. intros [Hslots _].
    apply (f_equal (λ s, length (exprArgs s))) in Hslots. simpl in Hslots.
    rewrite length_app in Hslots. simpl in Hslots. lia.
  - split; [|done]. split; [|done]. intros (Hargs & _).
    apply (f_equal length) in Hargs. rewrite length_app in Hargs. simpl in Hargs. lia.
Qed.

End References.

(** The marker of [animation: ${k}] is promoted. *)
Lemma animation_reference_example :
  let exprParts := ["k"%string] in
  let b := foldl (blockStep exprParts) (mkBlockState [] [] CssPosition.None emptySlots)
             ([230] ++ js "{animation: ") in
  promotedAt exprParts b 231.
Proof.
  intros exprParts b.
  assert (Hc : isMarker 231) by (by split).
  assert (Hpos : nextPos (pos b) 231 = CssPosition.ElementRule) by reflexivity.
  assert (Hnone : argsByCode (slots b) !! 231 = None) by reflexivity.
  apply (proj1 (proj1 (animation_reference exprParts b 231 Hc Hpos) Hnone)).
  apply animationRegExp_spec. reflexivity.
Defined.

(** C5, as the specification words it, fails for a marker that has a named
    slot already: in the block [<cls> <m>{color:<m>;}] the marker [m] is a
    class reference in the selector, and its second occurrence, in the
    declaration body after [color:], is replaced by the slot [expr0] and not
    by the expression. *)
Lemma reused_slot_in_declaration_body :
  let exprParts := ["v"%string] in
  let b := foldl (blockStep exprParts) (mkBlockState [] [] CssPosition.None emptySlots)
             ([230; 32; 231] ++ js "{color:") in
  isMarker 231
  ∧ nextPos (pos b) 231 = CssPosition.ElementRule
  ∧ accum b = js "{color:"
  ∧ animationRegExp (trim (accum b)) = false
  ∧ last (addTerms (blockStep exprParts b 231)) = Some (slotArg 0)
  ∧ exprFromChar exprParts 231 = Source "v"%string
  ∧ (ruleTerms exprParts emptySlots ([230; 32; 231] ++ js "{color:" ++ [231] ++ js ";}")).1
    = [classNameArg; StringLiteral (js " ."); slotArg 0;
       StringLiteral (js "{color:"); slotArg 0; StringLiteral (js ";}")].
Proof. by vm_compute. Qed.

Section Interning.
Context {expr : Type} `{!Precedence expr}.
Variable exprParts : list expr.
Implicit Types (b : BlockState expr) (s : Slots expr) (keys : list Z).
Implicit Types (rules : list jsstring) (c : Z).

Lemma ruleNodesOf_slotsFor rules :
  ∃ keys, slotsFor exprParts keys (ruleNodesOf exprParts rules).2.
Proof.
  rewrite ruleNodesOf_slots.
  destruct (mapRules_slotsFor exprParts [] emptySlots rules) as (keys & Hs & _);
    [apply slotsFor_empty|]. by exists keys.
Qed.

Lemma parameterName_slotArg (k : nat) :
  parameterName (@slotArg expr k) = js "expr" ++ decimal k.
Proof. done. Qed.

Lemma slot_names_NoDup (n : nat) :
  NoDup (js "cls" :: map (λ k, js "expr" ++ decimal k) (seq 0 n)).
Proof.
  apply NoDup_cons. split.
  - intros Hin. apply list_elem_of_In, in_map_iff in Hin as (k & Hk & _). discriminate.
  - change (map ?f ?l) with (f <$> l). apply NoDup_fmap_2; [|apply NoDup_seq].
    intros k k' H. apply app_inv_head in H. by apply decimal_inj.
Qed.

Lemma addMarker_accum c b : accum (addMarker exprParts c b) = [].
Proof.
  unfold addMarker.
  destruct (CssPosition.eqb (pos b) CssPosition.ElementSelector); simpl;
    destruct (argsByCode _ !! c); simpl; rewrite ?addAccum_accum; try done;
    destruct (_ && _); simpl; by rewrite ?addAccum_accum.
Qed.

Lemma blockStep_accum b c :
  accum (blockStep exprParts b c)
  = if (c =? CLASS_MARKER) || (START_CODE <=? c) then [] else accum b ++ [c].
Proof.
  unfold blockStep. destruct (c =? CLASS_MARKER); simpl.
  - apply addAccum_accum.
  - destruct (START_CODE <=? c); [apply addMarker_accum|done].
Qed.

Lemma bindNew_prefix keys (l : list Z) : keys `prefix_of` foldl bindNew keys l.
Proof.
  revert keys. induction l as [|c l IH]; intros keys; [done|]. cbn [foldl].
  etrans; [|apply IH]. unfold bindNew. destruct (decide _); [done|].
  by apply prefix_app_r.
Qed.

Lemma bindNew_elem_of keys (l : list Z) c :
  c ∈ foldl bindNew keys l ↔ c ∈ keys ∨ c ∈ l.
Proof.
  revert keys. induction l as [|x l IH]; intros keys; cbn [foldl].
  - rewrite elem_of_nil. tauto.
  - rewrite IH, elem_of_cons. unfold bindNew. destruct (decide (x ∈ keys)) as [Hx|Hx].
    + split; [tauto|]. intros [?|[->|?]]; tauto.
    + rewrite elem_of_app, list_elem_of_singleton. tauto.
Qed.

(** One character binds its marker when it is met as a reference and has
    no slot yet, and leaves the slots as they are otherwise. *)
Lemma blockStep_bindings keys b c :
  slotsFor exprParts keys (slots b) →
  slotsFor exprParts
    (foldl bindNew keys (referencesIn (pos b) (accum b) [c]))
    (slots (blockStep exprParts b c)).
Proof.
  intros Hs. cbn [referencesIn].
  destruct (Z.eqb_spec c CLASS_MARKER) as [->|Hne].
  { rewrite blockStep_slots_other; [done|]. by intros [_ ?]. }
  destruct (Z.leb_spec START_CODE c) as [Hge|Hlt].
  2:{ rewrite blockStep_slots_other; [done|]. intros [? _]. lia. }
  assert (Hc : isMarker c) by done.
  rewrite blockStep_marker, addMarker_slots, app_nil_r by done.
  change (slots (atPos b _)) with (slots b).
  change (CssPosition.eqb (nextPos (pos b) c) CssPosition.ElementSelector
          || CssPosition.eqb (nextPos (pos b) c) CssPosition.ElementRule
             && animationRegExp (trim (accum b)))
    with (isReference (atPos b (nextPos (pos b) c))).
  pose proof (slotsFor_unbound exprParts keys (slots b) c Hs) as Hfree.
  destruct (argsByCode (slots b) !! c) as [arg|] eqn:Harg.
  - assert (Hin : c ∈ keys).
    { destruct (decide (c ∈ keys)) as [|Hout]; [done|]. by apply Hfree in Hout. }
    destruct (isReference _); [|done]. cbn [foldl]. unfold bindNew.
    by destruct (decide (c ∈ keys)).
  - destruct (isReference _); [|done]. cbn [foldl]. unfold bindNew.
    destruct (decide (c ∈ keys)) as [Hin|_]; [by apply Hfree in Hin|].
    by apply slotsFor_bind.
Qed.

Lemma referencesIn_cons (p : CssPosition.t) (acc r : jsstring) c :
  referencesIn p acc (c :: r)
  = referencesIn p acc [c]
    ++ referencesIn (nextPos p c)
         (if (c =? CLASS_MARKER) || (START_CODE <=? c) then [] else acc ++ [c]) r.
Proof.
  cbn [referencesIn]. destruct (c =? CLASS_MARKER); [done|].
  destruct (START_CODE <=? c); [|done]. cbn [orb]. by rewrite app_nil_r.
Qed.

Lemma foldl_blockStep_bindings keys b (r : jsstring) :
  slotsFor exprParts keys (slots b) →
  slotsFor exprParts
    (foldl bindNew keys (referencesIn (pos b) (accum b) r))
    (slots (foldl (blockStep exprParts) b r)).
Proof.
  revert keys b. induction r as [|c r IH]; intros keys b Hs; [done|].
  rewrite referencesIn_cons, foldl_app. cbn [foldl].
  rewrite <- (blockStep_accum b c), <- (blockStep_pos exprParts b c).
  apply IH. by apply blockStep_bindings.
Qed.

Lemma mapRules_bindings keys s rules :
  slotsFor exprParts keys s →
  slotsFor exprParts (foldl bindNew keys (references rules))
    (mapRules exprParts s rules).2.
Proof.
  revert keys s. induction rules as [|r rules IH]; intros keys s Hs; [done|].
  rewrite mapRules_cons. cbn [snd]. unfold references. cbn [flat_map].
  rewrite foldl_app. apply IH. rewrite ruleTerms_slots.
  by apply (foldl_blockStep_bindings keys (mkBlockState [] [] CssPosition.None s)).
Qed.

Lemma ruleNodesOf_bindings rules :
  slotsFor exprParts (firstBindings (references rules)) (ruleNodesOf exprParts rules).2.
Proof.
  rewrite ruleNodesOf_slots. apply mapRules_bindings, slotsFor_empty.
Qed.

(** C6. The named slots of a compilation are those of the markers met as a
    class or an animation reference in its rule blocks, each marker once, in
    the order in which they are first met as a reference: the slot number
    [k] is the identifier [expr<k>], bound to the marker number [k] of that
    list. The functional shape, when its sums are built, has the parameters
    [cls] and then these identifiers, pairwise distinct, and as trailing
    arguments the expressions of these markers, in the same order. The slots
    after a prefix of the rule blocks are those of the references of the
    prefix, a prefix of the list. And a marker that has a slot, wherever it
    is met again, is replaced by the identifier of that slot, no slot being
    added; a marker without a slot is bound to the next slot and replaced by
    its identifier when it is met as a reference, and is replaced by its
    expression, the slots unchanged, when it is not. *)
Theorem named_slots_interned rules :
  let keys := firstBindings (references rules) in
  let nodes := (ruleNodesOf exprParts rules).1 in
  let s := (ruleNodesOf exprParts rules).2 in
  slotsFor exprParts keys s
  ∧ (∀ c, c ∈ keys ↔ c ∈ references rules)
  ∧ (∀ c k, argsByCode s !! c = Some (slotArg k) ↔ keys !! k = Some c)
  ∧ functionalShape nodes s
    = (added ← mapM addUp nodes;
       body ← createArrayLiteral added;
       Ok (mkOutput
             (ArrowFunction
                (js "cls" :: map (λ k, js "expr" ++ decimal k) (seq 0 (length keys)))
                body)
             (map (exprFromChar exprParts) keys)))
  ∧ NoDup (js "cls" :: map (λ k, js "expr" ++ decimal k) (seq 0 (length keys)))
  ∧ (∀ rules1 rules2, rules = rules1 ++ rules2 →
       slotsFor exprParts (firstBindings (references rules1))
         (ruleNodesOf exprParts rules1).2
       ∧ firstBindings (references rules1) `prefix_of` keys)
  ∧ (∀ b c, isMarker c → is_Some (argsByCode (slots b) !! c) → reusedAt exprParts b c)
  ∧ (∀ b c, isMarker c → argsByCode (slots b) !! c = None →
       if isReference (atPos b (nextPos (pos b) c))
       then promotedAt exprParts b c
       else inlinedAt exprParts b c).
Proof.
  intros keys nodes s.
  pose proof (ruleNodesOf_bindings rules) as Hs. fold keys s in Hs.
  split; [done|]. split.
  { intros c. unfold keys, firstBindings. rewrite bindNew_elem_of, elem_of_nil. tauto. }
  split; [intros c k; by apply (slotsFor_lookup exprParts)|].
  split; [|split; [apply slot_names_NoDup|
           split; [|split; [intros b c; apply marker_reused|]]]].
  - unfold functionalShape. destruct Hs as (_ & _ & -> & -> & _).
    rewrite map_map. by rewrite (map_ext _ (λ k, js "expr" ++ decimal k)).
  - intros rules1 rules2 ->. split; [apply ruleNodesOf_bindings|].
    unfold keys, firstBindings, references. rewrite flat_map_app, foldl_app.
    apply bindNew_prefix.
  - intros b c Hc Hnone. unfold promotedAt, inlinedAt.
    rewrite blockStep_marker, addMarker_slots, addMarker_last by done.
    change (slots (atPos b _)) with (slots b). rewrite Hnone.
    by destruct (isReference _).
Qed.

End Interning.

(** Two rule blocks whose selectors refer to the same marker: one parameter
    [expr0], used in both blocks, and one trailing argument. *)
Example shared_slot_across_blocks :
  transformProcessed ["A"%string] false
    ([230; 32; 231] ++ js " a{x:y}" ++ [230; 32; 231] ++ js " b{x:y}")
  = Ok (mkOutput
          (ArrowFunction [js "cls"; js "expr0"]
             (ArrayLiteral
                [Add (Add (Add classNameArg (StringLiteral (js " .")))
                          (slotArg 0))
                     (StringLiteral (js " a{x:y}"));
                 Add (Add (Add classNameArg (StringLiteral (js " .")))
                          (slotArg 0))
                     (StringLiteral (js " b{x:y}"))]))
          [Source "A"%string]).
Proof. by vm_compute. Qed.

(** ** Results *)

Lemma mapM_Ok_Forall {A B} (f : A → Result B) (P : A → Prop) (Q : B → Prop)
    (l : list A) (l' : list B) :
  (∀ a b, P a → f a = Ok b → Q b) →
  Forall P l → mapM f l = Ok l' → Forall Q l'.
Proof.
  intros HPQ Hl. revert l'. induction Hl as [|a l Ha _ IH]; intros l'.
  - intros [= <-]. constructor.
  - cbn [mapM]. destruct (f a) as [b|] eqn:Hb; [|done]. cbn [mbind Result_bind].
    destruct (mapM f l) as [bs|]; [|done]. intros [= <-].
    constructor; [by eapply HPQ|by apply IH].
Qed.

Lemma mapM_Err {A B} (f : A → Result B) (l : list A) (e : Error) :
  mapM f l = Err e → ∃ a, a ∈ l ∧ f a = Err e.
Proof.
  induction l as [|a l IH]; [done|]. cbn [mapM].
  destruct (f a) as [b|e'] eqn:Hb; cbn [mbind Result_bind].
  - destruct (mapM f l) as [bs|e'']; [done|]. intros [= <-].
    destruct (IH eq_refl) as (a' & Hin & Ha'). exists a'. split; [by right|done].
  - intros [= <-]. exists a. split; [by left|done].
Qed.

Lemma mapM_length {A B} (f : A → Result B) (l : list A) (l' : list B) :
  mapM f l = Ok l' → length l' = length l.
Proof.
  revert l'. induction l as [|a l IH]; intros l'; [by intros [= <-]|].
  cbn [mapM]. destruct (f a) as [b|]; [|done]. cbn [mbind Result_bind].
  destruct (mapM f l) as [bs|]; [|done]. intros [= <-]. simpl. by rewrite (IH bs).
Qed.

(** ** The sums *)

Section Sums.
Context {expr : Type} `{!Precedence expr}.
Implicit Types (n lhs rhs operand sum : Node expr) (arr : list (Node expr)) (e : Error).

Lemma parenthesizeBinaryOperand_Ok operand (isLeftSideOfBinary : bool)
    (leftOperand : option (Node expr)) :
  operand ≠ Undefined →
  ∃ n, parenthesizeBinaryOperand operand isLeftSideOfBinary leftOperand = Ok n
       ∧ (n = operand ∨ (n = Parenthesized operand ∧ ∃ x, operand = Source x)).
Proof.
  intros Hn. destruct operand; try done; cbn [parenthesizeBinaryOperand];
    try (eexists; split; [done|by left]).
  destruct (binaryOperandNeedsParentheses _ _ _); eexists; (split; [done|]);
    [right|by left]. split; [done|]. by eexists.
Qed.

Lemma parenthesizeBinaryOperand_Err operand (isLeftSideOfBinary : bool)
    (leftOperand : option (Node expr)) e :
  parenthesizeBinaryOperand operand isLeftSideOfBinary leftOperand = Err e →
  e = TypeError ∧ operand = Undefined.
Proof.
  destruct operand; try done; cbn [parenthesizeBinaryOperand].
  - by intros [= <-].
  - by destruct (binaryOperandNeedsParentheses _ _ _).
Qed.

Lemma createAdd_Ok lhs rhs :
  lhs ≠ Undefined → rhs ≠ Undefined →
  ∃ x y, createAdd lhs rhs = Ok (Add x y)
         ∧ (x = lhs ∨ (x = Parenthesized lhs ∧ ∃ a, lhs = Source a))
         ∧ (y = rhs ∨ (y = Parenthesized rhs ∧ ∃ a, rhs = Source a)).
Proof.
  intros Hl Hr. unfold createAdd.
  destruct (parenthesizeBinaryOperand_Ok lhs true None Hl) as (x & -> & Hx).
  cbn [mbind Result_bind].
  destruct (parenthesizeBinaryOperand_Ok rhs false (Some x) Hr) as (y & -> & Hy).
  by exists x, y.
Qed.

Lemma createAdd_Err lhs rhs e :
  createAdd lhs rhs = Err e → e = TypeError ∧ (lhs = Undefined ∨ rhs = Undefined).
Proof.
  unfold createAdd.
  destruct (parenthesizeBinaryOperand lhs true None) as [x|e'] eqn:Hx;
    cbn [mbind Result_bind].
  - destruct (parenthesizeBinaryOperand rhs false (Some x)) as [y|e''] eqn:Hy;
      cbn [mbind Result_bind]; [done|].
    intros [= <-]. apply parenthesizeBinaryOperand_Err in Hy as [-> ->]. tauto.
  - intros [= <-]. apply parenthesizeBinaryOperand_Err in Hx as [-> ->]. tauto.
Qed.

Lemma createAdd_inv lhs rhs sum :
  createAdd lhs rhs = Ok sum →
  lhs ≠ Undefined ∧ rhs ≠ Undefined
  ∧ ∃ x y, sum = Add x y
           ∧ (x = lhs ∨ (x = Parenthesized lhs ∧ ∃ a, lhs = Source a))
           ∧ (y = rhs ∨ (y = Parenthesized rhs ∧ ∃ a, rhs = Source a)).
Proof.
  intros Hadd.
  assert (Hl : lhs ≠ Undefined) by (by intros ->).
  assert (Hr : rhs ≠ Undefined).
  { intros ->. unfold createAdd in Hadd.
    by destruct (parenthesizeBinaryOperand lhs true None). }
  split; [done|]. split; [done|].
  destruct (createAdd_Ok lhs rhs Hl Hr) as (x & y & Hxy & Hx & Hy).
  rewrite Hxy in Hadd. injection Hadd as <-. by exists x, y.
Qed.

Lemma addLoop_Ok lhs arr :
  lhs ≠ Undefined → Undefined ∉ arr →
  ∃ sum, addLoop lhs arr = Ok sum ∧ sum ≠ Undefined.
Proof.
  revert lhs. induction arr as [|rhs arr IH]; intros lhs Hl Harr; [by exists lhs|].
  apply not_elem_of_cons in Harr as [Hr Harr]. cbn [addLoop].
  destruct (createAdd_Ok lhs rhs Hl) as (x & y & -> & _); [done|].
  cbn [mbind Result_bind]. by apply IH.
Qed.

Lemma addLoop_Err lhs arr e :
  addLoop lhs arr = Err e →
  e = TypeError ∧ arr ≠ [] ∧ (lhs = Undefined ∨ Undefined ∈ arr).
Proof.
  revert lhs. induction arr as [|rhs arr IH]; intros lhs; [done|]. cbn [addLoop].
  destruct (createAdd lhs rhs) as [sum|e'] eqn:Hadd; cbn [mbind Result_bind].
  - intros Hloop. apply IH in Hloop as (-> & _ & [->|Hin]).
    + by apply createAdd_inv in Hadd as (_ & _ & x & y & ? & _).
    + split; [done|]. split; [done|]. right. by right.
  - intros [= <-]. apply createAdd_Err in Hadd as (-> & [-> | ->]).
    + split; [done|]. split; [done|]. by left.
    + split; [done|]. split; [done|]. right. by left.
Qed.

(** The sum of a block fails exactly when the block has two terms or more
    and one of them is [undefined], and then with a [TypeError]. *)
Lemma addUp_Err arr e :
  addUp arr = Err e ↔ e = TypeError ∧ (2 ≤ length arr)%nat ∧ Undefined ∈ arr.
Proof.
  split.
  - destruct arr as [|first rest]; [done|]. cbn [addUp]. intros Hloop.
    apply addLoop_Err in Hloop as (-> & Hrest & Hin). split; [done|]. split.
    + destruct rest; [done|]. simpl. lia.
    + destruct Hin as [->|Hin]; [by left|by right].
  - intros (-> & Hlen & Hin). destruct (addUp arr) as [sum|e] eqn:Hsum.
    + exfalso. destruct arr as [|first [|second rest]]; [simpl in Hlen; lia..|].
      clear Hlen. cbn [addUp addLoop] in Hsum.
      destruct (createAdd first second) as [sum0|] eqn:Hadd; [|done].
      cbn [mbind Result_bind] in Hsum.
      apply createAdd_inv in Hadd as (Hf & Hs & x0 & y0 & Hsum0' & _).
      assert (Hsum0 : sum0 ≠ Undefined) by (by rewrite Hsum0').
      clear x0 y0 Hsum0'.
      apply elem_of_cons in Hin as [<-|Hin]; [done|].
      apply elem_of_cons in Hin as [<-|Hin]; [done|].
      clear Hf Hs. revert sum0 Hsum0 Hsum.
      induction rest as [|x rest IH]; intros sum0 Hsum0 Hsum; [by apply elem_of_nil in Hin|].
      cbn [addLoop] in Hsum.
      destruct (createAdd sum0 x) as [sum1|] eqn:Hadd; [|done].
      cbn [mbind Result_bind] in Hsum.
      apply createAdd_inv in Hadd as (_ & Hx & x1 & y1 & Hsum1' & _).
      assert (Hsum1 : sum1 ≠ Undefined) by (by rewrite Hsum1').
      clear x1 y1 Hsum1'.
      apply elem_of_cons in Hin as [<-|Hin]; [done|]. by apply (IH Hin sum1).
    + f_equal. destruct arr as [|first rest]; [done|].
      by apply addLoop_Err in Hsum as (-> & _).
Qed.

Lemma addUp_Ok arr :
  Undefined ∉ arr → ∃ sum, addUp arr = Ok sum ∧ (arr ≠ [] → sum ≠ Undefined).
Proof.
  destruct arr as [|first rest]; [by exists Undefined|].
  intros Harr. apply not_elem_of_cons in Harr as [Hfirst Hrest]. cbn [addUp].
  destruct (addLoop_Ok first rest) as (sum & -> & Hsum); [done..|]. by exists sum.
Qed.

Lemma parenthesizeExpressionForList_Err n e :
  parenthesizeExpressionForList n = Err e ↔ e = TypeError ∧ n = Undefined.
Proof.
  split; [|by intros [-> ->]].
  destruct n; try done; cbn [parenthesizeExpressionForList].
  - by intros [= <-].
  - by destruct (listElementNeedsParentheses _).
Qed.

Lemma mapM_parenthesize_Err (elements : list (Node expr)) e :
  mapM parenthesizeExpressionForList elements = Err e ↔
  e = TypeError ∧ Undefined ∈ elements.
Proof.
  revert e. induction elements as [|n elements IH]; intros e.
  - split; [done|]. intros [_ Hin]. by apply elem_of_nil in Hin.
  - cbn [mapM]. rewrite elem_of_cons.
    destruct (parenthesizeExpressionForList n) as [n'|e'] eqn:Hn;
      cbn [mbind Result_bind].
    + assert (Hdef : n ≠ Undefined) by (by intros ->).
      destruct (mapM parenthesizeExpressionForList elements) as [l|e'];
        cbn [mbind Result_bind].
      * split; [done|]. intros [-> [Heq|Hin]]; [by destruct Hdef|].
        discriminate (proj2 (IH TypeError) (conj eq_refl Hin)).
      * destruct (proj1 (IH e') eq_refl) as [-> Hin].
        split; [intros [= <-]; tauto|by intros [-> _]].
    + apply parenthesizeExpressionForList_Err in Hn as [-> ->].
      split; [intros [= <-]|intros [-> _]]; tauto.
Qed.

Lemma createArrayLiteral_Err (elements : list (Node expr)) e :
  createArrayLiteral elements = Err e ↔ e = TypeError ∧ Undefined ∈ elements.
Proof.
  unfold createArrayLiteral. rewrite <- mapM_parenthesize_Err.
  destruct (mapM parenthesizeExpressionForList elements);
    cbn [mbind Result_bind]; split; intros Heq;
    first [discriminate|by injection Heq as ->].
Qed.

Lemma createArrayLiteral_Ok (elements : list (Node expr)) :
  Undefined ∉ elements →
  ∃ elements', createArrayLiteral elements = Ok (ArrayLiteral elements').
Proof.
  intros Hdef. destruct (createArrayLiteral elements) as [array|e] eqn:Harray.
  - unfold createArrayLiteral in Harray.
    destruct (mapM parenthesizeExpressionForList elements); [|done].
    injection Harray as <-. by eexists.
  - by apply createArrayLiteral_Err in Harray as [_ Hin].
Qed.

End Sums.

(** ** Shape selection *)

Section Shapes.
Context {expr : Type} `{!Precedence expr}.
Variable exprParts : list expr.
Implicit Types (s : Slots expr) (keys : list Z) (rules : list jsstring).
Implicit Types (out r : jsstring) (c : Z).

Lemma transformProcessed_keyframe out :
  transformProcessed exprParts true out
  = keyframeShape (ruleNodesOf exprParts [out]).1 (ruleNodesOf exprParts [out]).2.
Proof.
  unfold transformProcessed, splitRules, mbind, Result_bind.
  by destruct (ruleNodesOf exprParts [out]).
Qed.

Lemma transformProcessed_rules out rules :
  splitRules out false = Ok rules →
  transformProcessed exprParts false out =
    let nodes := (ruleNodesOf exprParts rules).1 in
    let s := (ruleNodesOf exprParts rules).2 in
    if (length (exprVals s) =? 0)%nat then
      if (simpleScan rules true).1 then staticShape nodes (simpleScan rules true).2
      else functionalShape nodes s
    else functionalShape nodes s.
Proof.
  intros Hrules. unfold transformProcessed. rewrite Hrules.
  unfold mbind, Result_bind. destruct (ruleNodesOf exprParts rules) as [nodes s].
  simpl. by destruct (simpleScan rules true).
Qed.

(** The nodes of the one block of keyframe mode. *)
Lemma ruleNodesOf_single out :
  ruleNodesOf exprParts [out] =
    (if decide (out = []) then [] else [(ruleTerms exprParts emptySlots out).1],
     (ruleTerms exprParts emptySlots out).2).
Proof.
  unfold ruleNodesOf. rewrite mapRules_cons. cbn [mapRules fst snd]. f_equal.
  destruct (decide (out = [])) as [->|Hout]; [done|].
  rewrite filter_cons_True; [done|].
  pose proof (proj2 (not_iff_compat (ruleTerms_nil exprParts emptySlots out)) Hout).
  destruct (ruleTerms exprParts emptySlots out).1; [done|simpl; lia].
Qed.

(** A marker met as a reference somewhere in the blocks has a slot at the
    end, so that [exprVals] is not empty. *)
Lemma reference_bound (b : BlockState expr) keys before after c :
  slotsFor exprParts keys (slots b) →
  isMarker c →
  isReference (atPos (foldl (blockStep exprParts) b before)
                     (nextPos (foldl nextPos (pos b) before) c)) = true →
  ∃ keys', slotsFor exprParts keys'
             (slots (foldl (blockStep exprParts) b (before ++ c :: after)))
           ∧ c ∈ keys'.
Proof.
  intros Hs Hc Href. rewrite foldl_app. simpl.
  destruct (foldl_blockStep_slotsFor exprParts keys b before Hs) as (keys1 & Hs1 & _).
  destruct (blockStep_slotsFor exprParts keys1 _ c Hs1) as (keys2 & Hs2 & _ & Hin).
  rewrite foldl_blockStep_pos in Hin. specialize (Hin Hc Href).
  destruct (foldl_blockStep_slotsFor exprParts keys2 _ after Hs2)
    as (keys3 & Hs3 & [k ->]).
  exists (keys2 ++ k). split; [done|]. apply elem_of_app. by left.
Qed.

Lemma slotsFor_exprVals keys s c :
  slotsFor exprParts keys s → c ∈ keys → exprVals s ≠ [].
Proof.
  intros (_ & _ & _ & -> & _) Hc Hnil. apply map_eq_nil in Hnil. subst keys.
  by apply elem_of_nil in Hc.
Qed.

End Shapes.

(** ** Keyframes *)

Section Keyframes.
Context {expr : Type} `{!Precedence expr}.
Variable stylisInst : jsstring → jsstring → jsstring.
Variable autoprefixer : jsstring → jsstring.
Implicit Types (t : TemplateLiteral expr) (out : jsstring).

(** C7. In keyframe mode, once the CSS pipeline has returned the text [out]:
    if any marker was promoted to a named slot ([exprVals] is not empty) the
    compilation fails with 'Did not expect component references in
    keyframes'; a compilation that succeeds has no promoted reference and no
    trailing argument; and a marker met in selector position is always
    promoted, so that it always makes the compilation fail. *)
Theorem keyframes_reject_references t out :
  compileCssString stylisInst autoprefixer [CLASS_MARKER]
    (combined (traverseExtract t)) true = Ok out →
  let exprParts := exprPartsOf (traverseExtract t) in
  let s := (ruleNodesOf exprParts [out]).2 in
  (exprVals s ≠ [] →
     transformTemplate stylisInst autoprefixer t true
     = Err ComponentReferencesInKeyframes)
  ∧ (∀ o, transformTemplate stylisInst autoprefixer t true = Ok o →
       exprVals s = [] ∧ args o = [])
  ∧ (∀ before c after,
       out = before ++ c :: after → isMarker c →
       foldl nextPos CssPosition.None (before ++ [c]) = CssPosition.ElementSelector →
       transformTemplate stylisInst autoprefixer t true
       = Err ComponentReferencesInKeyframes).
Proof.
  intros Hout exprParts s.
  assert (Hrun : transformTemplate stylisInst autoprefixer t true
                 = keyframeShape (ruleNodesOf exprParts [out]).1 s).
  { unfold transformTemplate. rewrite Hout. apply transformProcessed_keyframe. }
  rewrite Hrun. unfold keyframeShape.
  assert (Hfail : exprVals s ≠ [] → (0 <? length (exprVals s))%nat = true).
  { intros Hne. apply Nat.ltb_lt. destruct (exprVals s); [done|simpl; lia]. }
  split; [|split].
  - intros Hne. by rewrite Hfail.
  - intros o. destruct (exprVals s) eqn:Hvals; [|done].
    destruct (ruleNodesOf exprParts [out]).1 as [|arr [|]]; try done.
    cbn [length Nat.ltb Nat.leb]. destruct (addUp arr); [|done]. by intros [= <-].
  - intros before c after -> Hc Hpos. rewrite Hfail; [done|].
    unfold s. rewrite ruleNodesOf_single. cbn [snd]. rewrite ruleTerms_slots.
    rewrite foldl_snoc in Hpos.
    destruct (reference_bound exprParts (mkBlockState [] [] CssPosition.None emptySlots)
                [] before after c) as (keys & Hs & Hin).
    + apply slotsFor_empty.
    + done.
    + simpl. by rewrite Hpos.
    + by eapply slotsFor_exprVals.
Qed.

End Keyframes.

(** A keyframes template with an expression as selector, the pipeline being
    the identity: it is rejected. *)
Lemma keyframes_reject_references_example :
  let t := TemplateExpression [] [("v"%string, js "{opacity:0;}")] in
  transformTemplate (λ _ css, css) (λ css, css) t true
  = Err ComponentReferencesInKeyframes.
Proof.
  intros t.
  refine (proj1 (keyframes_reject_references (λ _ css, css) (λ css, css) t
                   ([231] ++ js "{opacity:0;}") eq_refl) _).
  vm_compute. discriminate.
Defined.

Section KeyframesCount.
Context {expr : Type} `{!Precedence expr}.
Implicit Types (exprParts : list expr) (out : jsstring).

Lemma keyframeShape_single exprParts out :
  out ≠ [] →
  transformProcessed exprParts true out =
    if (0 <? length (exprVals (ruleTerms exprParts emptySlots out).2))%nat
    then Err ComponentReferencesInKeyframes
    else sum ← addUp (ruleTerms exprParts emptySlots out).1; Ok (mkOutput sum []).
Proof.
  intros Hout. rewrite transformProcessed_keyframe, ruleNodesOf_single.
  by destruct (decide (out = [])).
Qed.

(** C10. In keyframe mode, after the blocks without terms are discarded,
    the compilation fails with 'Unexpected keyframes count' unless exactly
    one block remains, which happens exactly when the processed text is
    empty; a compilation that succeeds returns the sum of the terms of its
    one block; and a keyframes template whose processed body is empty fails
    with that error. *)
Theorem keyframes_count exprParts out :
  (transformProcessed exprParts true out = Err UnexpectedKeyframesCount ↔ out = [])
  ∧ (length (ruleNodesOf exprParts [out]).1 ≠ 1%nat ↔ out = [])
  ∧ (∀ o, transformProcessed exprParts true out = Ok o →
       ∃ terms sum, (ruleNodesOf exprParts [out]).1 = [terms] ∧ terms ≠ []
                    ∧ addUp terms = Ok sum ∧ o = mkOutput sum [])
  ∧ (∀ stylisInst autoprefixer (t : TemplateLiteral expr),
       compileCssString stylisInst autoprefixer [CLASS_MARKER]
         (combined (traverseExtract t)) true = Ok [] →
       transformTemplate stylisInst autoprefixer t true = Err UnexpectedKeyframesCount).
Proof.
  assert (Hempty : ∀ ep : list expr,
            transformProcessed ep true [] = Err UnexpectedKeyframesCount) by done.
  split; [|split; [|split]].
  - split; [|by intros ->].
    destruct (decide (out = [])) as [|Hout]; [done|].
    rewrite keyframeShape_single by done. destruct (_ <? _)%nat; [done|].
    destruct (addUp _) as [sum|e] eqn:Hsum; [done|].
    by apply addUp_Err in Hsum as [-> _].
  - rewrite ruleNodesOf_single. by destruct (decide (out = [])).
  - intros o. destruct (decide (out = [])) as [->|Hout]; [by rewrite Hempty|].
    rewrite keyframeShape_single, ruleNodesOf_single by done.
    destruct (decide (out = [])); [done|]. destruct (_ <? _)%nat; [done|].
    destruct (addUp _) as [sum|] eqn:Hsum; [|done].
    intros [= <-]. eexists _, sum. split; [done|]. split; [|done].
    by apply (not_iff_compat (ruleTerms_nil exprParts emptySlots out)).
  - intros stylisInst autoprefixer t Hout. unfold transformTemplate.
    rewrite Hout. apply Hempty.
Qed.

End KeyframesCount.

(** A keyframes template without text, the pipeline being the identity. *)
Lemma keyframes_count_example :
  transformTemplate (λ _ css, css) (λ css, css)
    (NoSubstitutionTemplateLiteral (expr := string) []) true
  = Err UnexpectedKeyframesCount.
Proof.
  exact (proj2 (proj2 (proj2 (keyframes_count (expr := string) [] [])))
           (λ _ css, css) (λ css, css) (NoSubstitutionTemplateLiteral []) eq_refl).
Defined.

(** ** Blocks without terms *)

Section EmptyBlocks.
Context {expr : Type} `{!Precedence expr}.
Variable exprParts : list expr.

Lemma closedBlock_nonempty (r : jsstring) : closedBlock r → r ≠ [].
Proof. intros (body & -> & _) Hnil. by destruct body. Qed.

Lemma ruleNodesOf_filter (rules : list jsstring) :
  ruleNodesOf exprParts rules
  = mapRules exprParts emptySlots (filter (λ r, r ≠ []) rules).
Proof.
  rewrite <- mapRules_filter. unfold ruleNodesOf.
  by destruct (mapRules exprParts emptySlots rules).
Qed.

Lemma splitRules_nonempty (out : jsstring) (rules : list jsstring) :
  splitRules out false = Ok rules → Forall (λ r, r ≠ []) rules.
Proof.
  intros Hsplit. destruct (splitRules_inv out rules Hsplit) as (_ & _ & Hclosed).
  eapply Forall_impl; [exact Hclosed|]. apply closedBlock_nonempty.
Qed.

(** The splitter returns no empty block: nothing is filtered out. *)
Lemma ruleNodesOf_split (out : jsstring) (rules : list jsstring) :
  splitRules out false = Ok rules →
  ruleNodesOf exprParts rules = mapRules exprParts emptySlots rules.
Proof.
  intros Hsplit. rewrite ruleNodesOf_filter. f_equal.
  pose proof (splitRules_nonempty out rules Hsplit) as Hne. clear Hsplit.
  induction Hne as [|r rs Hr _ IH]; [done|].
  by rewrite filter_cons_True, IH.
Qed.

End EmptyBlocks.

(** ** The static conditions *)

Lemma lastIndexOfFrom_single (c : Z) (s : jsstring) (i : Z) :
  0 ≤ i →
  (lastIndexOfFrom [c] s i = -1 ↔ c ∉ s)
  ∧ (lastIndexOfFrom [c] s i = -1 ∨ i ≤ lastIndexOfFrom [c] s i).
Proof.
  revert i. induction s as [|x s IH]; intros i Hi.
  - simpl. split; [|by left]. split; [intros _; apply not_elem_of_nil|done].
  - cbn [lastIndexOfFrom]. destruct (IH (i + 1)) as [IH1 IH2]; [lia|].
    rewrite not_elem_of_cons.
    destruct (Z.ltb_spec (lastIndexOfFrom [c] s (i + 1)) 0) as [Hlt|Hge].
    + assert (Hnone : lastIndexOfFrom [c] s (i + 1) = -1) by lia.
      simpl. destruct (Z.eqb_spec c x) as [->|Hne]; simpl.
      * split; [|by right]. split; [lia|]. by intros [? _].
      * split; [|by left]. split; [|done]. intros _. split; [done|]. by apply IH1.
    + split; [|right; lia]. split; [lia|]. intros [_ Hs]. apply IH1 in Hs. lia.
Qed.

Lemma lastIndexOf_first (c : Z) (rest : jsstring) :
  lastIndexOf (c :: rest) [c] = 0 ↔ c ∉ rest.
Proof.
  unfold lastIndexOf. cbn [lastIndexOfFrom].
  destruct (lastIndexOfFrom_single c rest (0 + 1)) as [H1 H2]; [lia|].
  destruct (Z.ltb_spec (lastIndexOfFrom [c] rest (0 + 1)) 0) as [Hlt|Hge].
  - simpl. rewrite Z.eqb_refl. simpl. split; [intros _; apply H1; lia|done].
  - split; [lia|]. intros Hc. apply H1 in Hc. lia.
Qed.

Lemma classFirstOnly_spec (r : jsstring) :
  bool_decide (charAt r 0 = Some CLASS_MARKER) && (lastIndexOf r [CLASS_MARKER] =? 0)
  = true ↔ classFirstOnly r.
Proof.
  rewrite andb_true_iff, bool_decide_eq_true, Z.eqb_eq. unfold classFirstOnly. split.
  - intros [Hfirst Hlast]. destruct r as [|c rest]; [done|].
    injection Hfirst as ->. exists rest. split; [done|]. by apply lastIndexOf_first.
  - intros (rest & -> & Hrest). split; [done|]. by apply lastIndexOf_first.
Qed.

Lemma simpleScan_allSimple (rules : list jsstring) (isSuperSimple : bool) :
  (simpleScan rules isSuperSimple).1 = true ↔ Forall classFirstOnly rules.
Proof.
  revert isSuperSimple. induction rules as [|r rules IH]; intros isSuperSimple.
  - split; [constructor|done].
  - cbn [simpleScan]. rewrite Forall_cons, <- classFirstOnly_spec.
    destruct (bool_decide (charAt r 0 = Some CLASS_MARKER)
              && (lastIndexOf r [CLASS_MARKER] =? 0)).
    + rewrite IH. tauto.
    + simpl. split; [done|]. by intros [? _].
Qed.

(** ** The terms of a block are leaves *)

Section Leaves.
Context {expr : Type} `{!Precedence expr}.
Variable exprParts : list expr.
Implicit Types (b : BlockState expr) (s : Slots expr) (keys : list Z) (c : Z).
Implicit Types (rn arr : list (Node expr)).

Lemma exprFromChar_leaf c : isLeaf (exprFromChar exprParts c).
Proof.
  unfold exprFromChar. destruct (_ <? 0); [done|].
  by destruct (exprParts !! _).
Qed.

Lemma addAccum_leaves b : Forall isLeaf (addTerms b) → Forall isLeaf (addTerms (addAccum b)).
Proof.
  intros H. unfold addAccum. destruct (accum b); [done|]. simpl.
  apply Forall_app. split; [done|]. by apply Forall_singleton.
Qed.

Lemma addMarker_leaves keys b c :
  slotsFor exprParts keys (slots b) →
  Forall isLeaf (addTerms b) →
  Forall isLeaf (addTerms (addMarker exprParts c b)).
Proof.
  intros (_ & _ & _ & _ & Hmap) Hterms.
  assert (Harg : ∀ arg, argsByCode (slots b) !! c = Some arg → isLeaf arg).
  { intros arg Harg. by apply Hmap in Harg as (k & _ & ->). }
  assert (Hadd : ∀ b' x, Forall isLeaf (addTerms b') → isLeaf x →
                   Forall isLeaf (addTerms b' ++ [x])).
  { intros b' x Hb Hx. apply Forall_app. split; [done|]. by apply Forall_singleton. }
  unfold addMarker.
  destruct (CssPosition.eqb (pos b) CssPosition.ElementSelector); simpl;
    rewrite !addAccum_slots; simpl;
    destruct (argsByCode (slots b) !! c) as [arg|]; simpl.
  - apply Hadd; [by apply addAccum_leaves|by apply Harg].
  - apply Hadd; [by apply addAccum_leaves|done].
  - apply Hadd; [by apply addAccum_leaves|by apply Harg].
  - destruct (_ && _); simpl; (apply Hadd; [by apply addAccum_leaves|]);
      [done|apply exprFromChar_leaf].
Qed.

Lemma blockStep_leaves keys b c :
  slotsFor exprParts keys (slots b) →
  Forall isLeaf (addTerms b) →
  Forall isLeaf (addTerms (blockStep exprParts b c)).
Proof.
  intros Hs Hterms. unfold blockStep. destruct (c =? CLASS_MARKER).
  - simpl. apply Forall_app. split; [|by apply Forall_singleton].
    by apply addAccum_leaves.
  - destruct (START_CODE <=? c); [|done]. by eapply addMarker_leaves.
Qed.

Lemma foldl_blockStep_leaves keys b (r : jsstring) :
  slotsFor exprParts keys (slots b) →
  Forall isLeaf (addTerms b) →
  Forall isLeaf (addTerms (foldl (blockStep exprParts) b r)).
Proof.
  revert keys b. induction r as [|c r IH]; intros keys b Hs Hterms; [done|].
  simpl. destruct (blockStep_slotsFor exprParts keys b c Hs) as (keys' & Hs' & _).
  apply (IH keys'); [done|]. by eapply blockStep_leaves.
Qed.

Lemma ruleTerms_leaves keys s (r : jsstring) :
  slotsFor exprParts keys s → Forall isLeaf (ruleTerms exprParts s r).1.
Proof.
  intros Hs. unfold ruleTerms. cbn [fst]. apply addAccum_leaves.
  by apply (foldl_blockStep_leaves keys).
Qed.

Lemma mapRules_leaves keys s (rules : list jsstring) :
  slotsFor exprParts keys s → Forall (Forall isLeaf) (mapRules exprParts s rules).1.
Proof.
  revert keys s. induction rules as [|r rules IH]; intros keys s Hs; [constructor|].
  rewrite mapRules_cons. cbn [fst]. constructor; [by eapply ruleTerms_leaves|].
  destruct (ruleTerms_slotsFor exprParts keys s r Hs) as (keys' & Hs' & _).
  by apply (IH keys').
Qed.

Lemma ruleNodesOf_leaves (rules : list jsstring) :
  Forall (Forall isLeaf) (ruleNodesOf exprParts rules).1.
Proof.
  pose proof (mapRules_leaves [] emptySlots rules (slotsFor_empty exprParts)) as H.
  unfold ruleNodesOf. destruct (mapRules exprParts emptySlots rules) as [nodes s].
  cbn [fst] in *. apply Forall_forall. intros arr Harr.
  apply list_elem_of_filter in Harr as [_ Harr].
  by eapply Forall_forall in H.
Qed.

Lemma setText_leaf (n : Node expr) (text : jsstring) : isLeaf n → isLeaf (setText n text).
Proof. by destruct n. Qed.

Lemma stripOpen_leaves rn rn' :
  stripOpen rn = Ok rn' → Forall isLeaf rn → Forall isLeaf rn'.
Proof.
  destruct rn as [|first rest]; [done|]. unfold stripOpen, mbind, Result_bind.
  destruct (nodeText first) as [text|]; [|done].
  destruct (bool_decide _); [|done]. intros [= <-] Hrn.
  apply Forall_cons in Hrn as [Hfirst Hrest]. constructor; [|done].
  by apply setText_leaf.
Qed.

Lemma stripClose_leaves rn rn' :
  stripClose rn = Ok rn' → Forall isLeaf rn → Forall isLeaf rn'.
Proof.
  unfold stripClose, mbind, Result_bind. destruct (last rn) as [l|] eqn:Hlast; [|done].
  apply last_Some in Hlast as [rn0 ->]. rewrite removelast_last.
  destruct (nodeText l) as [text|]; [|done].
  destruct (bool_decide _); [|done]. intros Hok Hrn.
  apply Forall_app in Hrn as [Hrn0 Hl]. rewrite Forall_singleton in Hl.
  destruct (_ =? 0); injection Hok as <-; [done|].
  apply Forall_app. split; [done|]. apply Forall_singleton. by apply setText_leaf.
Qed.

Lemma stripRule_leaves (collapseSingle : bool) rn rn' :
  stripRule collapseSingle rn = Ok rn' → Forall isLeaf rn → Forall isLeaf rn'.
Proof.
  destruct rn as [|first rn]; [done|]. unfold stripRule, mbind, Result_bind.
  destruct (isClassNameArg first); [|done]. intros Hok Hrn.
  apply Forall_cons in Hrn as [_ Hrn]. destruct collapseSingle.
  - destruct (stripOpen rn) as [rn1|] eqn:Hopen; [|done].
    eapply stripClose_leaves; [done|]. by eapply stripOpen_leaves.
  - by injection Hok as <-.
Qed.

Lemma mapM_stripRule_leaves (collapseSingle : bool) (nodes stripped : list (list (Node expr))) :
  mapM (stripRule collapseSingle) nodes = Ok stripped →
  Forall (Forall isLeaf) nodes → Forall (Forall isLeaf) stripped.
Proof.
  revert stripped. induction nodes as [|rn nodes IH]; intros stripped.
  - intros [= <-] _. constructor.
  - cbn [mapM]. unfold mbind, Result_bind, mret, Result_ret.
    destruct (stripRule collapseSingle rn) as [rn'|] eqn:Hrn; [|done].
    destruct (mapM (stripRule collapseSingle) nodes) as [rest|]; [|done].
    intros [= <-] Hall. apply Forall_cons in Hall as [Hrn' Hnodes].
    constructor; [by eapply stripRule_leaves|by apply IH].
Qed.

Lemma addUp_not_arrow arr sum :
  Forall isLeaf arr → addUp arr = Ok sum → ¬ isArrowFunction sum.
Proof.
  destruct arr as [|x [|y arr]]; cbn [addUp addLoop].
  - by intros _ [= <-] (? & ? & ?).
  - intros Hx [= <-] (? & ? & ->). by rewrite Forall_singleton in Hx.
  - intros _ Hsum.
    destruct (createAdd x y) as [sum0|] eqn:Hadd; [|done].
    cbn [mbind Result_bind] in Hsum.
    apply createAdd_inv in Hadd as (_ & _ & x0 & y0 & -> & _).
    revert x0 y0 Hsum. induction arr as [|z arr IH]; intros x0 y0 Hsum.
    + injection Hsum as <-. by intros (? & ? & ?).
    + cbn [addLoop] in Hsum.
      destruct (createAdd (Add x0 y0) z) as [sum1|] eqn:Hadd; [|done].
      cbn [mbind Result_bind] in Hsum.
      apply createAdd_inv in Hadd as (_ & _ & x1 & y1 & -> & _).
      by apply (IH x1 y1).
Qed.

Lemma sums_not_arrow (nodes : list (list (Node expr))) (added : list (Node expr)) :
  Forall (Forall isLeaf) nodes → mapM addUp nodes = Ok added →
  Forall (λ sum, ¬ isArrowFunction sum) added.
Proof.
  intros Hnodes. revert added.
  induction Hnodes as [|arr nodes Harr _ IH]; intros added.
  - intros [= <-]. constructor.
  - cbn [mapM]. destruct (addUp arr) as [sum|] eqn:Hsum; [|done].
    cbn [mbind Result_bind].
    destruct (mapM addUp nodes) as [rest|]; [|done]. intros [= <-].
    constructor; [by eapply addUp_not_arrow|by apply IH].
Qed.

(** The static shapes are not arrow functions and have no arguments. *)
Lemma staticShape_not_arrow (nodes : list (list (Node expr))) (isSuperSimple : bool)
    (o : Output expr) :
  Forall (Forall isLeaf) nodes →
  staticShape nodes isSuperSimple = Ok o →
  ¬ isArrowFunction (tmpl o) ∧ args o = [].
Proof.
  intros Hnodes. unfold staticShape.
  destruct (mapM _ nodes) as [stripped|] eqn:Hstrip; [|done].
  cbn [mbind Result_bind].
  pose proof (mapM_stripRule_leaves _ _ _ Hstrip Hnodes) as Hleaves.
  destruct (mapM addUp stripped) as [added|] eqn:Hadded; [|done].
  cbn [mbind Result_bind].
  pose proof (sums_not_arrow stripped added Hleaves Hadded) as Hsums.
  destruct (_ && _).
  - intros [= <-]. split; [|done]. cbn [tmpl].
    destruct Hsums; [by intros (? & ? & ?)|done].
  - unfold createArrayLiteral.
    destruct (mapM parenthesizeExpressionForList added); [|done].
    intros [= <-]. split; [|done]. by intros (? & ? & ?).
Qed.

End Leaves.

(** ** The static path does not fail *)

Section StaticPath.
Context {expr : Type} `{!Precedence expr}.
Variable exprParts : list expr.
Implicit Types (b : BlockState expr) (s : Slots expr) (c : Z) (r : jsstring).
Implicit Types (rn terms : list (Node expr)).

Lemma addAccum_flushed b : addTerms (addAccum b) = addTerms b ++ flushed (accum b).
Proof. unfold addAccum. destruct (accum b); simpl; [by rewrite app_nil_r|done]. Qed.

Lemma addMarker_terms c b :
  ∃ acc t, accum b `prefix_of` acc
           ∧ addTerms (addMarker exprParts c b) = addTerms b ++ flushed acc ++ [t]
           ∧ accum (addMarker exprParts c b) = [].
Proof.
  unfold addMarker.
  destruct (CssPosition.eqb (pos b) CssPosition.ElementSelector);
    [exists (accum b ++ [46])|exists (accum b)];
    (destruct (argsByCode (slots (addAccum _)) !! c) as [arg|];
     [exists arg|destruct (_ || _); eexists]);
    (split; [try done; by apply prefix_app_r|]);
    simpl; rewrite ?addAccum_flushed, ?addAccum_accum; simpl;
    by rewrite <- ?app_assoc.
Qed.

(** One character either joins the accumulated text, or flushes it and adds
    a term. *)
Lemma blockStep_terms b c :
  (addTerms (blockStep exprParts b c) = addTerms b
   ∧ accum (blockStep exprParts b c) = accum b ++ [c])
  ∨ (∃ acc t, accum b `prefix_of` acc
              ∧ addTerms (blockStep exprParts b c) = addTerms b ++ flushed acc ++ [t]
              ∧ accum (blockStep exprParts b c) = []).
Proof.
  unfold blockStep. destruct (c =? CLASS_MARKER).
  - right. exists (accum b), classNameArg. split; [done|]. simpl.
    rewrite addAccum_flushed, addAccum_accum. simpl. by rewrite <- app_assoc.
  - destruct (START_CODE <=? c); [right|by left].
    apply (addMarker_terms c (atPos b (nextPos (pos b) c))).
Qed.

Lemma blockStep_prefix b c : addTerms b `prefix_of` addTerms (blockStep exprParts b c).
Proof.
  destruct (blockStep_terms b c) as [[-> _]|(acc & t & _ & -> & _)]; [done|].
  by apply prefix_app_r.
Qed.

Lemma foldl_blockStep_prefix b r :
  addTerms b `prefix_of` addTerms (foldl (blockStep exprParts) b r).
Proof.
  revert b. induction r as [|c r IH]; intros b; [done|]. simpl.
  etrans; [apply blockStep_prefix|apply IH].
Qed.

(** A block that starts with the class marker has the class name as its
    first term. *)
Lemma ruleTerms_first s (rest : jsstring) :
  ∃ more, (ruleTerms exprParts s (CLASS_MARKER :: rest)).1 = classNameArg :: more.
Proof.
  unfold ruleTerms. cbn [fst foldl].
  set (b := blockStep exprParts _ CLASS_MARKER).
  assert (Hb : addTerms b = [classNameArg]) by done.
  destruct (foldl_blockStep_prefix b rest) as [k Hk]. rewrite Hb in Hk.
  rewrite addAccum_flushed, Hk. by eexists.
Qed.

Lemma blockStep_opening b c : opening b → opening (blockStep exprParts b c).
Proof.
  intros Hopen.
  destruct (blockStep_terms b c) as [[Hterms Haccum]|(acc & t & Hacc & Hterms & _)];
    unfold opening; rewrite Hterms.
  - destruct Hopen as [[Hb [text Htext]]|Hb]; [left|by right].
    split; [done|]. exists (text ++ [c]). by rewrite Haccum, Htext.
  - right. destruct Hopen as [[Hb [text Htext]]|(text & more & Hb)]; rewrite Hb.
    + rewrite Htext in Hacc. destruct Hacc as [k ->]. simpl. by eexists _, _.
    + simpl. by eexists _, _.
Qed.

Lemma foldl_blockStep_opening b r :
  opening b → opening (foldl (blockStep exprParts) b r).
Proof.
  revert b. induction r as [|c r IH]; intros b Hb; [done|].
  simpl. by apply IH, blockStep_opening.
Qed.

(** A block that starts with the class marker and ['{']. *)
Lemma ruleTerms_opens s (rest : jsstring) :
  opensWithBrace (ruleTerms exprParts s (CLASS_MARKER :: 123 :: rest)).1.
Proof.
  unfold ruleTerms. cbn [fst foldl].
  set (b := blockStep exprParts (blockStep exprParts _ CLASS_MARKER) 123).
  assert (Hb : opening b) by (left; split; [done|by exists []]).
  apply (foldl_blockStep_opening b rest) in Hb.
  rewrite addAccum_flushed.
  destruct Hb as [[-> [text ->]]|(text & more & ->)]; simpl; by eexists _, _.
Qed.

(** A block that ends with ['}']. *)
Lemma ruleTerms_closes s r : closesWithBrace (ruleTerms exprParts s (r ++ [125])).1.
Proof.
  unfold ruleTerms. cbn [fst]. rewrite foldl_snoc.
  set (b := foldl _ _ r). rewrite addAccum_flushed.
  assert (Haccum : accum (blockStep exprParts b 125) = accum b ++ [125]) by done.
  rewrite Haccum. exists (accum b).
  destruct (accum b ++ [125]) eqn:E; [by destruct (accum b)|].
  simpl. by rewrite last_snoc.
Qed.

Lemma stripRule_plain rn : stripRule false (classNameArg :: rn) = Ok rn.
Proof. done. Qed.

Lemma slice_tail (c : Z) (text : jsstring) : slice (c :: text) 1 (jslength (c :: text)) = text.
Proof.
  pose proof (slice_middle [c] text []) as H. rewrite app_nil_r in H.
  rewrite <- H at 3. f_equal. unfold jslength. simpl. lia.
Qed.

Lemma slice_init (text : jsstring) (c : Z) :
  slice (text ++ [c]) 0 (jslength (text ++ [c]) - 1) = text.
Proof.
  pose proof (slice_middle [] text [c]) as H. simpl in H.
  rewrite <- H at 3. f_equal. rewrite jslength_app. unfold jslength. simpl. lia.
Qed.

Lemma stripClose_literal rn (text : jsstring) :
  last rn = Some (StringLiteral (text ++ [125])) → ∃ rn', stripClose rn = Ok rn'.
Proof.
  intros Hlast. unfold stripClose. rewrite Hlast. cbn [nodeText mbind Result_bind].
  rewrite charAt_last, last_snoc, bool_decide_eq_true_2 by done.
  rewrite slice_init. destruct (jslength text =? 0); by eexists.
Qed.

Lemma stripOpen_literal rn (text : jsstring) :
  stripOpen (StringLiteral (123 :: text) :: rn) = Ok (StringLiteral text :: rn).
Proof.
  unfold stripOpen. cbn [nodeText mbind Result_bind].
  rewrite bool_decide_eq_true_2 by done. by rewrite slice_tail.
Qed.

(** The collapse of a single block that opens with ['{'] and ends with
    ['}'] goes through. *)
Lemma stripRule_collapse terms :
  opensWithBrace terms → closesWithBrace terms → ∃ rn', stripRule true terms = Ok rn'.
Proof.
  intros (text & more & ->) [text' Hlast].
  cbn [stripRule]. change (isClassNameArg classNameArg) with true. cbv iota.
  rewrite stripOpen_literal. cbn [mbind Result_bind].
  destruct more as [|n more].
  - simpl in Hlast. injection Hlast as Htext.
    destruct text' as [|c text']; [done|]. injection Htext as _ ->.
    by apply (stripClose_literal _ text').
  - apply (stripClose_literal _ text'). by rewrite <- Hlast.
Qed.

Lemma mapRules_Forall (P : jsstring → Prop) (Q : list (Node expr) → Prop)
    s (rules : list jsstring) :
  (∀ s r, P r → Q (ruleTerms exprParts s r).1) →
  Forall P rules → Forall Q (mapRules exprParts s rules).1.
Proof.
  intros HPQ Hrules. revert s.
  induction Hrules as [|r rules Hr _ IH]; intros s; [constructor|].
  rewrite mapRules_cons. constructor; [by apply HPQ|apply IH].
Qed.

Lemma mapRules_length s (rules : list jsstring) :
  length (mapRules exprParts s rules).1 = length rules.
Proof.
  revert s. induction rules as [|r rules IH]; intros s; [done|].
  rewrite mapRules_cons. simpl. by rewrite IH.
Qed.

Lemma mapM_total {A B} (f : A → Result B) (l : list A) :
  Forall (λ a, ∃ y, f a = Ok y) l → ∃ l', mapM f l = Ok l'.
Proof.
  induction 1 as [|a l [y Hy] _ [l' Hl']]; [by exists []|].
  exists (y :: l'). cbn [mapM]. rewrite Hy. cbn [mbind Result_bind]. by rewrite Hl'.
Qed.

Lemma simpleScan_superSimple (rules : list jsstring) (isSuperSimple : bool) :
  (simpleScan rules isSuperSimple).1 = true →
  (simpleScan rules isSuperSimple).2 = true →
  isSuperSimple = true ∧ Forall (λ r, charAt r 1 = Some 123) rules.
Proof.
  revert isSuperSimple. induction rules as [|r rules IH]; intros isSuperSimple.
  - simpl. by intros _ ->.
  - cbn [simpleScan]. destruct (_ && _); [|done]. intros H1 H2.
    destruct (IH _ H1 H2) as [Hb Hrules].
    destruct (bool_decide (charAt r 1 = Some 123)) eqn:E; [|done].
    apply bool_decide_eq_true in E. split; [done|]. by constructor.
Qed.

(** On the blocks of the splitter, when each of them has the class marker
    first and only there, the checks of the static path pass: the class name
    and the braces are removed from the terms without any failure. *)
Lemma stripRules_total (out : jsstring) (rules : list jsstring) :
  splitRules out false = Ok rules →
  Forall classFirstOnly rules →
  ∃ stripped,
    mapM (stripRule ((length (ruleNodesOf exprParts rules).1 =? 1)%nat
                     && (simpleScan rules true).2))
         (ruleNodesOf exprParts rules).1 = Ok stripped.
Proof.
  intros Hsplit Hall.
  rewrite (ruleNodesOf_split exprParts out rules Hsplit).
  destruct (splitRules_inv out rules Hsplit) as (_ & _ & Hclosed).
  pose proof (mapRules_length emptySlots rules) as Hlen.
  set (collapseSingle := (_ =? 1)%nat && _).
  apply mapM_total.
  destruct collapseSingle eqn:Hcollapse.
  - apply andb_true_iff in Hcollapse as [Hone Hsuper]. apply Nat.eqb_eq in Hone.
    rewrite Hlen in Hone. destruct rules as [|r [|]]; try done.
    apply (simpleScan_superSimple [r] true) in Hsuper as [_ Hsuper];
      [|by apply simpleScan_allSimple].
    rewrite Forall_singleton in Hsuper. rewrite Forall_singleton in Hall.
    rewrite Forall_singleton in Hclosed.
    destruct Hall as (rest & -> & _). destruct rest as [|c rest]; [done|].
    injection Hsuper as ->. rewrite mapRules_cons. cbn [fst mapRules].
    apply Forall_singleton. apply stripRule_collapse; [apply ruleTerms_opens|].
    destruct Hclosed as (body & Hbody & _). rewrite Hbody. apply ruleTerms_closes.
  - apply (mapRules_Forall classFirstOnly); [|done].
    intros s r (rest & -> & _). destruct (ruleTerms_first s rest) as [more ->].
    exists more. apply stripRule_plain.
Qed.

(** Without the collapse, what is left of a closed block that starts with
    the class marker is not empty. *)
Lemma stripRule_plain_nonempty s r rn :
  classFirstOnly r → closedBlock r →
  stripRule false (ruleTerms exprParts s r).1 = Ok rn → rn ≠ [].
Proof.
  intros (rest & -> & _) (body & Hbody & _).
  destruct (ruleTerms_first s rest) as [more Hmore].
  pose proof (ruleTerms_closes s body) as [text Hlast]. rewrite <- Hbody in Hlast.
  rewrite Hmore in Hlast |- *. rewrite stripRule_plain. intros [= <-] ->.
  discriminate.
Qed.

End StaticPath.

(** ** What holds of every term of a block *)

Section TermsForall.
Context {expr : Type}.
Variable exprParts : list expr.
Variable P : Node expr → Prop.
Hypothesis P_literal : ∀ text, P (StringLiteral text).
Hypothesis P_identifier : ∀ text, P (Identifier text).
Implicit Types (b : BlockState expr) (s : Slots expr) (keys : list Z) (c : Z).
Implicit Types (r : jsstring) (rules : list jsstring).

Lemma addAccum_Forall b : Forall P (addTerms b) → Forall P (addTerms (addAccum b)).
Proof.
  intros H. unfold addAccum. destruct (accum b); [done|]. simpl.
  apply Forall_app. split; [done|]. by apply Forall_singleton.
Qed.

Lemma addMarker_Forall keys b c :
  slotsFor exprParts keys (slots b) →
  P (exprFromChar exprParts c) →
  Forall P (addTerms b) →
  Forall P (addTerms (addMarker exprParts c b)).
Proof.
  intros (_ & _ & _ & _ & Hmap) Hc Hterms.
  assert (Harg : ∀ arg, argsByCode (slots b) !! c = Some arg → P arg).
  { intros arg Harg. apply Hmap in Harg as (k & _ & ->). apply P_identifier. }
  assert (Hadd : ∀ b' x, Forall P (addTerms b') → P x → Forall P (addTerms b' ++ [x])).
  { intros b' x Hb Hx. apply Forall_app. split; [done|]. by apply Forall_singleton. }
  unfold addMarker.
  destruct (CssPosition.eqb (pos b) CssPosition.ElementSelector); simpl;
    rewrite !addAccum_slots; simpl;
    destruct (argsByCode (slots b) !! c) as [arg|]; simpl.
  - apply Hadd; [by apply addAccum_Forall|by apply Harg].
  - apply Hadd; [by apply addAccum_Forall|apply P_identifier].
  - apply Hadd; [by apply addAccum_Forall|by apply Harg].
  - destruct (_ && _); simpl; (apply Hadd; [by apply addAccum_Forall|]);
      [apply P_identifier|done].
Qed.

Lemma blockStep_Forall keys b c :
  slotsFor exprParts keys (slots b) →
  (isMarker c → P (exprFromChar exprParts c)) →
  Forall P (addTerms b) →
  Forall P (addTerms (blockStep exprParts b c)).
Proof.
  intros Hs Hc Hterms. unfold blockStep. destruct (Z.eqb_spec c CLASS_MARKER).
  - simpl. apply Forall_app. split; [|apply Forall_singleton, P_identifier].
    by apply addAccum_Forall.
  - destruct (Z.leb_spec START_CODE c); [|done].
    eapply addMarker_Forall; [done|by apply Hc|done].
Qed.

Lemma foldl_blockStep_Forall keys b r :
  slotsFor exprParts keys (slots b) →
  (∀ c, c ∈ r → isMarker c → P (exprFromChar exprParts c)) →
  Forall P (addTerms b) →
  Forall P (addTerms (foldl (blockStep exprParts) b r)).
Proof.
  revert keys b. induction r as [|c r IH]; intros keys b Hs Hr Hterms; [done|].
  simpl. destruct (blockStep_slotsFor exprParts keys b c Hs) as (keys' & Hs' & _).
  apply (IH keys'); [done| |].
  - intros c' Hc'. apply Hr. by right.
  - eapply blockStep_Forall; [done| |done]. apply Hr. by left.
Qed.

Lemma ruleTerms_Forall keys s r :
  slotsFor exprParts keys s →
  (∀ c, c ∈ r → isMarker c → P (exprFromChar exprParts c)) →
  Forall P (ruleTerms exprParts s r).1.
Proof.
  intros Hs Hr. unfold ruleTerms. cbn [fst]. apply addAccum_Forall.
  by apply (foldl_blockStep_Forall keys).
Qed.

Lemma mapRules_terms_Forall keys s rules :
  slotsFor exprParts keys s →
  (∀ c, c ∈ concat rules → isMarker c → P (exprFromChar exprParts c)) →
  Forall (Forall P) (mapRules exprParts s rules).1.
Proof.
  revert keys s. induction rules as [|r rules IH]; intros keys s Hs Hrules;
    [constructor|].
  rewrite mapRules_cons. cbn [fst]. constructor.
  - eapply ruleTerms_Forall; [done|]. intros c Hc. apply Hrules. simpl.
    apply elem_of_app. by left.
  - destruct (ruleTerms_slotsFor exprParts keys s r Hs) as (keys' & Hs' & _).
    apply (IH keys'); [done|]. intros c Hc. apply Hrules. simpl.
    apply elem_of_app. by right.
Qed.

Lemma ruleNodesOf_terms_Forall rules :
  (∀ c, c ∈ concat rules → isMarker c → P (exprFromChar exprParts c)) →
  Forall (Forall P) (ruleNodesOf exprParts rules).1.
Proof.
  intros Hrules.
  pose proof (mapRules_terms_Forall [] emptySlots rules
                (slotsFor_empty exprParts) Hrules) as H.
  unfold ruleNodesOf. destruct (mapRules exprParts emptySlots rules) as [nodes s].
  cbn [fst] in *. apply Forall_forall. intros arr Harr.
  apply list_elem_of_filter in Harr as [_ Harr].
  by eapply Forall_forall in H.
Qed.

(** The static path keeps what holds of every term, when it holds whatever
    the text of a term is. *)
Hypothesis P_setText : ∀ n text, P n → P (setText n text).

Lemma stripRule_Forall (collapseSingle : bool) (rn rn' : list (Node expr)) :
  stripRule collapseSingle rn = Ok rn' → Forall P rn → Forall P rn'.
Proof.
  destruct rn as [|first rn]; [done|]. unfold stripRule, mbind, Result_bind.
  destruct (isClassNameArg first); [|done]. intros Hok Hrn.
  apply Forall_cons in Hrn as [_ Hrn]. destruct collapseSingle.
  - destruct (stripOpen rn) as [rn1|] eqn:Hopen; [|done].
    assert (Hrn1 : Forall P rn1).
    { destruct rn as [|x rest]; [done|]. unfold stripOpen, mbind, Result_bind in Hopen.
      destruct (nodeText x) as [text|]; [|done].
      destruct (bool_decide _); [|done]. injection Hopen as <-.
      apply Forall_cons in Hrn as [Hx Hrest]. constructor; [by apply P_setText|done]. }
    clear Hopen Hrn. unfold stripClose, mbind, Result_bind in Hok.
    destruct (last rn1) as [l|] eqn:Hlast; [|done].
    apply last_Some in Hlast as [rn0 ->]. rewrite removelast_last in Hok.
    destruct (nodeText l) as [text|]; [|done].
    destruct (bool_decide _); [|done].
    apply Forall_app in Hrn1 as [Hrn0 Hl]. rewrite Forall_singleton in Hl.
    destruct (_ =? 0); injection Hok as <-; [done|].
    apply Forall_app. split; [done|]. apply Forall_singleton. by apply P_setText.
  - by injection Hok as <-.
Qed.

End TermsForall.

(** ** The functional shape *)

Section Functional.
Context {expr : Type} `{!Precedence expr}.
Variable exprParts : list expr.
Implicit Types (out : jsstring) (rules : list jsstring) (e : Error).
Implicit Types (nodes : list (list (Node expr))) (s : Slots expr).

(** When every marker of the text is the marker of an expression of the
    template, no term is [undefined]. *)
Lemma decodable_defined rules :
  decodable exprParts (concat rules) →
  Forall (λ terms, Undefined ∉ terms) (ruleNodesOf exprParts rules).1.
Proof.
  intros Hdec.
  assert (Hall : Forall (Forall (λ n, n ≠ Undefined)) (ruleNodesOf exprParts rules).1).
  { apply ruleNodesOf_terms_Forall; [done..|]. intros c Hc Hm.
    destruct (Hdec c Hc Hm) as [x ->]. done. }
  eapply Forall_impl; [exact Hall|]. intros terms Hterms Hin.
  by apply (proj1 (Forall_forall _ _) Hterms) in Hin.
Qed.

Lemma ruleNodesOf_nonempty rules :
  Forall (λ terms, terms ≠ []) (ruleNodesOf exprParts rules).1.
Proof.
  rewrite ruleNodesOf_filter. apply mapRules_nonempty.
  apply Forall_forall. intros r Hr. by apply list_elem_of_filter in Hr as [? _].
Qed.

Lemma sums_Ok nodes :
  Forall (λ terms, Undefined ∉ terms) nodes → ∃ added, mapM addUp nodes = Ok added.
Proof.
  intros Hnodes. apply mapM_total. eapply Forall_impl; [exact Hnodes|].
  intros terms Hterms. destruct (addUp_Ok terms Hterms) as (sum & Hsum & _).
  by exists sum.
Qed.

Lemma sums_defined nodes (added : list (Node expr)) :
  Forall (λ terms, terms ≠ [] ∧ Undefined ∉ terms) nodes →
  mapM addUp nodes = Ok added → Undefined ∉ added.
Proof.
  intros Hnodes Hadded.
  assert (Hall : Forall (λ sum, sum ≠ Undefined) added).
  { eapply mapM_Ok_Forall; [|exact Hnodes|exact Hadded].
    intros terms sum [Hne Hdef] Hsum.
    destruct (addUp_Ok terms Hdef) as (sum' & Hsum' & Hsum'').
    rewrite Hsum in Hsum'. injection Hsum' as <-. by apply Hsum''. }
  intros Hin. by apply (proj1 (Forall_forall _ _) Hall) in Hin.
Qed.

Lemma sums_Err nodes e : mapM addUp nodes = Err e → e = TypeError.
Proof.
  intros Herr. apply mapM_Err in Herr as (terms & _ & Hterms).
  by apply addUp_Err in Hterms as [-> _].
Qed.

Lemma functionalShape_Ok nodes s :
  Forall (λ terms, terms ≠ [] ∧ Undefined ∉ terms) nodes →
  ∃ o, functionalShape nodes s = Ok o.
Proof.
  intros Hnodes. unfold functionalShape.
  destruct (sums_Ok nodes) as [added Hadded].
  { eapply Forall_impl; [exact Hnodes|]. by intros terms [_ ?]. }
  rewrite Hadded. cbn [mbind Result_bind].
  destruct (createArrayLiteral_Ok added) as [elements ->];
    [by eapply sums_defined|]. by eexists.
Qed.

Lemma functionalShape_Err nodes s e : functionalShape nodes s = Err e → e = TypeError.
Proof.
  unfold functionalShape.
  destruct (mapM addUp nodes) as [added|e'] eqn:Hadded; cbn [mbind Result_bind].
  - destruct (createArrayLiteral added) as [body|e'] eqn:Hbody;
      cbn [mbind Result_bind]; [done|].
    intros [= <-]. by apply createArrayLiteral_Err in Hbody as [-> _].
  - intros [= <-]. by apply sums_Err in Hadded.
Qed.

Lemma staticShape_Err nodes (isSuperSimple : bool) e :
  (∃ stripped,
     mapM (stripRule ((length nodes =? 1)%nat && isSuperSimple)) nodes = Ok stripped) →
  staticShape nodes isSuperSimple = Err e → e = TypeError.
Proof.
  intros [stripped Hstripped]. unfold staticShape. rewrite Hstripped.
  cbn [mbind Result_bind].
  destruct (mapM addUp stripped) as [added|e'] eqn:Hadded; cbn [mbind Result_bind].
  - destruct (_ && _); [done|].
    destruct (createArrayLiteral added) as [array|e'] eqn:Harray;
      cbn [mbind Result_bind]; [done|].
    intros [= <-]. by apply createArrayLiteral_Err in Harray as [-> _].
  - intros [= <-]. by apply sums_Err in Hadded.
Qed.

Lemma staticShape_Ok nodes (isSuperSimple : bool) (stripped : list (list (Node expr))) :
  mapM (stripRule ((length nodes =? 1)%nat && isSuperSimple)) nodes = Ok stripped →
  Forall (λ rn, Undefined ∉ rn) stripped →
  ((length nodes =? 1)%nat && isSuperSimple = false → Forall (λ rn, rn ≠ []) stripped) →
  ∃ o, staticShape nodes isSuperSimple = Ok o.
Proof.
  intros Hstripped Hdef Hne. unfold staticShape. rewrite Hstripped.
  cbn [mbind Result_bind].
  destruct (sums_Ok stripped Hdef) as [added Hadded]. rewrite Hadded.
  cbn [mbind Result_bind].
  destruct (_ && _); [by eexists|].
  destruct (createArrayLiteral_Ok added) as [elements ->]; [|by eexists].
  eapply sums_defined; [|exact Hadded]. apply Forall_and. by split; [apply Hne|].
Qed.

(** Once the splitter has accepted the processed text, the compilation
    outside keyframe mode fails only with a [TypeError], raised by the
    factory on a term that is [undefined]: the checks of the static path
    ('Unexpected!', 'Unexpected 1!', 'Unexpected 2!') never fire, and no
    [.text] is read on a term that is not a literal. *)
Lemma transformProcessed_TypeError out rules e :
  splitRules out false = Ok rules →
  transformProcessed exprParts false out = Err e → e = TypeError.
Proof.
  intros Hrules. rewrite (transformProcessed_rules exprParts out rules Hrules).
  cbv zeta. destruct (_ =? 0)%nat; [|apply functionalShape_Err].
  destruct ((simpleScan rules true).1) eqn:Hsimple; [|apply functionalShape_Err].
  apply staticShape_Err, (stripRules_total exprParts out rules Hrules).
  by apply (simpleScan_allSimple rules true).
Qed.

(** And it returns a result when every marker of the text is the marker of
    an expression of the template. *)
Lemma transformProcessed_total out rules :
  splitRules out false = Ok rules →
  decodable exprParts out →
  ∃ o, transformProcessed exprParts false out = Ok o.
Proof.
  intros Hrules Hdec. rewrite (transformProcessed_rules exprParts out rules Hrules).
  destruct (splitRules_inv out rules Hrules) as (_ & Hconcat & Hclosed).
  rewrite <- Hconcat in Hdec.
  pose proof (decodable_defined rules Hdec) as Hdef.
  pose proof (ruleNodesOf_nonempty rules) as Hne.
  assert (Hfn : ∃ o, functionalShape (ruleNodesOf exprParts rules).1
                       (ruleNodesOf exprParts rules).2 = Ok o).
  { apply functionalShape_Ok, Forall_and. by split. }
  cbv zeta. destruct (_ =? 0)%nat; [|done].
  destruct ((simpleScan rules true).1) eqn:Hsimple; [|done].
  apply (simpleScan_allSimple rules true) in Hsimple.
  destruct (stripRules_total exprParts out rules Hrules Hsimple) as [stripped Hstripped].
  apply (staticShape_Ok _ _ stripped Hstripped).
  - assert (Hall : Forall (Forall (λ n, n ≠ Undefined)) stripped).
    { eapply mapM_Ok_Forall; [|exact Hdef|exact Hstripped].
      intros rn rn' Hrn Hstrip. eapply (stripRule_Forall (λ n, n ≠ Undefined));
        [|exact Hstrip|].
      - intros n text Hn. by destruct n.
      - apply Forall_forall. intros n Hn ->. done. }
    eapply Forall_impl; [exact Hall|]. intros rn Hrn Hin.
    by apply (proj1 (Forall_forall _ _) Hrn) in Hin.
  - intros Hcollapse. rewrite Hcollapse in Hstripped.
    rewrite (ruleNodesOf_split exprParts out rules Hrules) in Hstripped.
    eapply mapM_Ok_Forall; [|
      apply (mapRules_Forall exprParts (λ r, classFirstOnly r ∧ closedBlock r)
               (λ terms, ∀ rn, stripRule false terms = Ok rn → rn ≠ []) emptySlots rules)|
      exact Hstripped].
    + intros terms rn Hterms Hstrip. by apply Hterms.
    + intros s r [Hfirst Hclosedr] rn. by apply stripRule_plain_nonempty.
    + apply Forall_and. by split.
Qed.


End Functional.


(** A character of the range of the markers that is not the marker of an
    expression of the template, in a declaration body: the sum of the block
    is not built. *)
Example undefined_term_fails :
  transformProcessed (expr := string) [] false
    ([230] ++ js "{font-family:" ++ [24494; 36719] ++ js ";}")
  = Err TypeError.
Proof. by vm_compute. Qed.


(** ** Scenarios *)

(** [color: red;], processed to [<cls>{color: red;}]: the single-collapsed
    shape, the literal ["color: red;"]. *)
Example scenario_static_rule :
  transformProcessed (expr := string) [] false ([230] ++ js "{color: red;}")
  = Ok (mkOutput (StringLiteral (js "color: red;")) []).
Proof. reflexivity. Qed.

(** Two blocks without expressions: the static array, the class marker
    dropped and the braces kept. *)
Example scenario_static_array :
  transformProcessed (expr := string) [] false
    ([230] ++ js "{color:red;}" ++ [230] ++ js ":hover{color:blue;}")
  = Ok (mkOutput
          (ArrayLiteral [StringLiteral (js "{color:red;}");
                         StringLiteral (js ":hover{color:blue;}")])
          []).
Proof. reflexivity. Qed.

(** A keyframes template without expressions, the pipeline being the
    identity: one literal, the body of the keyframes. *)
Example scenario_keyframes :
  transformTemplate (expr := string) (λ _ css, css) (λ css, css)
    (NoSubstitutionTemplateLiteral (js "0%{opacity:0;}100%{opacity:1;}")) true
  = Ok (mkOutput (StringLiteral (js "0%{opacity:0;}100%{opacity:1;}")) []).
Proof. reflexivity. Qed.

(** A keyframes template whose body the preprocessor does not return
    wrapped. *)
Example scenario_keyframes_unwrapped :
  transformTemplate (expr := string) (λ _ _, js "x{}") (λ css, css)
    (NoSubstitutionTemplateLiteral (js "0%{opacity:0;}")) true
  = Err UnexpectedKeyframeCompilation.
Proof. reflexivity. Qed.

(** * Further properties *)

(** ** What the splitter accepts *)

Lemma closedBlock_depth (r : jsstring) : closedBlock r → braceDepth r = 0.
Proof. by intros (body & _ & H & _). Qed.

Lemma closedBlock_last (r : jsstring) : closedBlock r → last r = Some 125.
Proof. intros (body & -> & _). apply last_snoc. Qed.

Lemma closedBlocks_depth (rules : list jsstring) :
  Forall closedBlock rules → braceDepth (concat rules) = 0.
Proof.
  induction 1 as [|r rules Hr _ IH]; [done|]. simpl.
  rewrite braceDepth_app, IH, (closedBlock_depth r Hr). done.
Qed.

Lemma closedBlocks_last (rules : list jsstring) :
  Forall closedBlock rules → rules ≠ [] → last (concat rules) = Some 125.
Proof.
  induction 1 as [|r rules Hr Hrules IH]; [done|]. intros _. simpl.
  destruct rules as [|r' rules].
  - simpl. rewrite app_nil_r. by apply closedBlock_last.
  - rewrite last_app, IH by done. done.
Qed.

(** A closed block has no closed block as a proper prefix. *)
Lemma closedBlock_prefix (r1 r2 k : jsstring) :
  closedBlock r1 → closedBlock r2 → r2 = r1 ++ k → k = [].
Proof.
  intros Hr1 (body2 & Hr2 & _ & Hopen) Heq.
  destruct (decide (k = [])) as [|Hk]; [done|]. exfalso.
  destruct (exists_last Hk) as (k' & c & ->).
  rewrite Hr2, app_assoc in Heq. apply app_inj_tail in Heq as [Hbody _].
  apply (Hopen r1 k' Hbody); [by apply closedBlock_last|by apply closedBlock_depth].
Qed.

Lemma closedBlocks_unique (rules1 rules2 : list jsstring) :
  Forall closedBlock rules1 → Forall closedBlock rules2 →
  concat rules1 = concat rules2 → rules1 = rules2.
Proof.
  intros H1. revert rules2. induction H1 as [|r1 rules1 Hr1 _ IH]; intros rules2 H2 Heq.
  - destruct H2 as [|r2 rules2 Hr2 _]; [done|].
    destruct Hr2 as (body & -> & _). simpl in Heq. by destruct body.
  - destruct H2 as [|r2 rules2 Hr2 H2].
    { destruct Hr1 as (body & -> & _). simpl in Heq. by destruct body. }
    simpl in Heq.
    assert (r1 = r2) as <-.
    { apply app_eq_inv in Heq as [(k & Hk & _)|(k & Hk & _)].
      - rewrite (closedBlock_prefix r2 r1 k Hr2 Hr1 Hk) in Hk.
        by rewrite app_nil_r in Hk.
      - rewrite (closedBlock_prefix r1 r2 k Hr1 Hr2 Hk) in Hk.
        by rewrite app_nil_r in Hk. }
    f_equal. apply IH; [done|]. by apply app_inv_head in Heq.
Qed.

(** X1. Outside keyframe mode the splitter accepts exactly the empty text
    and the texts that end with ['}'] and have as many ['{'] as ['}']. *)
Theorem splitRules_accepts (out : jsstring) :
  (∃ rules, splitRules out false = Ok rules)
  ↔ out = [] ∨ (last out = Some 125 ∧ braceDepth out = 0).
Proof.
  split.
  - intros [rules Hok]. destruct (splitRules_inv out rules Hok) as (_ & <- & Hclosed).
    destruct rules as [|r rules]; [by left|right].
    split; [by apply closedBlocks_last|by apply closedBlocks_depth].
  - intros Hout.
    destruct (splitLoop_result out) as (rules & rest & Hloop & Heq & Hclosed & Hopen).
    assert (rest = []) as ->.
    { destruct Hout as [->|[Hlast Hdepth]].
      - symmetry in Heq. by apply app_eq_nil in Heq as [_ ?].
      - destruct (decide (rest = [])) as [|Hrest]; [done|]. exfalso.
        apply (Hopen rest [] (eq_sym (app_nil_r rest))).
        + rewrite Heq, last_app in Hlast.
          destruct (last rest) eqn:E; [done|]. by apply last_None in E.
        + rewrite Heq, braceDepth_app, closedBlocks_depth in Hdepth by done. lia. }
    rewrite app_nil_r in Heq. exists rules. unfold splitRules.
    rewrite Hloop, Heq, Z.eqb_refl. done.
Qed.

(** X2. Splitting the concatenation of closed blocks gives back the blocks. *)
Theorem splitRules_concat (rules : list jsstring) :
  Forall closedBlock rules → splitRules (concat rules) false = Ok rules.
Proof.
  intros Hclosed.
  assert (Hacc : ∃ rules', splitRules (concat rules) false = Ok rules').
  { destruct (splitLoop_result (concat rules))
      as (rules' & rest & Hloop & Heq & Hclosed' & Hopen).
    assert (rest = []) as ->.
    { destruct (decide (rest = [])) as [|Hrest]; [done|]. exfalso.
      assert (Hne : rules ≠ []).
      { intros ->. simpl in Heq. symmetry in Heq. by apply app_eq_nil in Heq as [_ ?]. }
      apply (Hopen rest [] (eq_sym (app_nil_r rest))).
      - pose proof (closedBlocks_last rules Hclosed Hne) as Hlast.
        rewrite Heq, last_app in Hlast.
        destruct (last rest) eqn:E; [done|]. by apply last_None in E.
      - pose proof (closedBlocks_depth rules Hclosed) as Hdepth.
        rewrite Heq, braceDepth_app, (closedBlocks_depth rules') in Hdepth by done. lia. }
    rewrite app_nil_r in Heq. exists rules'. unfold splitRules.
    rewrite Hloop, <- Heq, Z.eqb_refl. done. }
  destruct Hacc as [rules' Hok]. rewrite Hok. f_equal.
  destruct (splitRules_inv _ rules' Hok) as (_ & Heq & Hclosed').
  by apply closedBlocks_unique.
Qed.

Lemma splitRules_concat_example :
  splitRules (concat [js "a{b}"; js "@m{c{d}}"]) false = Ok [js "a{b}"; js "@m{c{d}}"].
Proof.
  apply splitRules_concat.
  exact (proj2 (proj2 (splitRules_inv (js "a{b}@m{c{d}}")
                         [js "a{b}"; js "@m{c{d}}"] eq_refl))).
Defined.

(** ** The terms of a block *)

Section Terms.
Context {expr : Type} `{!Precedence expr}.
Variable exprParts : list expr.
Implicit Types (b : BlockState expr) (s : Slots expr) (keys : list Z) (c : Z).
Implicit Types (terms : list (Node expr)) (r : jsstring).

Lemma exprFromChar_hole c : ¬ isLiteral (exprFromChar exprParts c).
Proof.
  unfold exprFromChar. destruct (_ <? 0); [by intros []|].
  destruct (exprParts !! _); by intros [].
Qed.

(** What a marker adds: the accumulated text, with a ['.'] after it in a
    selector, and one term that is not a literal. *)
Lemma addMarker_exact keys c b :
  slotsFor exprParts keys (slots b) →
  ∃ t, ¬ isLiteral t
       ∧ addTerms (addMarker exprParts c b)
         = addTerms b
           ++ flushed (accum b ++ (if CssPosition.eqb (pos b) CssPosition.ElementSelector
                                   then [46] else []))
           ++ [t]
       ∧ accum (addMarker exprParts c b) = [].
Proof.
  intros (_ & _ & _ & _ & Hmap).
  assert (Harg : ∀ arg, argsByCode (slots b) !! c = Some arg → ¬ isLiteral arg).
  { intros arg Harg. apply Hmap in Harg as (k & _ & ->). by intros []. }
  pose proof (exprFromChar_hole c) as Hexpr.
  assert (Hslot : ∀ k, ¬ isLiteral (@slotArg expr k)) by (by intros k []).
  unfold addMarker.
  destruct (CssPosition.eqb (pos b) CssPosition.ElementSelector); simpl;
    rewrite !addAccum_slots; simpl.
  - destruct (argsByCode (slots b) !! c) as [arg|] eqn:E; eexists;
      (split; [|split; [simpl; rewrite addAccum_flushed; simpl;
                        by rewrite <- app_assoc|simpl; by rewrite ?addAccum_accum]]);
      [by apply Harg|apply Hslot].
  - rewrite app_nil_r.
    destruct (argsByCode (slots b) !! c) as [arg|] eqn:E;
      [|destruct (_ && _)]; eexists;
      (split; [|split; [simpl; rewrite addAccum_flushed; simpl;
                        by rewrite <- app_assoc|simpl; by rewrite ?addAccum_accum]]);
      [by apply Harg|apply Hslot|apply Hexpr].
Qed.

Lemma termTokens_app terms terms' :
  termTokens (terms ++ terms') = termTokens terms ++ termTokens terms'.
Proof. apply flat_map_app. Qed.

Lemma termTokens_flushed (acc : jsstring) :
  termTokens (@flushed expr acc) = map TChar acc.
Proof. destruct acc; [done|]. simpl. by rewrite app_nil_r. Qed.

Lemma termTokens_hole (t : Node expr) : ¬ isLiteral t → termTokens [t] = [THole].
Proof. by destruct t. Qed.

(** One character adds its tokens to those of the terms and of the
    accumulated text. *)
Lemma blockStep_tokens keys b c :
  slotsFor exprParts keys (slots b) →
  termTokens (addTerms (blockStep exprParts b c))
    ++ map TChar (accum (blockStep exprParts b c))
  = termTokens (addTerms b) ++ map TChar (accum b)
    ++ blockTokens (pos b) [c].
Proof.
  intros Hs. unfold blockStep. fold (atPos b (nextPos (pos b) c)).
  cbn [blockTokens]. rewrite app_nil_r. destruct (c =? CLASS_MARKER).
  - simpl. rewrite addAccum_flushed, addAccum_accum, !termTokens_app, termTokens_flushed.
    simpl. by rewrite app_nil_r, <- app_assoc.
  - destruct (START_CODE <=? c).
    + destruct (addMarker_exact keys c (atPos b (nextPos (pos b) c)) Hs)
        as (t & Ht & -> & ->).
      cbn [atPos addTerms accum pos].
      rewrite !termTokens_app, termTokens_flushed, (termTokens_hole t Ht), app_nil_r.
      destruct (CssPosition.eqb _ _); [rewrite map_app|rewrite app_nil_r];
        simpl; by rewrite <- ?app_assoc.
    + simpl. by rewrite map_app.
Qed.

Lemma foldl_blockStep_tokens keys b r :
  slotsFor exprParts keys (slots b) →
  termTokens (addTerms (foldl (blockStep exprParts) b r))
    ++ map TChar (accum (foldl (blockStep exprParts) b r))
  = termTokens (addTerms b) ++ map TChar (accum b) ++ blockTokens (pos b) r.
Proof.
  revert keys b. induction r as [|c r IH]; intros keys b Hs.
  - simpl. by rewrite app_nil_r.
  - destruct (blockStep_slotsFor exprParts keys b c Hs) as (keys' & Hs' & _).
    cbn [foldl]. rewrite (IH keys' _ Hs'), app_assoc, (blockStep_tokens keys b c Hs).
    rewrite blockStep_pos. cbn [blockTokens]. by rewrite app_nil_r, <- !app_assoc.
Qed.

Lemma ruleTerms_tokens keys s r :
  slotsFor exprParts keys s →
  termTokens (ruleTerms exprParts s r).1 = blockTokens CssPosition.None r.
Proof.
  intros Hs. unfold ruleTerms. cbn [fst].
  rewrite addAccum_flushed, termTokens_app, termTokens_flushed.
  by rewrite (foldl_blockStep_tokens keys (mkBlockState [] [] CssPosition.None s) r Hs).
Qed.

Lemma mapRules_tokens keys s (rules : list jsstring) :
  slotsFor exprParts keys s →
  map termTokens (mapRules exprParts s rules).1
  = map (blockTokens CssPosition.None) rules.
Proof.
  revert s keys. induction rules as [|r rules IH]; intros s keys Hs; [done|].
  rewrite mapRules_cons. cbn [fst map]. f_equal; [by eapply ruleTerms_tokens|].
  destruct (ruleTerms_slotsFor exprParts keys s r Hs) as (keys' & Hs' & _).
  by apply (IH _ keys').
Qed.

(** X3. The terms of every rule block hold the characters of the block, in
    order and none of them twice: each character below [START_CODE] is a
    character of a literal, each marker is one term that is not a literal,
    and the only character added is a ['.'] before each marker of an
    expression met in a selector. *)
Theorem terms_keep_the_text (rules : list jsstring) :
  map termTokens (mapRules exprParts emptySlots rules).1
  = map (blockTokens CssPosition.None) rules.
Proof. apply (mapRules_tokens []), slotsFor_empty. Qed.

(** *** Canonical terms *)

Lemma canonicalTerms_nil : canonicalTerms (@nil (Node expr)).
Proof. intros before text after H. by destruct before. Qed.

Lemma canonicalTerms_hole terms (t : Node expr) :
  canonicalTerms terms → ¬ isLiteral t → canonicalTerms (terms ++ [t]).
Proof.
  intros Hc Ht before text after Heq.
  destruct after as [|n after _] using rev_ind.
  - apply app_inj_tail in Heq as [_ ->]. by destruct Ht.
  - rewrite app_comm_cons, app_assoc in Heq. apply app_inj_tail in Heq as [-> ->].
    destruct (Hc _ _ _ eq_refl) as [Htext Hhead]. split; [done|].
    destruct after as [|m after]; [by intros ? [= <-]|]. exact Hhead.
Qed.

Lemma canonicalTerms_literal terms (text : jsstring) :
  canonicalTerms terms →
  (∀ n, last terms = Some n → ¬ isLiteral n) →
  text ≠ [] →
  canonicalTerms (terms ++ [StringLiteral text]).
Proof.
  intros Hc Hlast Htext before text' after Heq.
  destruct after as [|n after _] using rev_ind.
  - apply app_inj_tail in Heq as [_ [= <-]]. split; [done|]. by intros.
  - rewrite app_comm_cons, app_assoc in Heq. apply app_inj_tail in Heq as [-> <-].
    destruct (Hc _ _ _ eq_refl) as [Htext' Hhead]. split; [done|].
    destruct after as [|m after]; [|exact Hhead].
    intros ? [= <-]. exfalso. by apply (Hlast (StringLiteral text') (last_snoc _ _)).
Qed.

Lemma canonicalTerms_flushed terms (acc : jsstring) :
  canonicalTerms terms →
  (∀ n, last terms = Some n → ¬ isLiteral n) →
  canonicalTerms (terms ++ flushed acc).
Proof.
  intros Hc Hlast. destruct acc as [|c acc]; simpl; [by rewrite app_nil_r|].
  by apply canonicalTerms_literal.
Qed.

(** During the loop the terms are canonical and do not end with a
    literal. *)
Lemma blockStep_canonical keys b c :
  slotsFor exprParts keys (slots b) →
  canonicalTerms (addTerms b) ∧ (∀ n, last (addTerms b) = Some n → ¬ isLiteral n) →
  canonicalTerms (addTerms (blockStep exprParts b c))
  ∧ (∀ n, last (addTerms (blockStep exprParts b c)) = Some n → ¬ isLiteral n).
Proof.
  intros Hs [Hc Hlast].
  assert (Hpush : ∀ acc (t : Node expr), ¬ isLiteral t →
            canonicalTerms (addTerms b ++ flushed acc ++ [t])
            ∧ ∀ n, last (addTerms b ++ flushed acc ++ [t]) = Some n → ¬ isLiteral n).
  { intros acc t Ht. rewrite app_assoc. split.
    - apply canonicalTerms_hole; [|done]. by apply canonicalTerms_flushed.
    - intros n. rewrite last_snoc. by intros [= <-]. }
  unfold blockStep. fold (atPos b (nextPos (pos b) c)). destruct (c =? CLASS_MARKER).
  - simpl. rewrite addAccum_flushed, <- app_assoc. apply Hpush. by intros [].
  - destruct (START_CODE <=? c); [|done].
    destruct (addMarker_exact keys c (atPos b (nextPos (pos b) c)) Hs)
      as (t & Ht & -> & _).
    by apply Hpush.
Qed.

Lemma ruleTerms_canonical keys s r :
  slotsFor exprParts keys s → canonicalTerms (ruleTerms exprParts s r).1.
Proof.
  intros Hs. unfold ruleTerms. cbn [fst]. rewrite addAccum_flushed.
  set (b0 := mkBlockState [] [] CssPosition.None s).
  assert (Hinv : ∀ keys b,
            slotsFor exprParts keys (slots b) →
            canonicalTerms (addTerms b)
            ∧ (∀ n, last (addTerms b) = Some n → ¬ isLiteral n) →
            canonicalTerms (addTerms (foldl (blockStep exprParts) b r))
            ∧ (∀ n, last (addTerms (foldl (blockStep exprParts) b r)) = Some n
                    → ¬ isLiteral n)).
  { clear. induction r as [|c r IH]; intros keys b Hs Hb; [done|].
    destruct (blockStep_slotsFor exprParts keys b c Hs) as (keys' & Hs' & _).
    apply (IH keys' _ Hs'). by eapply blockStep_canonical. }
  destruct (Hinv keys b0 Hs) as [Hc Hlast]; [split; [apply canonicalTerms_nil|done]|].
  by apply canonicalTerms_flushed.
Qed.

(** X4. In the terms of every rule block no literal is empty and no literal
    follows another literal. *)
Theorem terms_are_canonical (rules : list jsstring) :
  Forall canonicalTerms (ruleNodesOf exprParts rules).1.
Proof.
  assert (Hall : ∀ s keys rules, slotsFor exprParts keys s →
            Forall canonicalTerms (mapRules exprParts s rules).1).
  { clear. intros s keys rules. revert s keys.
    induction rules as [|r rules IH]; intros s keys Hs; [constructor|].
    rewrite mapRules_cons. constructor; [by eapply ruleTerms_canonical|].
    destruct (ruleTerms_slotsFor exprParts keys s r Hs) as (keys' & Hs' & _).
    by apply (IH _ keys'). }
  rewrite ruleNodesOf_filter. apply (Hall _ []), slotsFor_empty.
Qed.

(** *** The sums *)




End Terms.

(** ** Blocks without terms are dropped *)

Section Dropped.
Context {expr : Type} `{!Precedence expr}.
Variable exprParts : list expr.

(** C9, as the code has it. A block has no terms exactly when it is empty,
    and it then leaves the named slots as they were. The rule nodes from
    which every shape is built are the terms of the blocks that are not
    empty, in their order, each with the text of its block; they and the
    slots are the same as if the empty blocks had not been there: the blocks
    without terms are dropped, by a step that cannot fail, before a shape is
    chosen. Outside keyframe mode the splitter returns no empty block, so
    that nothing is dropped there. In keyframe mode the one block is dropped
    exactly when the processed text is empty, and the compilation then fails
    with 'Unexpected keyframes count'. *)
Theorem empty_blocks_removed (rules : list jsstring) :
  (∀ s r, (ruleTerms exprParts s r).1 = [] ↔ r = [])
  ∧ (∀ s, ruleTerms exprParts s [] = ([], s))
  ∧ map termTokens (ruleNodesOf exprParts rules).1
    = map (blockTokens CssPosition.None) (filter (λ r, r ≠ []) rules)
  ∧ ruleNodesOf exprParts rules
    = mapRules exprParts emptySlots (filter (λ r, r ≠ []) rules)
  ∧ ruleNodesOf exprParts rules = ruleNodesOf exprParts (filter (λ r, r ≠ []) rules)
  ∧ Forall (λ arr, arr ≠ []) (ruleNodesOf exprParts rules).1
  ∧ (∀ out rules', splitRules out false = Ok rules' →
       Forall (λ r, r ≠ []) rules'
       ∧ ruleNodesOf exprParts rules' = mapRules exprParts emptySlots rules')
  ∧ (∀ out, splitRules out true = Ok [out]
            ∧ ((ruleNodesOf exprParts [out]).1 = [] ↔ out = [])
            ∧ (out = [] →
               transformProcessed exprParts true out = Err UnexpectedKeyframesCount)).
Proof.
  split; [apply ruleTerms_nil|]. split; [done|].
  split; [|split; [apply ruleNodesOf_filter|split; [|split; [|split]]]].
  - rewrite ruleNodesOf_filter. apply (mapRules_tokens exprParts []), slotsFor_empty.
  - rewrite !ruleNodesOf_filter. f_equal. symmetry. apply list_filter_filter_l.
    by intros r Hr.
  - apply ruleNodesOf_nonempty.
  - intros out rules' Hsplit. split; [by eapply splitRules_nonempty|].
    by eapply ruleNodesOf_split.
  - intros out. split; [done|]. split; [|by intros ->].
    rewrite ruleNodesOf_single. by destruct (decide (out = [])).
Qed.

End Dropped.

(** C9, as the specification words it, fails on the only block without terms
    that a compilation can meet: the keyframes template without text, the
    pipeline being the identity, has the empty text as its one block; the
    block has no terms and is dropped, and the compilation does not go on
    without an error: it fails with 'Unexpected keyframes count'. *)
Lemma dropped_block_raises :
  compileCssString (λ _ css, css) (λ css, css) [CLASS_MARKER]
    (combined (traverseExtract (NoSubstitutionTemplateLiteral (expr := string) [])))
    true = Ok []
  ∧ splitRules [] true = Ok [[]]
  ∧ (ruleTerms (expr := string) [] emptySlots []).1 = []
  ∧ (ruleNodesOf (expr := string) [] [[]]).1 = []
  ∧ transformTemplate (λ _ css, css) (λ css, css)
      (NoSubstitutionTemplateLiteral (expr := string) []) true
    = Err UnexpectedKeyframesCount.
Proof. by vm_compute. Qed.

(** ** Static CSS *)

Section StaticCss.
Context {expr : Type} `{!Precedence expr}.
Variable exprParts : list expr.
Implicit Types (b : BlockState expr) (s : Slots expr) (c : Z) (r rest : jsstring).
Implicit Types (rules : list jsstring).

Lemma blockStep_plain b c :
  c < START_CODE →
  blockStep exprParts b c
  = mkBlockState (addTerms b) (accum b ++ [c]) (nextPos (pos b) c) (slots b).
Proof.
  intros Hc. unfold blockStep.
  destruct (Z.eqb_spec c CLASS_MARKER) as [->|_]; [done|].
  by destruct (Z.leb_spec START_CODE c); [lia|].
Qed.

Lemma foldl_blockStep_plain b rest :
  Forall (λ c, c < START_CODE) rest →
  foldl (blockStep exprParts) b rest
  = mkBlockState (addTerms b) (accum b ++ rest) (foldl nextPos (pos b) rest) (slots b).
Proof.
  intros Hrest. revert b. induction Hrest as [|c rest Hc _ IH]; intros b.
  - simpl. rewrite app_nil_r. by destruct b.
  - cbn [foldl]. rewrite IH, blockStep_plain by done. simpl.
    by rewrite <- app_assoc.
Qed.

(** A block made of the class marker and of plain text. *)
Lemma ruleTerms_plain s rest :
  Forall (λ c, c < START_CODE) rest → rest ≠ [] →
  ruleTerms exprParts s (CLASS_MARKER :: rest)
  = ([classNameArg; StringLiteral rest], s).
Proof.
  intros Hrest Hne. unfold ruleTerms. cbn [foldl].
  rewrite foldl_blockStep_plain by done.
  destruct rest as [|c rest]; done.
Qed.

Lemma mapRules_plain s rules :
  Forall (λ r, ∃ rest, r = CLASS_MARKER :: rest
                       ∧ Forall (λ c, c < START_CODE) rest ∧ rest ≠ []) rules →
  mapRules exprParts s rules
  = (map (λ r, [classNameArg; StringLiteral (slice r 1 (jslength r))]) rules, s).
Proof.
  intros H. revert s.
  induction H as [|r rules (rest & -> & Hrest & Hne) _ IH]; intros s; [done|].
  rewrite mapRules_cons, ruleTerms_plain, IH by done. cbn [fst snd map].
  by rewrite slice_tail.
Qed.

Lemma mapM_stripRule_plain (texts : list jsstring) :
  mapM (stripRule false) (map (λ text, [@classNameArg expr; StringLiteral text]) texts)
  = Ok (map (λ text, [StringLiteral text]) texts).
Proof.
  induction texts as [|text texts IH]; [done|].
  cbn [map mapM]. rewrite stripRule_plain. cbn [mbind Result_bind].
  by rewrite IH.
Qed.

Lemma stripRule_collapse_plain (inner : jsstring) :
  stripRule true [@classNameArg expr; StringLiteral (123 :: inner ++ [125])]
  = Ok (flushed inner).
Proof.
  cbn [stripRule]. change (isClassNameArg classNameArg) with true. cbv iota.
  rewrite stripOpen_literal. cbn [mbind Result_bind].
  unfold stripClose. cbn [last nodeText mbind Result_bind].
  rewrite charAt_last, last_snoc, bool_decide_eq_true_2, slice_init by done.
  destruct inner; done.
Qed.

Lemma mapM_addUp_literals (texts : list jsstring) :
  mapM addUp (map (λ text, [@StringLiteral expr text]) texts)
  = Ok (map StringLiteral texts).
Proof.
  induction texts as [|text texts IH]; [done|].
  cbn [map mapM addUp addLoop mbind Result_bind]. by rewrite IH.
Qed.

Lemma createArrayLiteral_literals (texts : list jsstring) :
  createArrayLiteral (map (@StringLiteral expr) texts)
  = Ok (ArrayLiteral (map StringLiteral texts)).
Proof.
  unfold createArrayLiteral.
  assert (H : mapM parenthesizeExpressionForList (map (@StringLiteral expr) texts)
              = Ok (map StringLiteral texts)).
  { induction texts as [|text texts IH]; [done|].
    cbn [map mapM parenthesizeExpressionForList mbind Result_bind]. by rewrite IH. }
  by rewrite H.
Qed.

(** X6. For static CSS, that is when each block of the processed text
    is the class marker followed by text without any marker: a single block
    whose second character is ['{'] yields the literal of what is between
    its ['{'] and its last ['}'] ([r.slice(2, r.length - 1)]), or
    [undefined] when there is nothing between them; otherwise the result is
    the array of the blocks without their class marker. There are no
    arguments. *)
Theorem static_css_output (out : jsstring) rules :
  splitRules out false = Ok rules →
  Forall (λ r, ∃ rest, r = CLASS_MARKER :: rest ∧ Forall (λ c, c < START_CODE) rest)
         rules →
  transformProcessed exprParts false out =
    Ok (mkOutput
          (match rules with
           | [r] =>
               if bool_decide (charAt r 1 = Some 123)
               then match slice r 2 (jslength r - 1) with
                    | [] => Undefined
                    | inner => StringLiteral inner
                    end
               else ArrayLiteral [StringLiteral (slice r 1 (jslength r))]
           | _ => ArrayLiteral (map (λ r, StringLiteral (slice r 1 (jslength r))) rules)
           end)
          []).
Proof.
  intros Hsplit Hplain.
  destruct (splitRules_inv out rules Hsplit) as (_ & _ & Hclosed).
  assert (Hall : Forall (λ r, ∃ rest, r = CLASS_MARKER :: rest
                   ∧ Forall (λ c, c < START_CODE) rest ∧ rest ≠ []) rules).
  { apply Forall_forall. intros r Hr.
    pose proof (proj1 (Forall_forall _ _) Hplain r Hr) as (rest & -> & Hrest).
    pose proof (proj1 (Forall_forall _ _) Hclosed _ Hr) as (body & Hbody & _).
    exists rest. split; [done|]. split; [done|]. intros ->. by destruct body as [|? []]. }
  assert (Hfirst : Forall classFirstOnly rules).
  { eapply Forall_impl; [exact Hplain|]. intros r (rest & -> & Hrest).
    exists rest. split; [done|]. intros Hin.
    apply (proj1 (Forall_forall _ _) Hrest) in Hin. unfold START_CODE in Hin.
    vm_compute in Hin. done. }
  rewrite (transformProcessed_rules exprParts out rules Hsplit).
  rewrite (ruleNodesOf_split exprParts out rules Hsplit), mapRules_plain by done.
  cbn [fst snd emptySlots exprVals length Nat.eqb].
  rewrite (proj2 (simpleScan_allSimple rules true) Hfirst).
  unfold staticShape. rewrite length_map.
  destruct rules as [|r [|r' rules]].
  - done.
  - rewrite Forall_singleton in Hall. destruct Hall as (rest & -> & Hrest & Hne).
    rewrite Forall_singleton in Hclosed. cbn [simpleScan snd length Nat.eqb andb map].
    rewrite (proj2 (classFirstOnly_spec (CLASS_MARKER :: rest)))
      by (by rewrite Forall_singleton in Hfirst).
    cbn [snd]. rewrite !slice_tail.
    destruct (bool_decide (charAt (CLASS_MARKER :: rest) 1 = Some 123)) eqn:Hbrace.
    + apply bool_decide_eq_true in Hbrace. destruct rest as [|c rest]; [done|].
      injection Hbrace as ->. destruct Hclosed as (body & Hbody & _).
      destruct body as [|c0 [|c1 body]]; try done. injection Hbody as _ _ ->.
      cbn [mapM]. rewrite stripRule_collapse_plain. cbn [mbind Result_bind mret Result_ret].
      pose proof (slice_middle [CLASS_MARKER; 123] body [125]) as Hslice.
      replace (jslength (CLASS_MARKER :: 123 :: body ++ [125]) - 1)
        with (jslength [CLASS_MARKER; 123] + jslength body)
        by (unfold jslength; simpl; rewrite length_app; simpl; lia).
      change (jslength [CLASS_MARKER; 123]) with 2 in Hslice at 1.
      cbn [app] in Hslice. rewrite Hslice. destruct body; reflexivity.
    + cbn [mapM]. rewrite stripRule_plain. reflexivity.
  - cbn [length Nat.eqb andb].
    rewrite <- (map_map (λ r, slice r 1 (jslength r))
                        (λ text, [classNameArg; StringLiteral text])).
    rewrite mapM_stripRule_plain. cbn [mbind Result_bind].
    rewrite mapM_addUp_literals. cbn [mbind Result_bind].
    rewrite createArrayLiteral_literals. cbn [mbind Result_bind].
    by rewrite !map_map.
Qed.

End StaticCss.

Lemma below_START_CODE (r : jsstring) :
  forallb (λ c, c <? START_CODE) r = true → Forall (λ c, c < START_CODE) r.
Proof.
  rewrite forallb_forall. intros H. apply Forall_forall. intros c Hc.
  apply list_elem_of_In, H in Hc. lia.
Defined.

(** Two static blocks. *)
Lemma static_css_output_example :
  transformProcessed (expr := string) [] false
    ([230] ++ js "{color:red;}" ++ [230] ++ js ":hover{color:blue;}")
  = Ok (mkOutput
          (ArrayLiteral [StringLiteral (js "{color:red;}");
                         StringLiteral (js ":hover{color:blue;}")])
          []).
Proof.
  refine (static_css_output (expr := string) []
            ([230] ++ js "{color:red;}" ++ [230] ++ js ":hover{color:blue;}")
            [[230] ++ js "{color:red;}"; [230] ++ js ":hover{color:blue;}"]
            eq_refl _).
  apply Forall_cons. split; [|apply Forall_cons; split; [|apply Forall_nil_2]].
  - exists (js "{color:red;}"). split; [reflexivity|]. by apply below_START_CODE.
  - exists (js ":hover{color:blue;}"). split; [reflexivity|]. by apply below_START_CODE.
Defined.

(** ** The failures of a compilation *)

Section Failures.
Context {expr : Type} `{!Precedence expr}.
Variable stylisInst : jsstring → jsstring → jsstring.
Variable autoprefixer : jsstring → jsstring.
Implicit Types (t : TemplateLiteral expr) (out : jsstring) (exprParts : list expr).

Lemma compileCssString_Err (context str : jsstring) (singleKeyframe : bool) (e : Error) :
  compileCssString stylisInst autoprefixer context str singleKeyframe = Err e →
  singleKeyframe = true ∧ e = UnexpectedKeyframeCompilation.
Proof.
  unfold compileCssString, mbind, Result_bind. destruct singleKeyframe; [|done].
  destruct (_ || _); [|done]. by intros [= <-].
Qed.

Lemma transformProcessed_Err exprParts (singleKeyframe : bool) out (e : Error) :
  transformProcessed exprParts singleKeyframe out = Err e →
  ((singleKeyframe = false ∧ e = FailedToParseCssRules)
   ∨ (singleKeyframe = true
      ∧ (e = ComponentReferencesInKeyframes ∨ e = UnexpectedKeyframesCount))
   ∨ e = TypeError)
  ∧ (e = TypeError → ¬ decodable exprParts out).
Proof.
  destruct singleKeyframe.
  - rewrite transformProcessed_keyframe. unfold keyframeShape. intros He.
    destruct (_ <? _)%nat.
    { injection He as <-. split; [|done]. right. left. split; [done|]. by left. }
    pose proof (decodable_defined exprParts [out]) as Hdef.
    destruct (ruleNodesOf exprParts [out]).1 as [|arr [|]];
      try (injection He as <-; split; [|done]; right; left; split; [done|]; by right).
    destruct (addUp arr) as [sum|e'] eqn:Hsum; [done|].
    cbn [mbind Result_bind] in He. injection He as <-.
    apply addUp_Err in Hsum as (-> & _ & Hin). split; [by right; right|].
    intros _ Hdec. cbn [concat] in Hdef. rewrite app_nil_r in Hdef.
    apply Hdef in Hdec. rewrite Forall_singleton in Hdec. done.
  - intros He. destruct (splitRules out false) as [rules|e'] eqn:Hsplit.
    + pose proof (transformProcessed_TypeError exprParts out rules e Hsplit He) as ->.
      split; [by right; right|]. intros _ Hdec.
      destruct (transformProcessed_total exprParts out rules Hsplit Hdec) as [o Ho].
      congruence.
    + unfold transformProcessed in He. rewrite Hsplit in He.
      injection He as <-. unfold splitRules in Hsplit.
      destruct (splitLoop out out 0 0 0 []) as [idx rules].
      destruct (idx =? jslength out); [done|]. injection Hsplit as <-.
      split; [by left|done].
Qed.

(** X7. When the CSS pipeline returns, a compilation can fail in these ways
    only. Outside keyframe mode: 'Failed to parse css rules'. In keyframe
    mode: 'Unexpected keyframe compilation', 'Did not expect component
    references in keyframes', 'Unexpected keyframes count'. In both modes: the
    [TypeError] of the factory on a term that is [undefined], which takes a
    marker in the processed text that is not the marker of an expression of
    the template. The checks 'Unexpected!', 'Unexpected 1!' and
    'Unexpected 2!' never fire. *)
Theorem transformTemplate_failures t (singleKeyframe : bool) (e : Error) :
  transformTemplate stylisInst autoprefixer t singleKeyframe = Err e →
  ((singleKeyframe = false ∧ e = FailedToParseCssRules)
   ∨ (singleKeyframe = true
      ∧ (e = UnexpectedKeyframeCompilation
         ∨ e = ComponentReferencesInKeyframes
         ∨ e = UnexpectedKeyframesCount))
   ∨ e = TypeError)
  ∧ (e = TypeError →
     ∃ out, compileCssString stylisInst autoprefixer [CLASS_MARKER]
              (combined (traverseExtract t)) singleKeyframe = Ok out
            ∧ ¬ decodable (exprPartsOf (traverseExtract t)) out).
Proof.
  unfold transformTemplate.
  destruct (compileCssString _ _ _ _ _) as [out|e'] eqn:Hcompile.
  - cbn [mbind Result_bind]. intros He.
    apply transformProcessed_Err in He as [He Hdec]. split.
    + destruct He as [He|[[Hk He]|He]]; [by left| |by right; right].
      right. left. split; [done|]. tauto.
    + intros Htype. exists out. split; [done|]. by apply Hdec.
  - cbn [mbind Result_bind]. intros [= <-].
    apply compileCssString_Err in Hcompile as [-> ->]. split; [|done].
    right. left. split; [done|]. by left.
Qed.

(** X8. A keyframes body that the pipeline returns without any marker, and
    not empty, compiles to one literal, that text, without arguments. *)
Theorem keyframes_static_output t out :
  compileCssString stylisInst autoprefixer [CLASS_MARKER]
    (combined (traverseExtract t)) true = Ok out →
  Forall (λ c, c < START_CODE) out → out ≠ [] →
  transformTemplate stylisInst autoprefixer t true
  = Ok (mkOutput (StringLiteral out) []).
Proof.
  intros Hcompile Hplain Hne. unfold transformTemplate. rewrite Hcompile.
  cbn [mbind Result_bind]. rewrite keyframeShape_single by done.
  unfold ruleTerms. rewrite foldl_blockStep_plain by done.
  destruct out; done.
Qed.

End Failures.

(** An unbalanced processed text, the pipeline being the identity. *)
(** The template [font-family:<U+5FAE><U+8F6F>;] under [styled]: the two
    characters are in the range of the markers and the template has no
    expression. *)
Lemma transformTemplate_failures_example :
  ((false = false ∧ TypeError = FailedToParseCssRules)
   ∨ (false = true
      ∧ (TypeError = UnexpectedKeyframeCompilation
         ∨ TypeError = ComponentReferencesInKeyframes
         ∨ TypeError = UnexpectedKeyframesCount))
   ∨ TypeError = TypeError)
  ∧ (TypeError = TypeError →
     ∃ out, compileCssString (λ context css, context ++ js "{" ++ css ++ js "}")
              (λ css, css) [CLASS_MARKER]
              (combined (traverseExtract
                 (NoSubstitutionTemplateLiteral (expr := string)
                    (js "font-family:" ++ [24494; 36719] ++ js ";"))))
              false = Ok out
            ∧ ¬ decodable
                  (exprPartsOf (traverseExtract
                     (NoSubstitutionTemplateLiteral (expr := string)
                        (js "font-family:" ++ [24494; 36719] ++ js ";"))))
                  out).
Proof.
  apply (transformTemplate_failures (expr := string)
           (λ context css, context ++ js "{" ++ css ++ js "}") (λ css, css)
           (NoSubstitutionTemplateLiteral
              (js "font-family:" ++ [24494; 36719] ++ js ";"))
           false TypeError).
  vm_compute. reflexivity.
Defined.

Lemma keyframes_static_output_example :
  transformTemplate (expr := string) (λ _ css, css) (λ css, css)
    (NoSubstitutionTemplateLiteral (js "0%{opacity:0;}100%{opacity:1;}")) true
  = Ok (mkOutput (StringLiteral (js "0%{opacity:0;}100%{opacity:1;}")) []).
Proof.
  refine (keyframes_static_output (expr := string) (λ _ css, css) (λ css, css)
            (NoSubstitutionTemplateLiteral (js "0%{opacity:0;}100%{opacity:1;}"))
            (js "0%{opacity:0;}100%{opacity:1;}") eq_refl _ _).
  - by apply below_START_CODE.
  - discriminate.
Defined.

(** ** Rebuilding a template from the parts *)

Section Rebuild.
Context {expr : Type} `{EqDecision expr}.
Implicit Types (t : TemplateLiteral expr) (spans : list (expr * jsstring))
  (parts rest : list (Part expr)).

Lemma recreateSpans_inv spans parts spans' rest :
  recreateSpans spans parts = inr (spans', rest) →
  map fst spans = map fst spans' ∧ parts = concat (map traverseSpan spans') ++ rest.
Proof.
  revert parts spans'. induction spans as [|[e s] spans IH]; intros parts spans'.
  - by intros [= <- <-].
  - cbn [recreateSpans]. unfold recreateSpan. cbn [fst].
    destruct parts as [|[|val] parts]; [done..|].
    destruct (decide (val = e)) as [->|]; [|done].
    destruct parts as [|[v|] parts]; [done| |done]. cbn [recreateLiteral].
    destruct (recreateSpans spans parts) as [|[spans1 rest1]] eqn:Hspans; [done|].
    intros [= <- <-]. apply IH in Hspans as [Hfst ->]. cbn. by rewrite Hfst.
Qed.

Lemma recreateSpans_build spans spans' rest :
  map fst spans = map fst spans' →
  recreateSpans spans (concat (map traverseSpan spans') ++ rest) = inr (spans', rest).
Proof.
  revert spans'. induction spans as [|[e s] spans IH]; intros [|[e' s'] spans'];
    try done.
  intros [= -> Hfst]. cbn. destruct (decide (e' = e')); [|done].
  by rewrite (IH spans' Hfst).
Qed.

(** X9. The function rebuilds a template from a queue exactly when the
    queue begins with the parts of a template that has the expressions of
    the given one at the same places; the result is that template, with the
    literals of the queue, and the rest of the queue is left over. The
    literals of the given template are not looked at. *)
Theorem traverseRecreate_rebuilds t parts t' rest :
  traverseRecreate t parts = inr (t', rest)
  ↔ sameExpressions t t' ∧ parts = traverseExtract t' ++ rest.
Proof.
  split.
  - destruct t as [text|head spans]; cbn [traverseRecreate].
    + destruct parts as [|[v|] parts]; [done| |done]. by intros [= <- <-].
    + destruct parts as [|[v|] parts]; [done| |done]. cbn [recreateLiteral].
      destruct (recreateSpans spans parts) as [|[spans1 rest1]] eqn:Hspans; [done|].
      intros [= <- <-]. by apply recreateSpans_inv in Hspans as [Hfst ->].
  - intros [Hsame ->]. destruct t as [text|head spans], t' as [text'|head' spans'];
      try done.
    cbn. cbn in Hsame. by rewrite (recreateSpans_build spans spans' rest Hsame).
Qed.

(** X10. Extraction and rebuilding are inverse: from the parts of a
    template, followed by anything, the function rebuilds this template
    and leaves what follows. *)
Theorem traverseRecreate_roundtrip t rest :
  traverseRecreate t (traverseExtract t ++ rest) = inr (t, rest).
Proof.
  destruct t as [text|head spans]; [done|]. cbn.
  by rewrite (recreateSpans_build spans spans rest eq_refl).
Qed.

End Rebuild.

(** ** The tags and the visitor *)

Section Tags.
Variable toUpperCase : jsstring → jsstring.
Implicit Types (node : Expression) (e : Error).

Lemma isStyledObject_spec node :
  isStyledObject node = true ↔ node = IdentifierExpression (js "styled").
Proof.
  destruct node; cbn [isStyledObject]; try (split; [done|by intros [=]]).
  rewrite bool_decide_eq_true. split; [by intros ->|by intros [=]].
Qed.

Lemma isStyledFunction_call node (arguments : list Expression) :
  isStyledFunction toUpperCase (CallExpression node arguments)
  = if (length arguments =? 1)%nat then
      if isStyledObject node then Ok true else isStyledAttrs toUpperCase node
    else Ok false.
Proof. by destruct node. Qed.

Lemma isStyledFunction_sound node :
  (isStyledFunction toUpperCase node = Ok true → Styled toUpperCase node)
  ∧ (∀ e, isStyledFunction toUpperCase node = Err e → e = TypeError ∧ EmptyComponent node).
Proof.
  cut ((isStyledFunction toUpperCase node = Ok true → Styled toUpperCase node)
       ∧ (∀ e, isStyledFunction toUpperCase node = Err e
               → e = TypeError ∧ EmptyComponent node)
       ∧ ∀ node' name, node = PropertyAccessExpression node' name →
           (isStyledFunction toUpperCase node' = Ok true → Styled toUpperCase node')
           ∧ (∀ e, isStyledFunction toUpperCase node' = Err e
                   → e = TypeError ∧ EmptyComponent node')).
  { tauto. }
  induction node as [text|node IH name|node IH arguments|].
  - repeat split; done.
  - split; [|split].
    + cbn [isStyledFunction].
      destruct (isStyledObject node) eqn:Hobj.
      { apply isStyledObject_spec in Hobj as ->. intros _. constructor. }
      case_bool_decide as Hname; [subst name|done].
      destruct node as [[|c rest]| | |]; try done. cbn.
      intros [= Hc]. apply bool_decide_eq_true in Hc. by constructor.
    + intros e. cbn [isStyledFunction].
      destruct (isStyledObject node) eqn:Hobj; [done|].
      case_bool_decide as Hname; [subst name|done].
      destruct node as [[|c rest]| | |]; try done. cbn.
      intros [= <-]. split; [done|constructor].
    + intros node' name' [= <- <-]. split; apply IH.
  - split; [|split; [|done]].
    + rewrite isStyledFunction_call.
      destruct arguments as [|argument [|]]; try done. cbn [length Nat.eqb].
      destruct (isStyledObject node) eqn:Hobj.
      { apply isStyledObject_spec in Hobj as ->. intros _. constructor. }
      destruct node as [|node' name| |]; try done. cbn [isStyledAttrs].
      case_bool_decide as Hname; [subst name|done].
      intros Hstyled. constructor.
      by apply (proj2 (proj2 IH) node' (js "attrs") eq_refl).
    + intros e. rewrite isStyledFunction_call.
      destruct arguments as [|argument [|]]; try done. cbn [length Nat.eqb].
      destruct (isStyledObject node) eqn:Hobj; [done|].
      destruct node as [|node' name| |]; try done. cbn [isStyledAttrs].
      case_bool_decide as Hname; [subst name|done].
      intros Herr.
      destruct (proj2 (proj2 (proj2 IH) node' (js "attrs") eq_refl) e Herr) as [-> ?].
      split; [done|]. by constructor.
  - repeat split; done.
Qed.

Lemma isStyledFunction_complete node :
  Styled toUpperCase node → isStyledFunction toUpperCase node = Ok true.
Proof.
  induction 1 as [name|c rest Hc|argument|styledFunction attributes _ IH].
  - done.
  - cbn [isStyledFunction]. destruct (isStyledObject _); [done|].
    rewrite bool_decide_eq_true_2 by done. cbn.
    by rewrite bool_decide_eq_true_2.
  - done.
  - rewrite isStyledFunction_call. cbn [length Nat.eqb isStyledObject isStyledAttrs].
    by rewrite bool_decide_eq_true_2.
Qed.

(** X11. The test of the tag answers true exactly on the four patterns:
    a property of the identifier [styled], whatever its name; [.extend] on
    an identifier whose first character is its own upper case; a call of
    the identifier [styled] with one argument; a call with one argument of
    [.attrs] on a tag of one of the four patterns. *)
Theorem isStyledFunction_patterns node :
  isStyledFunction toUpperCase node = Ok true ↔ Styled toUpperCase node.
Proof. split; [apply isStyledFunction_sound|apply isStyledFunction_complete]. Qed.

(** X12. The test of the tag fails only by reading the first character
    of an empty name, and exactly on these tags: [.extend] on an identifier
    without text, and calls with one argument of [.attrs] on such a tag. *)
Theorem isStyledFunction_throws node e :
  isStyledFunction toUpperCase node = Err e ↔ e = TypeError ∧ EmptyComponent node.
Proof.
  split; [apply isStyledFunction_sound|].
  intros [-> Hempty].
  induction Hempty as [|styledFunction attributes _ IH].
  - cbn [isStyledFunction isStyledObject].
    rewrite bool_decide_eq_false_2 by done.
    by rewrite bool_decide_eq_true_2.
  - rewrite isStyledFunction_call. cbn [length Nat.eqb isStyledObject isStyledAttrs].
    by rewrite bool_decide_eq_true_2.
Qed.

Section Calls.
Context {expr : Type} `{!Precedence expr}.
Variable stylisInst : jsstring → jsstring → jsstring.
Variable autoprefixer : jsstring → jsstring.

Lemma arityAgrees_plain (n : Node expr) : ¬ isArrowFunction n → arityAgrees [n].
Proof. intros Hn. destruct n; try done. destruct Hn. by eexists _, _. Qed.

Lemma transformProcessed_keyframe_plain (exprParts : list expr) (out : jsstring)
    (o : Output expr) :
  transformProcessed exprParts true out = Ok o →
  ¬ isArrowFunction (tmpl o) ∧ args o = [].
Proof.
  rewrite transformProcessed_keyframe. unfold keyframeShape.
  pose proof (ruleNodesOf_leaves exprParts [out]) as Hleaves.
  destruct (_ <? _)%nat; [done|].
  destruct (ruleNodesOf exprParts [out]).1 as [|arr [|]]; try done.
  destruct (addUp arr) as [sum|] eqn:Hsum; [|done].
  intros [= <-]. split; [|done]. rewrite Forall_singleton in Hleaves.
  by eapply addUp_not_arrow.
Qed.

Lemma transformProcessed_arity (exprParts : list expr) (out : jsstring)
    (o : Output expr) :
  transformProcessed exprParts false out = Ok o →
  arityAgrees (tmpl o :: args o).
Proof.
  destruct (splitRules out false) as [rules|] eqn:Hsplit;
    [|by unfold transformProcessed; rewrite Hsplit].
  rewrite (transformProcessed_rules exprParts out rules Hsplit). cbv zeta.
  assert (Hfn : functionalShape (ruleNodesOf exprParts rules).1
                  (ruleNodesOf exprParts rules).2 = Ok o →
                arityAgrees (tmpl o :: args o)).
  { unfold functionalShape.
    destruct (mapM addUp _) as [added|]; [|done]. cbn [mbind Result_bind].
    destruct (createArrayLiteral added) as [body|]; [|done]. intros [= <-].
    destruct (ruleNodesOf_slotsFor exprParts rules) as (keys & _ & _ & Hargs & Hvals & _).
    cbn. eexists. split; [done|]. rewrite Hargs, Hvals.
    by rewrite !length_map, length_seq. }
  destruct (_ =? 0)%nat; [|done].
  destruct ((simpleScan rules true).1); [|done].
  intros Hstatic.
  apply staticShape_not_arrow in Hstatic as [Hnot ->];
    [by apply arityAgrees_plain|apply ruleNodesOf_leaves].
Qed.

Lemma transformTemplate_arity (template : TemplateLiteral expr)
    (singleKeyframe : bool) (o : Output expr) :
  transformTemplate stylisInst autoprefixer template singleKeyframe = Ok o →
  arityAgrees (tmpl o :: args o) ∧ (singleKeyframe = true → args o = []).
Proof.
  unfold transformTemplate.
  destruct (compileCssString _ _ _ _ _) as [out|]; [|done].
  cbn [mbind Result_bind]. destruct singleKeyframe; intros Ho.
  - apply transformProcessed_keyframe_plain in Ho as [Hnot ->].
    split; [by apply arityAgrees_plain|done].
  - split; [by eapply transformProcessed_arity|done].
Qed.

(** The arguments of a call keep their number; an arrow function stays as
    it is, and what is put in the place of another argument is no arrow
    function. *)
Lemma createCall_arity (argumentsArray arguments : list (Node expr)) :
  mapM parenthesizeExpressionForList argumentsArray = Ok arguments →
  arityAgrees argumentsArray → arityAgrees arguments.
Proof.
  intros Hargs. pose proof (mapM_length _ _ _ Hargs) as Hlen.
  destruct argumentsArray as [|first rest]; [done|]. cbn [mapM] in Hargs.
  destruct (parenthesizeExpressionForList first) as [first'|] eqn:Hfirst; [|done].
  cbn [mbind Result_bind] in Hargs.
  destruct (mapM parenthesizeExpressionForList rest) as [rest'|] eqn:Hrest; [|done].
  injection Hargs as <-. simpl in Hlen. injection Hlen as Hlen.
  destruct first; cbn [parenthesizeExpressionForList] in Hfirst; try done;
    try (injection Hfirst as <-; cbn; intros ->; by destruct rest').
  - destruct (listElementNeedsParentheses e); injection Hfirst as <-; cbn;
      intros ->; by destruct rest'.
  - injection Hfirst as <-. cbn. intros (names & -> & Hnames).
    exists names. split; [done|]. congruence.
Qed.

Lemma isStyledFunction_not_keyframes (tag : Expression) :
  isKeyframesIdentifier tag = true →
  tag = IdentifierExpression (js "keyframes")
  ∧ isStyledFunction toUpperCase tag = Ok false.
Proof.
  destruct tag; try done. cbn. intros Hkey.
  by apply bool_decide_eq_true in Hkey as ->.
Qed.

(** X13. The visitor replaces a node by a call exactly when the node is a
    tagged template whose tag is of one of the four patterns or is the
    identifier [keyframes], the template compiles, in keyframe mode for
    [keyframes] and outside it otherwise, and no argument is [undefined];
    the call is on the tag, and its arguments are the compiled template,
    followed outside keyframe mode by the trailing arguments of the
    compilation, each as [parenthesizeExpressionForList] returns it. In such
    a call no argument is [undefined]; when the first argument is an arrow
    function, its parameters are [cls] and then one for each further
    argument, and otherwise there is no further argument; on [keyframes] the
    call has one argument. *)
Theorem visitor_call (node : SyntaxNode expr) (tag : Expression)
    (arguments : list (Node expr)) :
  (visitor toUpperCase stylisInst autoprefixer node = Ok (NewCall tag arguments)
   ↔ ∃ template o,
       node = TaggedTemplateExpression tag template
       ∧ (Styled toUpperCase tag ∨ tag = IdentifierExpression (js "keyframes"))
       ∧ transformTemplate stylisInst autoprefixer template (isKeyframesIdentifier tag)
         = Ok o
       ∧ mapM parenthesizeExpressionForList
           (tmpl o :: (if isKeyframesIdentifier tag then [] else args o))
         = Ok arguments)
  ∧ (visitor toUpperCase stylisInst autoprefixer node = Ok (NewCall tag arguments) →
     (Undefined ∉ arguments)
     ∧ arityAgrees arguments
     ∧ (isKeyframesIdentifier tag = true → length arguments = 1%nat)).
Proof.
  assert (Hiff : visitor toUpperCase stylisInst autoprefixer node
                 = Ok (NewCall tag arguments)
     ↔ ∃ template o,
         node = TaggedTemplateExpression tag template
         ∧ (Styled toUpperCase tag ∨ tag = IdentifierExpression (js "keyframes"))
         ∧ transformTemplate stylisInst autoprefixer template
             (isKeyframesIdentifier tag) = Ok o
         ∧ mapM parenthesizeExpressionForList
             (tmpl o :: (if isKeyframesIdentifier tag then [] else args o))
           = Ok arguments).
  { split.
    - destruct node as [tag' template|]; [|done]. cbn [visitor].
      destruct (isStyledFunction toUpperCase tag') as [styled|] eqn:Hstyled; [|done].
      cbn [mbind Result_bind].
      destruct (isKeyframesIdentifier tag') eqn:Hkey.
      + rewrite orb_true_r.
        destruct (transformTemplate _ _ template true) as [tf|] eqn:Htf; [|done].
        cbn [mbind Result_bind]. unfold createCall.
        destruct (mapM _ [tmpl tf]) as [arguments'|] eqn:Hargs; [|done].
        intros [= <- <-]. exists template, tf. rewrite Hkey.
        split; [done|]. split; [|done]. right.
        by apply isStyledFunction_not_keyframes in Hkey as [-> _].
      + rewrite orb_false_r. destruct styled; [|done].
        destruct (transformTemplate _ _ template false) as [tf|] eqn:Htf; [|done].
        cbn [mbind Result_bind]. unfold createCall.
        destruct (mapM _ (tmpl tf :: args tf)) as [arguments'|] eqn:Hargs; [|done].
        intros [= <- <-]. exists template, tf. rewrite Hkey.
        split; [done|]. split; [|done]. left. by apply isStyledFunction_sound.
    - intros (template & o & -> & Htag & Ho & Hargs). cbn [visitor].
      destruct (isKeyframesIdentifier tag) eqn:Hkey.
      + destruct (isStyledFunction_not_keyframes tag Hkey) as [_ ->].
        cbn [mbind Result_bind orb]. rewrite Ho.
        cbn [mbind Result_bind]. unfold createCall. by rewrite Hargs.
      + destruct Htag as [Htag| ->]; [|done].
        rewrite (isStyledFunction_complete tag Htag).
        cbn [mbind Result_bind orb]. rewrite Ho.
        cbn [mbind Result_bind]. unfold createCall. by rewrite Hargs. }
  split; [exact Hiff|]. intros Hcall.
  apply Hiff in Hcall as (template & o & _ & _ & Ho & Hargs).
  apply transformTemplate_arity in Ho as [Harity Hkey]. split; [|split].
  - assert (Hall : Forall (λ n, n ≠ Undefined) arguments).
    { eapply (mapM_Ok_Forall parenthesizeExpressionForList (λ _, True));
        [| |exact Hargs].
      - intros a b _ Hb. destruct a; try done; cbn in Hb;
          try destruct (listElementNeedsParentheses _); by injection Hb as <-.
      - by apply Forall_forall. }
    intros Hin. by apply (proj1 (Forall_forall _ _) Hall) in Hin.
  - destruct (isKeyframesIdentifier tag).
    + rewrite Hkey in Harity by done. by eapply createCall_arity.
    + by eapply createCall_arity.
  - intros Hk. rewrite Hk in Hargs. by apply mapM_length in Hargs.
Qed.

End Calls.
End Tags.

(** The template [styled.div`${Button}{color:red;}`], with a pipeline that
    puts the context and a space before the text: the call receives an arrow
    function of [cls] and [expr0], and [Button]. *)
Example visitor_on_a_class_reference :
  visitor (λ s, s) (λ context css, context ++ js " " ++ css) (λ css, css)
    (TaggedTemplateExpression
       (PropertyAccessExpression (IdentifierExpression (js "styled")) (js "div"))
       (TemplateExpression [] [("Button"%string, js "{color:red;}")]))
  = Ok (NewCall
          (PropertyAccessExpression (IdentifierExpression (js "styled")) (js "div"))
          [ArrowFunction [js "cls"; js "expr0"]
             (ArrayLiteral
                [Add (Add (Add (Identifier (js "cls")) (StringLiteral (js " .")))
                          (Identifier (js "expr0")))
                     (StringLiteral (js "{color:red;}"))]);
           Source "Button"%string]).
Proof. by vm_compute. Qed.

(** The template [styled.div``], with a pipeline that puts the text in the
    braces of the context: the compiled template is [undefined], and the
    call is not built. *)
Example visitor_on_an_empty_template :
  transformTemplate (expr := string)
    (λ context css, context ++ js "{" ++ css ++ js "}") (λ css, css)
    (NoSubstitutionTemplateLiteral []) false
  = Ok (mkOutput Undefined [])
  ∧ visitor (expr := string) (λ s, s)
      (λ context css, context ++ js "{" ++ css ++ js "}") (λ css, css)
      (TaggedTemplateExpression
         (PropertyAccessExpression (IdentifierExpression (js "styled")) (js "div"))
         (NoSubstitutionTemplateLiteral []))
    = Err TypeError.
Proof. by vm_compute. Qed.

(** ** The markers stay out of the output *)

Section MarkerFree.
Context {expr : Type} `{!Precedence expr}.
Variable exprParts : list expr.
Implicit Types (n : Node expr) (terms rn : list (Node expr)) (r : jsstring)
  (s : Slots expr) (keys : list Z).

Lemma blockTokens_below (p : CssPosition.t) r : Forall charBelow (blockTokens p r).
Proof.
  revert p. induction r as [|c r IH]; intros p; [constructor|].
  cbn [blockTokens]. apply Forall_app. split; [|apply IH].
  destruct (c =? CLASS_MARKER); [by repeat constructor|].
  destruct (Z.leb_spec START_CODE c).
  - destruct (CssPosition.eqb _ _); by repeat constructor.
  - by repeat constructor.
Qed.

Lemma tokens_markerFree terms :
  Forall isLeaf terms → Forall charBelow (termTokens terms) → Forall markerFree terms.
Proof.
  induction 1 as [|n terms Hn _ IH]; [constructor|].
  unfold termTokens. cbn [flat_map]. intros Htok.
  apply Forall_app in Htok as [Hn' Hterms]. constructor; [|by apply IH].
  destruct n; try done; try by constructor.
  unfold markerFree. cbn. constructor; [|constructor].
  cbn in Hn'. rewrite Forall_map in Hn'. exact Hn'.
Qed.

Lemma ruleTerms_markerFree keys s r :
  slotsFor exprParts keys s → Forall markerFree (ruleTerms exprParts s r).1.
Proof.
  intros Hs. apply tokens_markerFree; [by eapply ruleTerms_leaves|].
  rewrite (ruleTerms_tokens exprParts keys s r Hs). apply blockTokens_below.
Qed.

Lemma mapRules_markerFree keys s (rules : list jsstring) :
  slotsFor exprParts keys s →
  Forall (Forall markerFree) (mapRules exprParts s rules).1.
Proof.
  revert keys s. induction rules as [|r rules IH]; intros keys s Hs; [constructor|].
  rewrite mapRules_cons. cbn [fst]. constructor; [by eapply ruleTerms_markerFree|].
  destruct (ruleTerms_slotsFor exprParts keys s r Hs) as (keys' & Hs' & _).
  by apply (IH keys').
Qed.

Lemma ruleNodesOf_markerFree (rules : list jsstring) :
  Forall (Forall markerFree) (ruleNodesOf exprParts rules).1.
Proof.
  rewrite ruleNodesOf_filter.
  apply (mapRules_markerFree [] emptySlots), slotsFor_empty.
Qed.

Lemma createAdd_markerFree (lhs rhs sum : Node expr) :
  createAdd lhs rhs = Ok sum → markerFree lhs → markerFree rhs → markerFree sum.
Proof.
  intros Hadd Hl Hr.
  apply createAdd_inv in Hadd as (_ & _ & x & y & -> & Hx & Hy).
  unfold markerFree. cbn [literalsOf]. apply Forall_app. split.
  - by destruct Hx as [->|[-> _]].
  - by destruct Hy as [->|[-> _]].
Qed.

Lemma addUp_markerFree terms (sum : Node expr) :
  addUp terms = Ok sum → Forall markerFree terms → markerFree sum.
Proof.
  intros Hsum Hterms. destruct terms as [|n terms'].
  { cbn [addUp] in Hsum. injection Hsum as <-. constructor. }
  apply Forall_cons in Hterms as [Hn Hterms].
  cbn [addUp] in Hsum. revert n Hn Hsum.
  induction Hterms as [|x terms' Hx _ IH]; intros n Hn; [by intros [= <-]|].
  cbn [addLoop]. destruct (createAdd n x) as [sum0|] eqn:Hadd; [|done].
  cbn [mbind Result_bind]. apply IH. by eapply createAdd_markerFree.
Qed.

Lemma ArrayLiteral_markerFree (elements : list (Node expr)) :
  Forall markerFree elements → markerFree (ArrayLiteral elements).
Proof.
  unfold markerFree. induction 1 as [|n elements Hn _ IH]; [constructor|].
  cbn [literalsOf]. apply Forall_app. by split.
Qed.

Lemma createArrayLiteral_markerFree (elements : list (Node expr)) (array : Node expr) :
  createArrayLiteral elements = Ok array → Forall markerFree elements →
  markerFree array.
Proof.
  unfold createArrayLiteral.
  destruct (mapM parenthesizeExpressionForList elements) as [elements'|] eqn:Hmap;
    [|done].
  intros [= <-] Helements. apply ArrayLiteral_markerFree.
  eapply mapM_Ok_Forall; [|exact Helements|exact Hmap].
  intros n n' Hn Hn'. destruct n; try done; cbn in Hn';
    try destruct (listElementNeedsParentheses _); by injection Hn' as <-.
Qed.

Lemma sums_markerFree (nodes : list (list (Node expr))) (added : list (Node expr)) :
  mapM addUp nodes = Ok added →
  Forall (Forall markerFree) nodes → Forall markerFree added.
Proof.
  intros Hadded Hnodes. eapply mapM_Ok_Forall; [|exact Hnodes|exact Hadded].
  intros terms sum Hterms Hsum. by eapply addUp_markerFree.
Qed.

Lemma slice_below (text : jsstring) (b e : Z) :
  belowMarkers text → belowMarkers (slice text b e).
Proof. intros Htext. unfold slice. by apply Forall_take, Forall_drop. Qed.

Lemma setText_slice_markerFree n (text : jsstring) (b e : Z) :
  nodeText n = Ok text → markerFree n → markerFree (setText n (slice text b e)).
Proof.
  destruct n; try done; intros [= <-] Hn.
  unfold markerFree in *. cbn in *. rewrite Forall_singleton in Hn.
  constructor; [by apply slice_below|constructor].
Qed.

Lemma stripOpen_markerFree rn rn' :
  stripOpen rn = Ok rn' → Forall markerFree rn → Forall markerFree rn'.
Proof.
  destruct rn as [|first rest]; [done|]. unfold stripOpen, mbind, Result_bind.
  destruct (nodeText first) as [text|] eqn:Htext; [|done].
  destruct (bool_decide _); [|done]. intros [= <-] Hrn.
  apply Forall_cons in Hrn as [Hfirst Hrest]. constructor; [|done].
  by apply setText_slice_markerFree.
Qed.

Lemma stripClose_markerFree rn rn' :
  stripClose rn = Ok rn' → Forall markerFree rn → Forall markerFree rn'.
Proof.
  unfold stripClose, mbind, Result_bind. destruct (last rn) as [l|] eqn:Hlast; [|done].
  apply last_Some in Hlast as [rn0 ->]. rewrite removelast_last.
  destruct (nodeText l) as [text|] eqn:Htext; [|done].
  destruct (bool_decide _); [|done]. intros Hok Hrn.
  apply Forall_app in Hrn as [Hrn0 Hl]. rewrite Forall_singleton in Hl.
  destruct (_ =? 0); injection Hok as <-; [done|].
  apply Forall_app. split; [done|]. apply Forall_singleton.
  by apply setText_slice_markerFree.
Qed.

Lemma stripRule_markerFree (collapseSingle : bool) rn rn' :
  stripRule collapseSingle rn = Ok rn' → Forall markerFree rn → Forall markerFree rn'.
Proof.
  destruct rn as [|first rn]; [done|]. unfold stripRule, mbind, Result_bind.
  destruct (isClassNameArg first); [|done]. intros Hok Hrn.
  apply Forall_cons in Hrn as [_ Hrn]. destruct collapseSingle.
  - destruct (stripOpen rn) as [rn1|] eqn:Hopen; [|done].
    eapply stripClose_markerFree; [done|]. by eapply stripOpen_markerFree.
  - by injection Hok as <-.
Qed.

Lemma mapM_stripRule_markerFree (collapseSingle : bool)
    (nodes stripped : list (list (Node expr))) :
  mapM (stripRule collapseSingle) nodes = Ok stripped →
  Forall (Forall markerFree) nodes → Forall (Forall markerFree) stripped.
Proof.
  revert stripped. induction nodes as [|rn nodes IH]; intros stripped.
  - intros [= <-] _. constructor.
  - cbn [mapM]. unfold mbind, Result_bind, mret, Result_ret.
    destruct (stripRule collapseSingle rn) as [rn'|] eqn:Hrn; [|done].
    destruct (mapM (stripRule collapseSingle) nodes) as [rest|]; [|done].
    intros [= <-] Hall. apply Forall_cons in Hall as [Hrn' Hnodes].
    constructor; [by eapply stripRule_markerFree|by apply IH].
Qed.

Lemma staticShape_markerFree (nodes : list (list (Node expr))) (isSuperSimple : bool)
    (o : Output expr) :
  staticShape nodes isSuperSimple = Ok o →
  Forall (Forall markerFree) nodes → markerFree (tmpl o).
Proof.
  intros Hok Hnodes. unfold staticShape in Hok.
  destruct (mapM _ nodes) as [stripped|] eqn:Hstrip; [|done].
  cbn [mbind Result_bind] in Hok.
  destruct (mapM addUp stripped) as [added|] eqn:Hadded; [|done].
  cbn [mbind Result_bind] in Hok.
  pose proof (sums_markerFree _ _ Hadded
                (mapM_stripRule_markerFree _ _ _ Hstrip Hnodes)) as Hsums.
  destruct (_ && _).
  - injection Hok as <-. cbn [tmpl]. destruct Hsums; [constructor|done].
  - destruct (createArrayLiteral added) as [array|] eqn:Harray; [|done].
    injection Hok as <-. by eapply createArrayLiteral_markerFree.
Qed.

Lemma functionalShape_markerFree (nodes : list (list (Node expr))) (s : Slots expr)
    (o : Output expr) :
  functionalShape nodes s = Ok o →
  Forall (Forall markerFree) nodes → markerFree (tmpl o).
Proof.
  unfold functionalShape. intros Hok Hnodes.
  destruct (mapM addUp nodes) as [added|] eqn:Hadded; [|done].
  cbn [mbind Result_bind] in Hok.
  destruct (createArrayLiteral added) as [body|] eqn:Hbody; [|done].
  injection Hok as <-. cbn [tmpl]. change (markerFree body).
  eapply createArrayLiteral_markerFree; [done|]. by eapply sums_markerFree.
Qed.

Lemma transformProcessed_markerFree (singleKeyframe : bool) (out : jsstring)
    (o : Output expr) :
  transformProcessed exprParts singleKeyframe out = Ok o → markerFree (tmpl o).
Proof.
  destruct singleKeyframe.
  - rewrite transformProcessed_keyframe. unfold keyframeShape.
    pose proof (ruleNodesOf_markerFree [out]) as Hfree.
    destruct (_ <? _)%nat; [done|].
    destruct (ruleNodesOf exprParts [out]).1 as [|arr [|]]; try done.
    destruct (addUp arr) as [sum|] eqn:Hsum; [|done].
    intros [= <-]. rewrite Forall_singleton in Hfree. by eapply addUp_markerFree.
  - destruct (splitRules out false) as [rules|] eqn:Hsplit;
      [|by unfold transformProcessed; rewrite Hsplit].
    rewrite (transformProcessed_rules exprParts out rules Hsplit). cbv zeta.
    pose proof (ruleNodesOf_markerFree rules) as Hfree.
    destruct (_ =? 0)%nat; [|intros Ho; by eapply functionalShape_markerFree].
    destruct ((simpleScan rules true).1);
      [|intros Ho; by eapply functionalShape_markerFree].
    intros Hstatic. by eapply staticShape_markerFree.
Qed.

End MarkerFree.

Section MarkersOut.
Context {expr : Type} `{!Precedence expr}.
Variable stylisInst : jsstring → jsstring → jsstring.
Variable autoprefixer : jsstring → jsstring.

(** X14. Whatever the pipeline returns, no string literal that the
    transformer creates in a compiled template holds a code unit at or above
    the code of the class marker. So, in a template of at most 65305
    expressions, whose markers are all at or above that code, no literal of
    the compiled template holds the class marker or the marker of an
    expression. *)
Theorem markers_stay_out (t : TemplateLiteral expr) (singleKeyframe : bool)
    (o : Output expr) :
  transformTemplate stylisInst autoprefixer t singleKeyframe = Ok o →
  markerFree (tmpl o)
  ∧ (Z.of_nat (length (exprPartsOf (traverseExtract t))) ≤ 65305 →
     ∀ text m, text ∈ literalsOf (tmpl o) →
       m = CLASS_MARKER ∨ [m] ∈ exprMarkers (traverseExtract t) →
       m ∉ text).
Proof.
  unfold transformTemplate.
  destruct (compileCssString _ _ _ _ _) as [out|]; [|done].
  cbn [mbind Result_bind]. intros Ho.
  apply transformProcessed_markerFree in Ho. split; [done|].
  intros Hlen text m Htext Hm Hin.
  apply (proj1 (Forall_forall _ _) Ho) in Htext.
  apply (proj1 (Forall_forall _ _) Htext) in Hin.
  destruct Hm as [->|Hm]; [by vm_compute in Hin|].
  destruct (encodeParts_markedText (traverseExtract t) 0) as [_ Hmarkers]; [lia..|].
  unfold exprMarkers in Hm. rewrite Z.add_0_r in Hmarkers. rewrite Hmarkers in Hm.
  apply list_elem_of_In, in_map_iff in Hm as (i & [= <-] & _).
  unfold START_CODE in Hin. lia.
Qed.

End MarkersOut.

Lemma markers_stay_out_example :
  markerFree (expr := string)
    (ArrowFunction [js "cls"; js "expr0"]
       (ArrayLiteral
          [Add (Add (Add (Identifier (js "cls")) (StringLiteral (js " .")))
                    (Identifier (js "expr0")))
               (StringLiteral (js "{color:red;}"))]))
  ∧ (Z.of_nat (length (exprPartsOf (traverseExtract
                 (TemplateExpression [] [("Button"%string, js "{color:red;}")]))))
     ≤ 65305 →
     ∀ text m,
       text ∈ literalsOf (expr := string)
                (ArrowFunction [js "cls"; js "expr0"]
                   (ArrayLiteral
                      [Add (Add (Add (Identifier (js "cls")) (StringLiteral (js " .")))
                                (Identifier (js "expr0")))
                           (StringLiteral (js "{color:red;}"))])) →
       m = CLASS_MARKER
       ∨ [m] ∈ exprMarkers
                 (traverseExtract
                    (TemplateExpression [] [("Button"%string, js "{color:red;}")])) →
       m ∉ text).
Proof.
  apply (markers_stay_out (λ context css, context ++ js " " ++ css) (λ css, css)
           (TemplateExpression [] [("Button"%string, js "{color:red;}")]) false
           (mkOutput
              (ArrowFunction [js "cls"; js "expr0"]
                 (ArrayLiteral
                    [Add (Add (Add (Identifier (js "cls")) (StringLiteral (js " .")))
                              (Identifier (js "expr0")))
                         (StringLiteral (js "{color:red;}"))]))
              [Source "Button"%string])).
  vm_compute. reflexivity.
Defined.
